(** * practal/text: parser combinators over indentation-structured text

    A shallow embedding of [src/textlines.ts], [src/parser.ts],
    [src/combinators.ts] and of the LR driver [lrP], followed by the
    properties of the specification that are settled against it.

    Conventions of the embedding.
    - The TypeScript type [nat] is Rocq's [nat]; the [number] that a
      [Lexer] returns is a [Z].
    - A call either returns a value, throws, or (for the two [while (true)]
      loops, [repP] and the LR driver) may fail to terminate: see [Run].
    - Parse trees are values.  The source updates freshly built trees in
      place ([setTypeP], [shiftResult]); every combinator allocates its node
      with an object literal, so a functional update is the same thing for
      the trees that the combinators build.  A parser written by hand can
      return a node that it was handed (the bullet result passed to the body
      parser of [sectionP]); the shift in place then moves that node as
      well, which the embedding does not follow.  The properties of
      [sectionP] are therefore stated for body parsers built from the
      combinators. *)

From Stdlib Require Import String Ascii DecimalString.
From Stdlib Require Import List Arith ZArith Lia Bool Sorting.Sorted.
Import ListNotations.

Set Implicit Arguments.
Set Warnings "-notation-for-abbreviation,-register-all".

(** ** Outcomes of a call *)

(** The [throw new Error(...)] sites of the source, and the JS run-time
    errors reached through [undefined]. *)
Inductive Error : Type :=
| InvalidPosition      (* TextLines.assert *)
| InvalidLine          (* cutoff view, lineAt *)
| OutOfBoundsIndex     (* TextSlice.charAt *)
| InvalidSlice         (* TextSlice.slice *)
| OutOfBounds          (* EmptyTextLines.lineAt *)
| WindowMismatch       (* TextLinesWindow constructor *)
| UntilOutOfRange      (* TextLinesUntil constructor and lineAt *)
| InvalidArguments     (* joinResults, no result and no bounds *)
| InvalidLayout        (* joinResults, relative arrangement *)
| ForceFailed          (* force(undefined | null) *)
| InvalidTerminalHandle
| InternalError
| DuplicateSymbol      (* mkTerminalParsers *)
| TypeError.           (* property access on undefined *)

Inductive Run (A : Type) : Type :=
| Ok (a : A)
| Throw (e : Error)
| Diverge.

Arguments Ok {A} a.
Arguments Throw {A} e.
Arguments Diverge {A}.

Definition bind {A B : Type} (m : Run A) (k : A -> Run B) : Run B :=
  match m with
  | Ok a => k a
  | Throw e => Throw e
  | Diverge => Diverge
  end.

Declare Scope run_scope.
Delimit Scope run_scope with run.
Notation "x <- m ;; k" := (bind m (fun x => k))
  (at level 61, m at next level, right associativity) : run_scope.
Notation "' p <- m ;; k" := (bind m (fun p => k))
  (at level 61, p pattern, m at next level, right associativity) : run_scope.
Notation "m ;;; k" := (bind m (fun _ => k))
  (at level 61, right associativity) : run_scope.
Open Scope run_scope.

(** [xs[i]] on a JS array whose use follows at once: [undefined] there is a
    [TypeError] at the first property access. *)
Definition index {A : Type} (xs : list A) (i : nat) : Run A :=
  match nth_error xs i with
  | Some x => Ok x
  | None => Throw TypeError
  end.

(** ** textlines.ts: Text *)

(** "Some sort of normalized character representation."  The model covers the
    ASCII range, where NFC normalisation is the identity and a code point is
    one [ascii]. *)
Definition TextChar : Type := ascii.

(** class TextSlice *)
Record Text : Type := TextSlice {
  startIndex : nat;
  count : nat;
  chars : list TextChar
}.

(** [Symbol.iterator]: the characters [chars[startIndex .. startIndex+count)]. *)
Definition iterText (t : Text) : list TextChar :=
  firstn (count t) (skipn (startIndex t) (chars t)).

(** [chars[startIndex + index]] is never [undefined] in a slice built by
    [textOf], [textOfChars] and [slice], which keep
    [startIndex + count <= chars.length]; outside of that the model raises
    [TypeError]. *)
Definition charAt (t : Text) (i : nat) : Run TextChar :=
  if count t <=? i then Throw OutOfBoundsIndex
  else index (chars t) (startIndex t + i).

(** [slice(startIndexInclusive, endIndexExclusive?)] *)
Definition slice (t : Text) (startIndexInclusive : nat)
    (endIndexExclusive : option nat) : Run Text :=
  let e := match endIndexExclusive with Some e => e | None => count t end in
  if e <? startIndexInclusive then Throw InvalidSlice
  else if count t <? e then Throw InvalidSlice
  else Ok (TextSlice (startIndexInclusive + startIndex t)
                     (e - startIndexInclusive) (chars t)).

(** [toString] joins the whole backing array. *)
Definition toString (t : Text) : string := string_of_list_ascii (chars t).

Definition textOfChars (cs : list TextChar) : Text :=
  TextSlice 0 (length cs) cs.

Inductive StringOrText : Type :=
| Str (s : string)
| Txt (t : Text).

(** [textOf]: on a string of ASCII characters [text.normalize("NFC")] is the
    string itself and [[...text]] has one element for each character; the
    model is [textOf] on these strings only. *)
Definition textOf (text : StringOrText) : Text :=
  match text with
  | Str s => let cs := list_ascii_of_string s in TextSlice 0 (length cs) cs
  | Txt t => t
  end.

(** ** lexer.ts *)

(** "Returns the length after a successful parse, and a negative number if
    unsuccessful." *)
Definition Lexer : Type := Text -> nat -> Run Z.

(** ** textlines.ts: TextLines *)

(** interface TextLines.  Every implementation defines [assert] as
    [if (!this.valid(line, column)) throw ...]; it is derived below. *)
Record TextLines : Type := mkTextLines {
  lineCount : nat;
  lineAt : nat -> Run Text;
  valid : nat -> nat -> bool;
  absolute : nat -> nat -> Run (nat * nat)
}.

Definition assert (lines : TextLines) (line column : nat) : Run unit :=
  if valid lines line column then Ok tt else Throw InvalidPosition.

(** [valid] of TextLinesImpl and of TextLinesWindow. *)
Definition validIn (ls : list Text) (line column : nat) : bool :=
  match nth_error ls line with
  | Some t => column <=? count t
  | None => (length ls =? 0) && (line =? 0) && (column =? 0)
  end.

(** class TextLinesImpl *)
Definition TextLinesImpl (ls : list Text) : TextLines :=
  {| lineCount := length ls;
     lineAt := fun line => index ls line;
     valid := validIn ls;
     absolute := fun line column => Ok (line, column) |}.

Definition LF : ascii := ascii_of_nat 10.
Definition CR : ascii := ascii_of_nat 13.

(** [lines.split(/\n\r|\r\n|\r|\n/)], [cur] holding the current piece
    reversed. *)
Fixpoint splitLines (cur : list ascii) (s : list ascii) : list (list ascii) :=
  match s with
  | [] => [rev cur]
  | c :: rest =>
      if Ascii.eqb c LF then
        match rest with
        | d :: rest' =>
            if Ascii.eqb d CR then rev cur :: splitLines [] rest'
            else rev cur :: splitLines [] rest
        | [] => rev cur :: splitLines [] rest
        end
      else if Ascii.eqb c CR then
        match rest with
        | d :: rest' =>
            if Ascii.eqb d LF then rev cur :: splitLines [] rest'
            else rev cur :: splitLines [] rest
        | [] => rev cur :: splitLines [] rest
        end
      else splitLines (c :: cur) rest
  end.

Inductive StringOrTexts : Type :=
| OfString (s : string)
| OfTexts (ls : list Text).

Definition createTextLines (lines : StringOrTexts) : TextLines :=
  match lines with
  | OfString s =>
      TextLinesImpl
        (map (fun cs => textOf (Str (string_of_list_ascii cs)))
             (splitLines [] (list_ascii_of_string s)))
  | OfTexts ls => TextLinesImpl ls
  end.

(** The loop of [copySliceOfTextLines], [n] lines from [i] on. *)
Fixpoint copySliceLoop (textlines : TextLines)
    (startLine startColumn endLine endColumn : nat) (n i : nat)
    : Run (list Text) :=
  match n with
  | 0 => Ok []
  | S n' =>
      text <- lineAt textlines i ;;
      let start := if i =? startLine then startColumn else 0 in
      let end_ := if i =? endLine then endColumn else count text in
      t <- slice text start (Some end_) ;;
      rest <- copySliceLoop textlines startLine startColumn endLine endColumn
                n' (S i) ;;
      Ok (t :: rest)
  end.

Definition copySliceOfTextLines (textlines : TextLines)
    (startLine startColumn endLine endColumn : nat) : Run TextLines :=
  assert textlines startLine startColumn ;;;
  assert textlines endLine endColumn ;;;
  (* lastLine = Math.min(lineCount - 1, endLine); i runs over
     startLine .. lastLine, which is empty when lineCount = 0 *)
  let n := Nat.min (lineCount textlines) (S endLine) - startLine in
  ls <- copySliceLoop textlines startLine startColumn endLine endColumn
          n startLine ;;
  Ok (createTextLines (OfTexts ls)).

Definition NEWLINE : Text := textOf (Str (String LF EmptyString)).

Fixpoint textOfTextLinesLoop (textlines : TextLines)
    (separator : list TextChar) (n i : nat) : Run (list TextChar) :=
  match n with
  | 0 => Ok []
  | S n' =>
      text <- lineAt textlines i ;;
      rest <- textOfTextLinesLoop textlines separator n' (S i) ;;
      Ok ((if 0 <? i then separator else []) ++ iterText text ++ rest)
  end.

Definition textOfTextLines (textlines : TextLines) (line_separator : Text)
    : Run Text :=
  cs <- textOfTextLinesLoop textlines (iterText line_separator)
          (lineCount textlines) 0 ;;
  Ok (textOfChars cs).

(** The object literal returned by [cutoffAfterIndentation]; [line] is the
    first line that is no longer indented. *)
Definition CutoffTextLines (source : TextLines) (line : nat) : TextLines :=
  {| lineCount := line;
     lineAt := fun l =>
       if lineCount source <=? l then Throw InvalidLine else lineAt source l;
     valid := fun l column => valid source l column && (l <? line);
     absolute := fun l column => absolute source l column |}.

(** [while (line < lineCount)] of [cutoffAfterIndentation]; [n] bounds the
    lines still to inspect. *)
Fixpoint cutoffLoop (source : TextLines) (isIndented : Text -> Run bool)
    (n line : nat) : Run TextLines :=
  match n with
  | 0 => Ok source
  | S n' =>
      text <- lineAt source line ;;
      b <- isIndented text ;;
      if b then cutoffLoop source isIndented n' (S line)
      else Ok (CutoffTextLines source line)
  end.

Definition cutoffAfterIndentation (source : TextLines) (line : nat)
    (isIndented : Text -> Run bool) : Run TextLines :=
  assert source line 0 ;;;
  cutoffLoop source isIndented (lineCount source - (line + 1)) (line + 1).

(** interface CutoutTextLines extends TextLines *)
Record CutoutTextLines : Type := mkCutout {
  base :> TextLines;
  shift : nat -> nat -> Run (nat * nat)
}.

(** class TextLinesWindow.  [columns[line]] is [undefined] only for a window
    without lines, which [cutoutTextLines] never builds (JS would compute
    NaN there); the model raises [TypeError]. *)
Definition windowShift (startLine : nat) (ls : list Text) (columns : list nat)
    (line column : nat) : Run (nat * nat) :=
  if validIn ls line column then
    c <- index columns line ;;
    Ok (line + startLine, column + c)
  else Throw InvalidPosition.

Definition TextLinesWindow (source : TextLines) (startLine : nat)
    (ls : list Text) (columns : list nat) : Run CutoutTextLines :=
  if negb (length ls =? length columns) then Throw WindowMismatch
  else
    Ok {| base :=
            {| lineCount := length ls;
               lineAt := fun line => index ls line;
               valid := validIn ls;
               absolute := fun line column =>
                 ' (l, c) <- windowShift startLine ls columns line column ;;
                 absolute source l c |};
          shift := windowShift startLine ls columns |}.

(** class EmptyTextLines *)
Definition EmptyTextLines (source : TextLines) (line column : nat)
    : Run CutoutTextLines :=
  assert source line column ;;;
  let validE := fun l c : nat => (l =? 0) && (c =? 0) in
  Ok {| base :=
          {| lineCount := 0;
             lineAt := fun _ => Throw OutOfBounds;
             valid := validE;
             absolute := fun l c =>
               if validE l c then absolute source line column
               else Throw InvalidPosition |};
        shift := fun l c =>
          if validE l c then Ok (line, column) else Throw InvalidPosition |}.

(** The [for] loop of [cutoutTextLines] over the [n] lines from [i] on. *)
Fixpoint cutoutLoop (source : TextLines) (skipRemaining : Lexer) (n i : nat)
    : Run (list Text * list nat) :=
  match n with
  | 0 => Ok ([], [])
  | S n' =>
      text <- lineAt source i ;;
      skipped <- skipRemaining text 0 ;;
      if (skipped <? 0)%Z then Ok ([], [])
      else
        t <- slice text (Z.to_nat skipped) None ;;
        ' (ls, cs) <- cutoutLoop source skipRemaining n' (S i) ;;
        Ok (t :: ls, Z.to_nat skipped :: cs)
  end.

Definition cutoutTextLines (source : TextLines) (line column : nat)
    (skipFirst skipRemaining : Lexer) : Run CutoutTextLines :=
  assert source line column ;;;
  if lineCount source =? 0 then EmptyTextLines source line column
  else
    text <- lineAt source line ;;
    s <- skipFirst text column ;;
    let skipped := Z.to_nat (Z.max s 0) in
    text' <- slice text (column + skipped) None ;;
    ' (ls, cs) <- cutoutLoop source skipRemaining
                    (lineCount source - (line + 1)) (line + 1) ;;
    TextLinesWindow source line (text' :: ls) (column + skipped :: cs).

(** class TextLinesUntil, from its constructor. *)
Definition TextLinesUntil (source : TextLines) (endLine endColumn : nat)
    : Run TextLines :=
  if lineCount source <=? endLine then Throw UntilOutOfRange
  else
    lastLine0 <- lineAt source endLine ;;
    lastLine <- (if count lastLine0 <=? endColumn then Ok lastLine0
                 else slice lastLine0 0 (Some endColumn)) ;;
    Ok {| lineCount := endLine + 1;
          lineAt := fun line =>
            if line <? endLine then lineAt source line
            else if line =? endLine then Ok lastLine
            else Throw UntilOutOfRange;
          valid := fun line column =>
            if negb (valid source line column) then false
            else if line <? endLine then true
            else if endLine <? line then false
            else column <=? count lastLine;
          absolute := fun line offset => absolute source line offset |}.

Definition textlinesUntil (lines : TextLines) (endLine endColumn : nat)
    : Run TextLines :=
  if lineCount lines <=? endLine then Ok lines
  else TextLinesUntil lines endLine endColumn.

(** ** parser.ts: results *)

(** [type : T | null | undefined]: a label, [null] for a structural node,
    [undefined] for a node to be thrown away. *)
Inductive ResultType (T : Type) : Type :=
| Label (t : T)
| TNull
| TUndefined.

Arguments TNull {T}.
Arguments TUndefined {T}.

Definition isUndefined {T : Type} (ty : ResultType T) : bool :=
  match ty with TUndefined => true | _ => false end.

Inductive Result (T : Type) : Type := mkResult {
  type : ResultType T;
  startLine : nat;
  startColumnInclusive : nat;
  endLine : nat;
  endColumnExclusive : nat;
  children : list (Result T)
}.

Definition ParseResult (State T : Type) : Type := option (State * Result T).

Definition Parser (State T : Type) : Type :=
  State -> TextLines -> nat -> nat -> Run (ParseResult State T).

(** The four coordinates have the type [nat], on which the test [nat.is] of
    the source is true. *)
Definition resultCoordinatesAreValid
    (startLine startColumn endLine endColumn : nat) : bool :=
  if negb (startLine =? endLine) then startLine <? endLine
  else startColumn <=? endColumn.

Definition startOfResult {T} (result : Result T) : nat * nat :=
  (startLine result, startColumnInclusive result).

Definition endOfResult {T} (result : Result T) : nat * nat :=
  (endLine result, endColumnExclusive result).

(** [children.push(r)] unless the result is to be thrown away. *)
Definition pushResult {T} (children : list (Result T)) (r : Result T)
    : list (Result T) :=
  if isUndefined (type r) then children else children ++ [r].

(** The [for] loop of [joinResults], with its cursor [(line, column)]. *)
Fixpoint joinLoop {T} (results : list (Result T)) (line column : nat)
    (children : list (Result T)) : Run (nat * nat * list (Result T)) :=
  match results with
  | [] => Ok (line, column, children)
  | r :: rest =>
      let children' := pushResult children r in
      if negb (resultCoordinatesAreValid line column
                 (startLine r) (startColumnInclusive r))
      then Throw InvalidLayout
      else joinLoop rest (endLine r) (endColumnExclusive r) children'
  end.

Definition isNone {A} (o : option A) : bool :=
  match o with None => true | Some _ => false end.

Definition joinResults {T} (results : list (Result T)) (ty : ResultType T)
    (start end_ : option (nat * nat)) : Run (Result T) :=
  if (length results =? 0) && (isNone start || isNone end_)
  then Throw InvalidArguments
  else
    ' (startLine, startColumn) <-
        match start with
        | None => r <- index results 0 ;; Ok (startOfResult r)
        | Some p => Ok p
        end ;;
    ' (endLine, endColumn) <-
        match end_ with
        | None => r <- index results (length results - 1) ;; Ok (endOfResult r)
        | Some p => Ok p
        end ;;
    ' (line, column, children) <- joinLoop results startLine startColumn [] ;;
    if negb (resultCoordinatesAreValid line column endLine endColumn)
    then Throw InvalidLayout
    else Ok (mkResult ty startLine startColumn endLine endColumn children).

Definition textlinesOfResult {T} (lines : TextLines) (result : Result T)
    : Run TextLines :=
  copySliceOfTextLines lines (startLine result) (startColumnInclusive result)
    (endLine result) (endColumnExclusive result).

Definition textOfResult {T} (lines : TextLines) (result : Result T)
    : Run Text :=
  tl <- textlinesOfResult lines result ;;
  textOfTextLines tl NEWLINE.

(** ** parser.ts: printing *)

(** The template literal [`${x}`] for a natural number. *)
Definition numberToString (x : nat) : string :=
  NilZero.string_of_uint (Nat.to_uint x).

Fixpoint padZeros (n : nat) (s : string) : string :=
  match n with
  | 0 => s
  | S n' => padZeros n' (String "0"%char s)
  end.

(** [while (s.length < len) s = "0" + s] runs [len - s.length] times. *)
Definition digits (x len : nat) : string :=
  let s := numberToString x in
  padZeros (len - String.length s) s.

Definition printRange {T} (result : Result T) : string :=
  let d2 := fun x => digits x 2 in
  let from := (d2 (startLine result) ++ ":"
               ++ d2 (startColumnInclusive result))%string in
  let to := (d2 (endLine result) ++ ":"
             ++ d2 (endColumnExclusive result))%string in
  ("[" ++ from ++ " to " ++ to ++ "[")%string.

(** [pruneResult(result, pruned)] appends to [pruned]; the model returns what
    is appended. *)
Fixpoint pruneResult {T} (result : Result T) : list (Result T) :=
  match result with
  | mkResult ty sl sc el ec cs =>
      match ty with
      | TUndefined => []
      | TNull => flat_map pruneResult cs
      | Label t => [mkResult (Label t) sl sc el ec (flat_map pruneResult cs)]
      end
  end.

(** [force] of the library "things": the value, unless it is [undefined] or
    [null]. *)
Definition force {T} (ty : ResultType T) : Run T :=
  match ty with
  | Label t => Ok t
  | _ => Throw ForceFailed
  end.

Definition dquote : string := String (ascii_of_nat 34) EmptyString.

Section Printing.
Context {T : Type}.
Variable lines : TextLines.
Variable nameOf : T -> string.
Variable isOpaque : T -> bool.

(** [process] of [printResult]; the value is the list of strings handed to
    [print], in order. *)
Fixpoint process (prefix : string) (result : Result T)
    : Run (list string) :=
  match result with
  | mkResult ty sl sc el ec cs =>
      t <- force ty ;;
      let opaque := isOpaque t in
      if (length cs =? 0) && (sl =? el) then
        text <- textOfResult lines result ;;
        if opaque then
          Ok [(printRange result ++ prefix ++ "   " ++ nameOf t)%string]
        else
          Ok [(printRange result ++ prefix ++ "   " ++ nameOf t ++ " = "
               ++ dquote ++ toString text ++ dquote)%string]
      else
        let head := (printRange result ++ prefix ++ "   " ++ nameOf t)%string in
        if negb opaque then
          rest <- (fix each (cs : list (Result T)) : Run (list string) :=
                     match cs with
                     | [] => Ok []
                     | c :: cs' =>
                         a <- process (prefix ++ "    ")%string c ;;
                         b <- each cs' ;;
                         Ok (a ++ b)
                     end) cs ;;
          Ok (head :: rest)
        else Ok [head]
  end.

Fixpoint processAll (pruned : list (Result T)) : Run (list string) :=
  match pruned with
  | [] => Ok []
  | p :: rest =>
      a <- process "" p ;;
      b <- processAll rest ;;
      Ok (a ++ b)
  end.

Definition printResult (result : Result T) : Run (list string) :=
  processAll (pruneResult result).
End Printing.

(** ** combinators.ts *)

Section Combinators.
Context {State T : Type}.

Local Notation Parser := (Parser State T).
Local Notation Result := (Result T).

Definition emptyP : Parser := fun state lines line column =>
  assert lines line column ;;;
  Ok (Some (state, mkResult TNull line column line column [])).

Definition failP : Parser := fun state lines line column =>
  assert lines line column ;;;
  Ok None.

(** The [for] loop of [seqP]. *)
Fixpoint seqLoop (parsers : list Parser) (state : State) (lines : TextLines)
    (line column : nat) (children : list Result)
    : Run (option (State * nat * nat * list Result)) :=
  match parsers with
  | [] => Ok (Some (state, line, column, children))
  | parser :: rest =>
      parsed <- parser state lines line column ;;
      match parsed with
      | None => Ok None
      | Some (state', result) =>
          seqLoop rest state' lines (endLine result)
            (endColumnExclusive result) (pushResult children result)
      end
  end.

Definition seqP (parsers : list Parser) : Parser :=
  match parsers with
  | [] => emptyP
  | [p] => p
  | _ => fun state lines line column =>
      assert lines line column ;;;
      r <- seqLoop parsers state lines line column [] ;;
      match r with
      | None => Ok None
      | Some (state', l, c, children) =>
          Ok (Some (state', mkResult TNull line column l c children))
      end
  end.

Definition charP (predicate : TextChar -> bool) : Parser :=
  fun state lines line column =>
    assert lines line column ;;;
    if lineCount lines <=? line then Ok None
    else
      text <- lineAt lines line ;;
      if count text <=? column then Ok None
      else
        c <- charAt text column ;;
        if negb (predicate c) then Ok None
        else Ok (Some (state,
               mkResult TUndefined line column line (column + 1) [])).

Definition anyCharP : Parser := charP (fun _ => true).

Definition newlineP : Parser := fun state lines line column =>
  assert lines line column ;;;
  b <- (if line + 1 <? lineCount lines
        then text <- lineAt lines line ;; Ok (column =? count text)
        else Ok false) ;;
  if b then
    Ok (Some (state, mkResult TUndefined line column (line + 1) 0 []))
  else Ok None.

Definition modifyParseResultP (parser : Parser)
    (modify : TextLines -> ParseResult State T -> ParseResult State T)
    : Parser :=
  fun state lines line column =>
    r <- parser state lines line column ;;
    Ok (modify lines r).

Definition modifyResultP (parser : Parser)
    (modify : TextLines -> State -> Result -> option Result) : Parser :=
  modifyParseResultP parser (fun lines parse_result =>
    match parse_result with
    | None => None
    | Some (state, result) =>
        match modify lines state result with
        | None => None
        | Some result' => Some (state, result')
        end
    end).

(** [result.type = ...] *)
Definition setType (result : Result) (ty : ResultType T) : Result :=
  mkResult ty (startLine result) (startColumnInclusive result)
    (endLine result) (endColumnExclusive result) (children result).

Definition modifyTypeP (parser : Parser)
    (ty : TextLines -> State -> Result -> ResultType T) : Parser :=
  modifyResultP parser (fun lines state result =>
    Some (setType result (ty lines state result))).

Definition setTypeP (ty : ResultType T) (parser : Parser) : Parser :=
  modifyTypeP parser (fun _ _ _ => ty).

(** [literalP(text, type?)]; an omitted [type] is [TUndefined]. *)
Definition literalP (text : StringOrText) (ty : ResultType T) : Parser :=
  let literal := textOf text in
  let parsers :=
    map (fun c => charP (fun d => Ascii.eqb c d)) (iterText literal) in
  let parser := seqP parsers in
  setTypeP ty parser.

(** The [for] loop of [orP]. *)
Fixpoint orLoop (parsers : list Parser) (state : State) (lines : TextLines)
    (line column : nat) : Run (ParseResult State T) :=
  match parsers with
  | [] => Ok None
  | parser :: rest =>
      result <- parser state lines line column ;;
      match result with
      | Some _ => Ok result
      | None => orLoop rest state lines line column
      end
  end.

Definition orP (parsers : list Parser) : Parser :=
  fun state lines line column =>
    assert lines line column ;;;
    orLoop parsers state lines line column.

Definition literalsP (texts : list StringOrText) : Parser :=
  orP (map (fun t => literalP t TUndefined) texts).

Definition optP (parsers : list Parser) : Parser :=
  orP [seqP parsers; emptyP].

(** [while (true)] of [repP]; [fuel] bounds the number of iterations and
    [Diverge] is the answer when it does not suffice. *)
Fixpoint repLoop (fuel : nat) (parser : Parser) (startLine startColumn : nat)
    (state : State) (lines : TextLines) (line column : nat)
    (children : list Result) : Run (ParseResult State T) :=
  match fuel with
  | 0 => Diverge
  | S fuel' =>
      parsed <- parser state lines line column ;;
      match parsed with
      | None =>
          Ok (Some (state,
                mkResult TNull startLine startColumn line column children))
      | Some (state', result) =>
          repLoop fuel' parser startLine startColumn state' lines
            (endLine result) (endColumnExclusive result)
            (pushResult children result)
      end
  end.

Definition repP (fuel : nat) (parsers : list Parser) : Parser :=
  let parser := seqP parsers in
  fun state lines line column =>
    assert lines line column ;;;
    repLoop fuel parser line column state lines line column [].

Definition eofP : Parser := fun state lines line column =>
  assert lines line column ;;;
  b <- (if line =? lineCount lines then Ok true
        else if line + 1 =? lineCount lines
             then text <- lineAt lines line ;; Ok (column =? count text)
             else Ok false) ;;
  if b then Ok (Some (state, mkResult TUndefined line column line column []))
  else Ok None.

Definition bolP : Parser := fun state lines line column =>
  assert lines line column ;;;
  if (line <? lineCount lines) && (column =? 0) then
    Ok (Some (state, mkResult TUndefined line column line column []))
  else Ok None.

Definition eolP : Parser := orP [eofP; newlineP].

(** [shiftResult] changes the tree in place; the model returns the changed
    tree.  The two agree when the nodes of the tree are reachable from the
    tree only, and once each, as in the result of a parser built from the
    combinators. *)
Fixpoint shiftResult (lines : CutoutTextLines) (result : Result)
    : Run Result :=
  match result with
  | mkResult ty sl sc el ec cs =>
      ' (sl', sc') <- shift lines sl sc ;;
      ' (el', ec') <- shift lines el ec ;;
      cs' <- (fix each (cs : list Result) : Run (list Result) :=
                match cs with
                | [] => Ok []
                | c :: rest =>
                    c' <- shiftResult lines c ;;
                    rest' <- each rest ;;
                    Ok (c' :: rest')
                end) cs ;;
      Ok (mkResult ty sl' sc' el' ec' cs')
  end.

(** [isIndented] of [sectionP] *)
Definition isIndented (spacesL : Lexer) (text : Text) : Run bool :=
  s <- spacesL text 0 ;; Ok (0 <? s)%Z.

Definition sectionP (bulletP : Parser)
    (bodyP : TextLines -> State -> Result -> Parser)
    (spacesL indentationL : Lexer) (afterP : Parser) : Parser :=
  fun state lines line column =>
    assert lines line column ;;;
    if 0 <? column then Ok None
    else
      let start := (line, column) in
      bulletLines <- cutoffAfterIndentation lines line (isIndented spacesL) ;;
      bulletParseResult <- bulletP state bulletLines line column ;;
      match bulletParseResult with
      | None => Ok None
      | Some (state1, bulletResult) =>
          bodyLines <- cutoutTextLines lines (endLine bulletResult)
                         (endColumnExclusive bulletResult)
                         spacesL indentationL ;;
          let bodyParser := bodyP lines state1 bulletResult in
          bodyParseResult <- bodyParser state1 bodyLines 0 0 ;;
          match bodyParseResult with
          | None => Ok None
          | Some (state2, bodyResult0) =>
              bodyResult <- shiftResult bodyLines bodyResult0 ;;
              after <- afterP state2 lines (endLine bodyResult)
                         (endColumnExclusive bodyResult) ;;
              let results :=
                [bulletResult; bodyResult]
                ++ match after with Some (_, r) => [r] | None => [] end in
              let end_ :=
                match after with
                | Some (_, r) => endOfResult r
                | None => endOfResult bodyResult
                end in
              joinedResult <- joinResults results TNull
                                (Some start) (Some end_) ;;
              Ok (Some (state2, joinedResult))
          end
      end.
End Combinators.

(** ** The LR driver: terminal parsers *)

Definition Sym : Type := string.

(** [{ sym : Sym | null, state : State, result : Result<T> }] *)
Record TerminalMatch (State T : Type) : Type := mkTerminalMatch {
  sym : option Sym;
  tm_state : State;
  tm_result : Result T
}.

(** [Set<Sym | null>], in insertion order. *)
Definition SymSet : Type := list (option Sym).

Definition eqbSym (a b : option Sym) : bool :=
  match a, b with
  | None, None => true
  | Some x, Some y => String.eqb x y
  | _, _ => false
  end.

Definition setHas (s : SymSet) (x : option Sym) : bool := existsb (eqbSym x) s.

Definition setAdd (s : SymSet) (x : option Sym) : SymSet :=
  if setHas s x then s else s ++ [x].

Definition TerminalParser (State T : Type) : Type :=
  State -> TextLines -> nat -> nat -> Run (list (TerminalMatch State T)).

Definition TerminalParsers (State T : Type) : Type :=
  SymSet -> TerminalParser State T.

Section TerminalParsers.
Context {State T : Type}.

Fixpoint distinctSyms (seen : list Sym) (parsers : list (Sym * Parser State T))
    : bool :=
  match parsers with
  | [] => true
  | (s, _) :: rest =>
      if existsb (String.eqb s) seen then false
      else distinctSyms (s :: seen) rest
  end.

Fixpoint firstTerminal (filtered : list (option Sym * Parser State T))
    : TerminalParser State T :=
  fun state lines line offset =>
    match filtered with
    | [] => Ok []
    | (t, parser) :: rest =>
        r <- parser state lines line offset ;;
        match r with
        | None => firstTerminal rest state lines line offset
        | Some (state', result) => Ok [mkTerminalMatch t state' result]
        end
    end.

(** [parserOfSym.size !== parsers.length] exactly when a symbol repeats. *)
Definition mkTerminalParsers (parsers : list (Sym * Parser State T))
    : Run (TerminalParsers State T) :=
  if negb (distinctSyms [] parsers) then Throw DuplicateSymbol
  else
    Ok (fun terminals =>
          let filtered_parsers :=
            map (fun p => (Some (fst p), snd p))
                (filter (fun p => setHas terminals (Some (fst p))) parsers)
            ++ (if setHas terminals None then [(None, eofP)] else []) in
          firstTerminal filtered_parsers).

Fixpoint orTerminalLoop (specific_parsers : list (TerminalParser State T))
    (results : list (TerminalMatch State T)) : TerminalParser State T :=
  fun state lines line offset =>
    match specific_parsers with
    | [] => Ok results
    | parser :: rest =>
        rs <- parser state lines line offset ;;
        orTerminalLoop rest (results ++ rs) state lines line offset
    end.

Definition orTerminalParsers (parsers : list (TerminalParsers State T))
    : TerminalParsers State T :=
  fun terminals =>
    let specific_parsers := map (fun p => p terminals) parsers in
    orTerminalLoop specific_parsers [].

Fixpoint orGreedyLoop (specific_parsers : list (TerminalParser State T))
    : TerminalParser State T :=
  fun state lines line offset =>
    match specific_parsers with
    | [] => Ok []
    | parser :: rest =>
        results <- parser state lines line offset ;;
        if 0 <? length results then Ok results
        else orGreedyLoop rest state lines line offset
    end.

Definition orGreedyTerminalParsers (parsers : list (TerminalParsers State T))
    : TerminalParsers State T :=
  fun terminals =>
    let specific_parsers := map (fun p => p terminals) parsers in
    orGreedyLoop specific_parsers.
End TerminalParsers.

(** ** The LR driver: [lrP] *)

(** Modelled from the spec: the type [ActionPlan] of [actionplan.js], which is
    not among the sources.  "Kinds: Error; Accept; Reduce(rule);
    Shift(targetState, munch); Read(options), options a list of
    (candidateTerminals, continuationPlan)". *)
Inductive ActionPlan : Type :=
| PlanError
| PlanAccept
| PlanReduce (rule : nat)
| PlanShift (state : nat) (munch : nat)
| PlanRead (options : list (list nat * ActionPlan)).

(** Modelled from the spec: the type [Action] of [lr.js], as [executePlan]
    builds it. *)
Inductive Action : Type :=
| ActAccept
| ActReduce (rule : nat)
| ActShift (state : nat).

Record Rule : Type := mkRule {
  lhs : nat;
  rhs : list nat
}.

(** [Array.prototype.splice(start, deleteCount, ...items)]: the array after
    the call and the removed elements. *)
Definition splice {A : Type} (xs : list A) (start : Z) (deleteCount : nat)
    (items : list A) : list A * list A :=
  let len := length xs in
  let a := if (start <? 0)%Z then Z.to_nat (Z.max (Z.of_nat len + start) 0)
           else Nat.min (Z.to_nat start) len in
  let d := Nat.min deleteCount (len - a) in
  (firstn a xs ++ items ++ skipn (a + d) xs, firstn d (skipn a xs)).

Definition lastOf {A : Type} (xs : list A) : option A :=
  nth_error xs (length xs - 1).

Section LR.
Context {State T : Type}.

(** The value [undefined] seen at type [State]: what [states[munch]] is when
    a plan munches more tokens than it has read. *)
Variable undefinedState : State.

(** What [lrP] obtains from modules that are not among the sources:
    [G.symbols], the LR(1) graph and the per-state results of
    [nextTerminalsOf(computeActionsOfState(X, lr1, i))] and
    [planActions(G.symbols, nextTerminals, ...)]. *)
Variable symsOf : nat -> option (list Sym).
Variable handleOf : list Sym -> option nat.
Variable is_final : nat -> bool.
Variable num_states : nat.
Variable nextTerminalsOfState : nat -> list nat.
Variable planOfState : nat -> ActionPlan.
Variable lr1_graph : nat -> option (nat -> option nat).
Variable rules : list Rule.

(** The arguments of [lrP]. *)
Variable nonterminal_labels : list (Sym * T).
Variable terminal_parsers : TerminalParsers State T.
Variable invalid : ResultType T.

Definition finalStates : list nat :=
  filter (fun i => existsb is_final (nextTerminalsOfState i))
         (seq 0 num_states).

Definition plans : list ActionPlan := map planOfState (seq 0 num_states).

Definition goto (lr_state nonterminal : nat) : option nat :=
  match lr1_graph lr_state with
  | None => None
  | Some edges => edges nonterminal
  end.

(** [nonterminals.get(sym)], the map being filled in list order. *)
Definition nonterminals_get (s : Sym) : option T :=
  fold_left (fun acc p => if String.eqb (fst p) s then Some (snd p) else acc)
            nonterminal_labels None.

(** The variables that [execute] shares with [executePlan]. *)
Record ExecState : Type := mkExecState {
  ex_tokens : list (Result T);
  ex_states : list State;
  ex_munch : nat;
  ex_state : State;
  ex_line : nat;
  ex_offset : nat
}.

Fixpoint addTerminals (terminals : list nat) (terminal_symbols : SymSet)
    : Run SymSet :=
  match terminals with
  | [] => Ok terminal_symbols
  | terminal :: rest =>
      if terminal =? 0 then addTerminals rest (setAdd terminal_symbols None)
      else
        match symsOf terminal with
        | Some [s] => addTerminals rest (setAdd terminal_symbols (Some s))
        | _ => Throw InvalidTerminalHandle
        end
  end.

Fixpoint terminalSymbolsOf (options : list (list nat * ActionPlan))
    (terminal_symbols : SymSet) : Run SymSet :=
  match options with
  | [] => Ok terminal_symbols
  | option :: rest =>
      s <- addTerminals (fst option) terminal_symbols ;;
      terminalSymbolsOf rest s
  end.

Fixpoint execute (lines : TextLines) (plan : ActionPlan) (es : ExecState)
    : Run (option (Action * ExecState)) :=
  match plan with
  | PlanError => Ok None
  | PlanAccept => Ok (Some (ActAccept, es))
  | PlanReduce rule => Ok (Some (ActReduce rule, es))
  | PlanShift s m =>
      Ok (Some (ActShift s,
                mkExecState (ex_tokens es) (ex_states es) m
                  (ex_state es) (ex_line es) (ex_offset es)))
  | PlanRead options =>
      terminal_symbols <- terminalSymbolsOf options [] ;;
      results <- terminal_parsers terminal_symbols (ex_state es) lines
                   (ex_line es) (ex_offset es) ;;
      match results with
      | [r] =>
          let new_state := tm_state r in
          let result := tm_result r in
          sym_handle <-
            match (match sym r with
                   | None => Some 0
                   | Some s => handleOf [s]
                   end) with
            | Some h => Ok h
            | None => Throw ForceFailed
            end ;;
          (fix pick (opts : list (list nat * ActionPlan))
               : Run (option (Action * ExecState)) :=
             match opts with
             | [] => Throw InternalError
             | (handles, continuation) :: rest =>
                 if existsb (Nat.eqb sym_handle) handles then
                   execute lines continuation
                     (mkExecState (ex_tokens es ++ [result])
                        (ex_states es ++ [new_state]) (ex_munch es)
                        new_state (endLine result)
                        (endColumnExclusive result))
                 else pick rest
             end) options
      | _ => Ok None
      end
  end.

Definition executePlan (state : State) (lines : TextLines)
    (line offset : nat) (plan : ActionPlan)
    : Run (option (list (Result T) * State * Action)) :=
  r <- execute lines plan (mkExecState [] [state] 0 state line offset) ;;
  match r with
  | None => Ok None
  | Some (action, es) =>
      Ok (Some (firstn (ex_munch es) (ex_tokens es),
                nth (ex_munch es) (ex_states es) undefinedState,
                action))
  end.

(** The variables of [parse] that change from one turn of its loop to the
    next. *)
Record Config : Type := mkConfig {
  lr_states : list nat;
  results : list (Result T);
  last_valid : option (nat * nat);
  cf_state : State;
  cf_line : nat;
  cf_offset : nat
}.

Definition initial (state : State) (line offset : nat) : Config :=
  mkConfig [0] [] None state line offset.

(** How one turn of the loop ends: with the next turn, with [return], or in
    the call [failed()]. *)
Inductive Step : Type :=
| Continue (c : Config)
| Return (r : ParseResult State T)
| Failed (c : Config).

Definition reduceTree (s : ResultType T) (rhs : list (Result T))
    (line offset : nat) : Result T :=
  match rhs, lastOf rhs with
  | first :: _, Some last =>
      mkResult s (startLine first) (startColumnInclusive first)
        (endLine last) (endColumnExclusive last) rhs
  | _, _ => mkResult s line offset line offset rhs
  end.

Definition iteration (lines : TextLines) (c : Config) : Run Step :=
  match lastOf (lr_states c) with
  | None => Throw TypeError
  | Some lr_state =>
      let last_valid' :=
        if existsb (Nat.eqb lr_state) finalStates
        then Some (cf_line c, cf_offset c) else last_valid c in
      plan <- index plans lr_state ;;
      executionResult <-
        executePlan (cf_state c) lines (cf_line c) (cf_offset c) plan ;;
      match executionResult with
      | None =>
          Ok (Failed (mkConfig (lr_states c) (results c) last_valid'
                        (cf_state c) (cf_line c) (cf_offset c)))
      | Some (tokens, new_state, action) =>
          match action with
          | ActAccept =>
              match results c with
              | [r] => Ok (Return (Some (new_state, r)))
              | _ => Throw InternalError
              end
          | ActReduce ruleIndex =>
              rule <- index rules ruleIndex ;;
              let L := length (rhs rule) in
              if L <? length (lr_states c) then
                top <- index (lr_states c) (length (lr_states c) - L - 1) ;;
                match goto top (lhs rule) with
                | None =>
                    Ok (Failed (mkConfig (lr_states c) (results c)
                                  last_valid' new_state
                                  (cf_line c) (cf_offset c)))
                | Some goto_lr_state =>
                    let (results', rhs_) :=
                      splice (results c)
                        (Z.of_nat (length (results c)) - Z.of_nat L) L [] in
                    match symsOf (lhs rule) with
                    | Some [nonterminal] =>
                        let s := match nonterminals_get nonterminal with
                                 | Some n => Label n
                                 | None => TNull
                                 end in
                        let tree :=
                          reduceTree s rhs_ (cf_line c) (cf_offset c) in
                        let lr_states' :=
                          fst (splice (lr_states c)
                                 (Z.of_nat (length (lr_states c))
                                  - Z.of_nat L) L [goto_lr_state]) in
                        Ok (Continue (mkConfig lr_states'
                                        (results' ++ [tree]) last_valid'
                                        new_state (cf_line c) (cf_offset c)))
                    | _ => Throw InternalError
                    end
                end
              else Throw InternalError
          | ActShift target =>
              let lr_states' := lr_states c ++ [target] in
              match tokens with
              | [token] =>
                  Ok (Continue (mkConfig lr_states' (results c ++ [token])
                                  last_valid' new_state
                                  (endLine token)
                                  (endColumnExclusive token)))
              | _ =>
                  let (endLine_, endOffsetExclusive) :=
                    match lastOf tokens with
                    | Some last => endOfResult last
                    | None => (cf_line c, cf_offset c)
                    end in
                  let tree :=
                    mkResult TNull (cf_line c) (cf_offset c)
                      endLine_ endOffsetExclusive tokens in
                  Ok (Continue (mkConfig lr_states' (results c ++ [tree])
                                  last_valid' new_state
                                  endLine_ endOffsetExclusive))
              end
          end
      end
  end.

(** The tree that [failed()] builds when it does not restart. *)
Definition invalidTree (startLine startOffset : nat) (c : Config)
    : ParseResult State T :=
  if isUndefined invalid then None
  else Some (cf_state c,
             mkResult invalid startLine startOffset
               (cf_line c) (cf_offset c) (results c)).

(** [parse] of [mkParser(maximum_valid)]: its [while (true)] loop from the
    configuration [c], with [failed()] inlined.  [fuel] bounds the turns of
    the loop, those of a restarted parse included. *)
Fixpoint parseLoop (fuel : nat) (maximum_valid : bool) (lines : TextLines)
    (startState : State) (startLine startOffset : nat) (c : Config)
    : Run (ParseResult State T) :=
  match fuel with
  | 0 => Diverge
  | S fuel' =>
      step <- iteration lines c ;;
      match step with
      | Continue c' =>
          parseLoop fuel' maximum_valid lines startState startLine
            startOffset c'
      | Return r => Ok r
      | Failed c' =>
          match (if maximum_valid then last_valid c' else None) with
          | Some (l, o) =>
              linesUntil <- textlinesUntil lines l o ;;
              parseLoop fuel' false linesUntil startState startLine
                startOffset (initial startState startLine startOffset)
          | None => Ok (invalidTree startLine startOffset c')
          end
      end
  end.

Definition mkParser (fuel : nat) (maximum_valid : bool) : Parser State T :=
  fun state lines line offset =>
    parseLoop fuel maximum_valid lines state line offset
      (initial state line offset).

(** The two parsers returned by [lrP]. *)
Definition maximum_valid (fuel : nat) : Parser State T := mkParser fuel true.
Definition maximum_invalid (fuel : nat) : Parser State T :=
  mkParser fuel false.

(** [k] turns of the loop lead from one configuration to another. *)
Inductive Turns (lines : TextLines) : Config -> nat -> Config -> Prop :=
| Turns_here : forall c, Turns lines c 0 c
| Turns_next : forall c c' c'' k,
    iteration lines c = Ok (Continue c') ->
    Turns lines c' k c'' ->
    Turns lines c (S k) c''.
End LR.

(** * Further functions of the sources *)

(** ** span.ts *)

Record Span : Type := mkSpan {
  spanStartLine : nat;
  spanStartColumnInclusive : nat;
  spanEndLine : nat;
  spanEndColumnExclusive : nat
}.

(** The constructor of [Span]; [None] stands for
    [throw new Error("invalid span")]. *)
Definition newSpan
    (startLine startColumnInclusive endLine endColumnExclusive : nat)
    : option Span :=
  if endLine <? startLine then None
  else if (startLine =? endLine)
          && (endColumnExclusive <? startColumnInclusive) then None
  else Some (mkSpan startLine startColumnInclusive endLine endColumnExclusive).

Definition spanOfResult {T} (result : Result T) : option Span :=
  newSpan (startLine result) (startColumnInclusive result)
    (endLine result) (endColumnExclusive result).

(** ** textlines.ts, continued *)

(** [absoluteSpan]: [absolute] may throw, and so may the constructor of the
    span made of the two translated positions (the inner [None]). *)
Definition absoluteSpan (lines : TextLines) (span : Span)
    : Run (option Span) :=
  ' (l1, o1) <- absolute lines (spanStartLine span)
                  (spanStartColumnInclusive span) ;;
  ' (l2, o2) <- absolute lines (spanEndLine span)
                  (spanEndColumnExclusive span) ;;
  Ok (newSpan l1 o1 l2 o2).

Definition SPACE : ascii := ascii_of_nat 32.

(** The first loop of [trimText], [while (i < text.count)]: it ends after at
    most [text.count - i] turns, which [n] bounds. *)
Fixpoint trimLeft (text : Text) (n i : nat) : Run nat :=
  match n with
  | 0 => Ok i
  | S n' =>
      if i <? count text then
        c <- charAt text i ;;
        if Ascii.eqb c SPACE then trimLeft text n' (S i) else Ok i
      else Ok i
  end.

(** The second loop of [trimText], [while (j > i)], of at most [j] turns. *)
Fixpoint trimRight (text : Text) (n i j : nat) : Run nat :=
  match n with
  | 0 => Ok j
  | S n' =>
      if i <? j then
        c <- charAt text (j - 1) ;;
        if Ascii.eqb c SPACE then trimRight text n' i (j - 1) else Ok j
      else Ok j
  end.

Definition trimText (text : Text) : Run Text :=
  i <- trimLeft text (count text) 0 ;;
  j <- trimRight text (count text) i (count text) ;;
  slice text i (Some j).

(** ** parser.ts, continued: selecting and collecting *)

(** The inner function [select] of [collectResultsIn]: it passes through
    structural nodes, stops at labelled nodes and skips discarded ones. *)
Fixpoint collect {T F} (filter : Result T -> option F) (result : Result T)
    : list F :=
  match result with
  | mkResult ty sl sc el ec cs =>
      match ty with
      | TNull => flat_map (collect filter) cs
      | TUndefined => []
      | Label _ =>
          match filter result with
          | Some f => [f]
          | None => []
          end
      end
  end.

(** The inner function [select] of [selectResults] and [selectResultsIn]. *)
Fixpoint select {T} (predicate : Result T -> bool) (result : Result T)
    : list (Result T) :=
  match result with
  | mkResult ty sl sc el ec cs =>
      match ty with
      | TNull => flat_map (select predicate) cs
      | TUndefined => []
      | Label _ => if predicate result then [result] else []
      end
  end.

Definition selectResults {T} (result : Result T)
    (predicate : Result T -> bool) : list (Result T) :=
  select predicate result.

Definition selectResultsIn {T} (results : list (Result T))
    (predicate : Result T -> bool) : list (Result T) :=
  flat_map (select predicate) results.

Definition collectResultsIn {T F} (results : list (Result T))
    (filter : Result T -> option F) : list F :=
  flat_map (collect filter) results.

(** ** combinators.ts, continued *)

Section MoreCombinators.
Context {State T : Type}.

(** The default parameter [type : T | null | undefined = null] of
    [joinResults]: an argument [undefined] is replaced by the default, so
    the node is built with the type [null]. *)
Definition defaultNull (ty : ResultType T) : ResultType T :=
  match ty with
  | TUndefined => TNull
  | _ => ty
  end.

(** [notP] and [lookaheadP] call [joinResults<T>([], undefined, ...)]. *)
Definition notP (parser : Parser State T) : Parser State T :=
  fun state lines line column =>
    parse_result <- parser state lines line column ;;
    match parse_result with
    | None =>
        result <- joinResults [] (defaultNull TUndefined)
                    (Some (line, column)) (Some (line, column)) ;;
        Ok (Some (state, result))
    | Some _ => Ok None
    end.

Definition lookaheadP (parser : Parser State T) : Parser State T :=
  fun state lines line column =>
    parse_result <- parser state lines line column ;;
    match parse_result with
    | Some _ =>
        result <- joinResults [] (defaultNull TUndefined)
                    (Some (line, column)) (Some (line, column)) ;;
        Ok (Some (state, result))
    | None => Ok None
    end.

Definition rep1P (fuel : nat) (parsers : list (Parser State T))
    : Parser State T :=
  let parser := seqP parsers in
  seqP [parser; repP fuel [parser]].

Definition joinP (fuel : nat) (elemP jointP : Parser State T)
    : Parser State T :=
  seqP [elemP; repP fuel [jointP; elemP]].

End MoreCombinators.

(** ** lexer.ts, continued *)

(** [nullP]: the state [null] is [tt]. *)
Definition nullP {State T} (parser : Parser State T) (state : State)
    : Parser unit T :=
  fun _ lines line column =>
    result <- parser state lines line column ;;
    match result with
    | None => Ok None
    | Some (_, r) => Ok (Some (tt, r))
    end.

Definition parserL {T} (parser : Parser unit T) : Lexer :=
  fun text column =>
    let lines := createTextLines (OfTexts [text]) in
    parseResult <- parser tt lines 0 column ;;
    match parseResult with
    | None => Ok (-1)%Z
    | Some (_, result) =>
        Ok (Z.of_nat (endColumnExclusive result) - Z.of_nat column)%Z
    end.

(** ** Positions and layout *)

(** The order on positions [(line, column)]. *)
Definition posLe (p q : nat * nat) : Prop :=
  fst p < fst q \/ (fst p = fst q /\ snd p <= snd q).

Definition posLt (p q : nat * nat) : Prop :=
  fst p < fst q \/ (fst p = fst q /\ snd p < snd q).

(** The results that [joinResults], [seqP] and [repP] keep as children. *)
Definition kept {T} (results : list (Result T)) : list (Result T) :=
  filter (fun r => negb (isUndefined (type r))) results.

(** The bounds that [joinResults] computes, when it has what it needs. *)
Definition computedBounds {T} (results : list (Result T))
    (start end_ : option (nat * nat)) : option ((nat * nat) * (nat * nat)) :=
  match
    match start with
    | Some p => Some p
    | None => option_map startOfResult (nth_error results 0)
    end,
    match end_ with
    | Some p => Some p
    | None => option_map endOfResult (lastOf results)
    end
  with
  | Some s, Some e => Some (s, e)
  | _, _ => None
  end.

(** The cursor of the walk before the [i]-th result: the computed start, then
    the end of the result just passed. *)
Fixpoint cursorAt {T} (results : list (Result T)) (s : nat * nat) (i : nat)
    : nat * nat :=
  match i, results with
  | S j, r :: rest => cursorAt rest (endOfResult r) j
  | _, _ => s
  end.

(** "Some result begins strictly before the cursor or the cursor after the
    last result lies strictly beyond the computed end." *)
Definition LayoutViolation {T} (results : list (Result T)) (s e : nat * nat)
    : Prop :=
  (exists i r, nth_error results i = Some r
               /\ posLt (startOfResult r) (cursorAt results s i))
  \/ posLt e (cursorAt results s (length results)).


(** "The result list of the first element whose list is non-empty, or the
    empty list if all are empty." *)
Fixpoint firstNonEmpty {A : Type} (lists : list (list A)) : list A :=
  match lists with
  | [] => []
  | [] :: rest => firstNonEmpty rest
  | l :: _ => l
  end.

(** ** Ordered spans *)

Definition validSpan {T} (r : Result T) : Prop :=
  posLe (startOfResult r) (endOfResult r).

(** [a] ends before [b] begins. *)
Definition precedes {T} (a b : Result T) : Prop :=
  posLe (endOfResult a) (startOfResult b).

(** The span of [child] lies within the span of [parent]. *)
Definition Within {T} (parent child : Result T) : Prop :=
  posLe (startOfResult parent) (startOfResult child)
  /\ posLe (endOfResult child) (endOfResult parent).

(** Throughout the tree: spans end where or after they begin, the spans of
    the children of a node follow one another and lie within the span of the
    node. *)
Inductive SpanOrdered {T} : Result T -> Prop :=
| SpanOrdered_node : forall r,
    validSpan r ->
    StronglySorted precedes (children r) ->
    Forall (Within r) (children r) ->
    Forall SpanOrdered (children r) ->
    SpanOrdered r.

(** The results [rs] follow one another between [s] and [e]. *)
Fixpoint Chain {T} (s : nat * nat) (rs : list (Result T)) (e : nat * nat)
    : Prop :=
  match rs with
  | [] => posLe s e
  | r :: rest =>
      posLe s (startOfResult r) /\ validSpan r /\ Chain (endOfResult r) rest e
  end.

(** A translation of positions that keeps their order, where it is defined. *)
Definition Monotone (f : nat -> nat -> Run (nat * nat)) : Prop :=
  forall l1 c1 l2 c2 p q,
    f l1 c1 = Ok p -> f l2 c2 = Ok q ->
    posLe (l1, c1) (l2, c2) -> posLe p q.

(** The parsers built from the combinators [emptyP], [charP], [newlineP],
    [eofP], [bolP], [seqP], [orP], [repP], [literalP] and [sectionP]. *)
Inductive Built {State T} : Parser State T -> Prop :=
| Built_emptyP : Built emptyP
| Built_charP : forall predicate, Built (charP predicate)
| Built_newlineP : Built newlineP
| Built_eofP : Built eofP
| Built_bolP : Built bolP
| Built_seqP : forall parsers,
    (forall p, In p parsers -> Built p) -> Built (seqP parsers)
| Built_orP : forall parsers,
    (forall p, In p parsers -> Built p) -> Built (orP parsers)
| Built_repP : forall fuel parsers,
    (forall p, In p parsers -> Built p) -> Built (repP fuel parsers)
| Built_literalP : forall text ty, Built (literalP text ty)
| Built_sectionP : forall bulletP bodyP spacesL indentationL afterP,
    Built bulletP ->
    (forall lines state bullet, Built (bodyP lines state bullet)) ->
    Built afterP ->
    Built (sectionP bulletP bodyP spacesL indentationL afterP).

(** A success of the parser begins where the parser was entered, and its
    spans are ordered. *)
Definition SpanOK {State T} (p : Parser State T) : Prop :=
  forall state lines line column state' r,
    p state lines line column = Ok (Some (state', r)) ->
    startOfResult r = (line, column) /\ SpanOrdered r.

(** ** Repetition *)

(** From [state] at [(line, column)] the parser succeeds again and again, with
    the results [rs], and so arrives in [state'] at [(line', column')]. *)
Inductive Repeats {State T} (parser : Parser State T) (lines : TextLines)
    : State -> nat -> nat -> list (Result T) -> State -> nat -> nat -> Prop :=
| Repeats_nil : forall state line column,
    Repeats parser lines state line column [] state line column
| Repeats_cons : forall state line column state1 r rs state' line' column',
    parser state lines line column = Ok (Some (state1, r)) ->
    Repeats parser lines state1 (endLine r) (endColumnExclusive r) rs
      state' line' column' ->
    Repeats parser lines state line column (r :: rs) state' line' column'.

(** On [lines] the parser returns at every valid position, and a success ends
    at a valid position strictly behind the one where it began. *)
Definition Advances {State T} (parser : Parser State T) (lines : TextLines)
    : Prop :=
  forall state line column,
    valid lines line column = true ->
    exists o, parser state lines line column = Ok o
      /\ match o with
         | None => True
         | Some (_, r) =>
             valid lines (endLine r) (endColumnExclusive r) = true
             /\ posLt (line, column) (endOfResult r)
         end.

(** The valid positions of [lines] lie in a rectangle. *)
Definition BoundedValid (lines : TextLines) : Prop :=
  exists L C, forall l c, valid lines l c = true -> l < L /\ c < C.

(** ** The steps of [sectionP] *)

(** The results handed to [joinResults] by [sectionP], and the end it gives. *)
Definition sectionResults {State T} (bullet body : Result T)
    (after : ParseResult State T) : list (Result T) :=
  [bullet; body] ++ match after with Some (_, r) => [r] | None => [] end.

Definition sectionEnd {State T} (body : Result T)
    (after : ParseResult State T) : nat * nat :=
  match after with
  | Some (_, r) => endOfResult r
  | None => endOfResult body
  end.

(** [sectionP], entered at [(line, 0)]: the bullet parser succeeds on the
    cut-off view with [bullet]; the body parser succeeds on the cut-out window
    behind the bullet, its result shifted back being [body] and its state
    [state2]; and [afterP] returns [after] where the body ends. *)
Inductive SectionSteps {State T} (bulletP : Parser State T)
    (bodyP : TextLines -> State -> Result T -> Parser State T)
    (spacesL indentationL : Lexer) (afterP : Parser State T)
    (state : State) (lines : TextLines) (line : nat)
    : State -> Result T -> Result T -> ParseResult State T -> Prop :=
| SectionSteps_intro :
    forall bulletLines state1 bullet bodyLines state2 body0 body after,
      cutoffAfterIndentation lines line (isIndented spacesL) = Ok bulletLines ->
      bulletP state bulletLines line 0 = Ok (Some (state1, bullet)) ->
      cutoutTextLines lines (endLine bullet) (endColumnExclusive bullet)
        spacesL indentationL = Ok bodyLines ->
      bodyP lines state1 bullet state1 bodyLines 0 0
        = Ok (Some (state2, body0)) ->
      shiftResult bodyLines body0 = Ok body ->
      afterP state2 lines (endLine body) (endColumnExclusive body) = Ok after ->
      SectionSteps bulletP bodyP spacesL indentationL afterP state lines line
        state2 bullet body after.

(** ** Concrete inputs used below *)

Definition linesA : TextLines := createTextLines (OfString "a").
Definition linesAbc : TextLines := createTextLines (OfString "abc").
Definition linesAab : TextLines := createTextLines (OfString "aab").

Definition isLetter (want : ascii) : TextChar -> bool := Ascii.eqb want.

(** The terminal parsers [mkTerminalParsers(parsers)], or ones that never
    match when the construction throws. *)
Definition terminalParsersOf {State T}
    (parsers : list (Sym * Parser State T)) : TerminalParsers State T :=
  match mkTerminalParsers parsers with
  | Ok f => f
  | _ => fun _ _ _ _ _ => Ok []
  end.

Definition tpA : TerminalParsers unit string :=
  terminalParsersOf [("a"%string, charP (isLetter "a"))].

Definition tpAny : TerminalParsers unit string :=
  terminalParsersOf [("any"%string, anyCharP)].

Definition tpB : TerminalParsers unit string :=
  terminalParsersOf [("b"%string, charP (isLetter "b"))].

Definition matchAt (s : Sym) (column : nat) : TerminalMatch unit string :=
  mkTerminalMatch (Some s) tt (mkResult TUndefined 0 column 0 (column + 1) []).

(** A two-state table that reads the letter [a] repeatedly: state 0 reads an
    [a] and shifts to state 1; state 1 may stop (its next terminals include
    the final one, handle 0) or read another [a]. *)
Definition aSymsOf (h : nat) : option (list Sym) :=
  if h =? 1 then Some ["a"%string] else None.
Definition aHandleOf (l : list Sym) : option nat :=
  match l with
  | [s] => if String.eqb s "a" then Some 1 else None
  | _ => None
  end.
Definition aIsFinal (h : nat) : bool := h =? 0.
Definition aNextTerminals (i : nat) : list nat :=
  if i =? 1 then [0; 1] else [1].
Definition aPlan (i : nat) : ActionPlan := PlanRead [([1], PlanShift 1 1)].
Definition aGraph (i : nat) : option (nat -> option nat) := None.

Definition aMaximumValid :=
  @maximum_valid unit string tt aSymsOf aHandleOf aIsFinal 2 aNextTerminals
    aPlan aGraph [] [] tpA (Label "invalid"%string).
Definition aMaximumInvalid :=
  @maximum_invalid unit string tt aSymsOf aHandleOf aIsFinal 2 aNextTerminals
    aPlan aGraph [] [] tpA (Label "invalid"%string).

(** The configurations of the run of that table on "aab". *)
Definition readA (column : nat) : Result string :=
  mkResult TUndefined 0 column 0 (column + 1) [].
Definition aTurn1 : @Config unit string :=
  mkConfig [0; 1] [readA 0] None tt 0 1.
Definition aTurn2 : @Config unit string :=
  mkConfig [0; 1; 1] [readA 0; readA 1] (Some (0, 1)) tt 0 2.
Definition aFailed : @Config unit string :=
  mkConfig [0; 1; 1] [readA 0; readA 1] (Some (0, 2)) tt 0 2.

(** A section of one line, "-": the bullet is the dash, the body is empty. *)
Definition linesDash : TextLines := createTextLines (OfString "-").
Definition noIndent : Lexer := fun _ _ => Ok (-1)%Z.

Definition dashSection (bulletP afterP : Parser unit string)
    : Parser unit string :=
  sectionP bulletP (fun _ _ _ => emptyP) noIndent noIndent afterP.

Definition dashDiscarded : Result string := mkResult TUndefined 0 0 0 1 [].
Definition dashBullet : Result string :=
  mkResult (Label "Bullet"%string) 0 0 0 1 [].
Definition emptyAt1 : Result string := mkResult TNull 0 1 0 1 [].




(** Two lines, "a" and "b", and a lexer that claims five columns. *)
Definition linesAB : TextLines :=
  createTextLines (OfString ("a" ++ String LF "b")).
Definition skipFive : Lexer := fun _ _ => Ok 5%Z.
Definition skipOneSpace : Lexer := fun text column =>
  match charAt text column with
  | Ok c => if Ascii.eqb c " " then Ok 1%Z else Ok (-1)%Z
  | _ => Ok (-1)%Z
  end.
Definition linesIndented : TextLines :=
  createTextLines (OfString ("- x" ++ String LF " a" ++ String LF "end")).

Definition isDigit (c : TextChar) : bool :=
  (48 <=? nat_of_ascii c) && (nat_of_ascii c <=? 57).
Definition lines12ab : TextLines := createTextLines (OfString "12ab").

Definition abParser : Parser unit string :=
  seqP [literalP (Str "a") (Label "A"%string);
        literalP (Str "b") (Label "B"%string)].
Definition abNode : Result string :=
  mkResult TNull 0 0 0 2
    [mkResult (Label "A"%string) 0 0 0 1 [];
     mkResult (Label "B"%string) 0 1 0 2 []].

(** ** Tactics *)

(** A parser of the family has checked its entry position. *)
Ltac enter H :=
  unfold assert in H;
  match type of H with
  | context [valid ?lines ?l ?c] =>
      destruct (valid lines l c); [simpl bind in H|discriminate]
  end.

(** The steps of [sectionP] on a concrete input, one after the other. *)
Ltac section_steps :=
  eapply SectionSteps_intro;
  [reflexivity | reflexivity | reflexivity | reflexivity | reflexivity
  | reflexivity].

(** No result of a concrete list begins before the cursor. *)
Ltac no_violation :=
  let i := fresh "i" in
  let r := fresh "r" in
  let Hi := fresh "Hi" in
  let Hlt := fresh "Hlt" in
  intros [(i & r & Hi & Hlt) | Hlt];
  [ repeat (destruct i as [|i];
            [ simpl in Hi; injection Hi as <-;
              unfold posLt in Hlt; simpl in Hlt; lia
            | simpl in Hi ]);
    destruct i; discriminate
  | unfold posLt in Hlt; simpl in Hlt; lia ].


(** ** Further notions used by the properties of the other functions *)

(** Every node of the tree carries a label. *)
Inductive AllLabeled {T} : Result T -> Prop :=
| AllLabeled_node : forall t sl sc el ec cs,
    Forall AllLabeled cs ->
    AllLabeled (mkResult (Label t) sl sc el ec cs).

(** The node with its children pruned. *)
Definition pruneNode {T} (r : Result T) : Result T :=
  mkResult (type r) (startLine r) (startColumnInclusive r)
    (endLine r) (endColumnExclusive r) (flat_map pruneResult (children r)).

(** The span of [x] lies between the positions [s] and [e]. *)
Definition Inside {T} (s e : nat * nat) (x : Result T) : Prop :=
  posLe s (startOfResult x) /\ posLe (endOfResult x) e.

Definition always {A} (_ : A) : bool := true.

(** What a filter keeps of one node. *)
Definition keepIf {A F} (filter : A -> option F) (x : A) : list F :=
  match filter x with
  | Some f => [f]
  | None => []
  end.

(** A slice that stays within its backing array, as [textOf], [textOfChars]
    and [slice] build them. *)
Definition ProperText (t : Text) : Prop :=
  startIndex t + count t <= length (chars t).

(** A string with every line separator ([\n\r], [\r\n], [\r], [\n]) replaced
    by [\n]. *)
Fixpoint normalizeNewlines (s : list ascii) : list ascii :=
  match s with
  | [] => []
  | c :: rest =>
      if Ascii.eqb c LF then
        match rest with
        | d :: rest' =>
            if Ascii.eqb d CR then LF :: normalizeNewlines rest'
            else LF :: normalizeNewlines rest
        | [] => LF :: normalizeNewlines rest
        end
      else if Ascii.eqb c CR then
        match rest with
        | d :: rest' =>
            if Ascii.eqb d LF then LF :: normalizeNewlines rest'
            else LF :: normalizeNewlines rest
        | [] => LF :: normalizeNewlines rest
        end
      else c :: normalizeNewlines rest
  end.

(** The pieces joined by single newlines. *)
Fixpoint joinWithLF (pieces : list (list ascii)) : list ascii :=
  match pieces with
  | [] => []
  | [p] => p
  | p :: rest => p ++ LF :: joinWithLF rest
  end.

(** The number of spaces a list of characters starts with, and the list
    without them. *)
Fixpoint leadingSpaces (cs : list ascii) : nat :=
  match cs with
  | c :: rest => if Ascii.eqb c SPACE then S (leadingSpaces rest) else 0
  | [] => 0
  end.

Fixpoint dropSpaces (cs : list ascii) : list ascii :=
  match cs with
  | c :: rest => if Ascii.eqb c SPACE then dropSpaces rest else cs
  | [] => []
  end.

(** The characters without the spaces at both ends. *)
Definition trimmed (cs : list ascii) : list ascii :=
  rev (dropSpaces (rev (dropSpaces cs))).

(** Terminal parsers for the letter [a] and for any character, in this
    order. *)
Definition tpAAny : TerminalParsers unit string :=
  terminalParsersOf
    [("a"%string, charP (isLetter "a")); ("any"%string, anyCharP)].

(** The two stacks of the LR loop fit: the start state 0 lies at the bottom
    of the stack of states, which has one entry more than the stack of
    results. *)
Definition Balanced {State T} (c : @Config State T) : Prop :=
  hd_error (lr_states c) = Some 0
  /\ length (lr_states c) = S (length (results c)).

(** The positions that a text admits fit its lines: a valid position lies on
    a line of the text (or is (0, 0) in a text without lines), and on a line
    of the text the valid columns are those up to the length of the line. *)
Definition Coherent (lines : TextLines) : Prop :=
  (forall l c, valid lines l c = true ->
     l < lineCount lines \/ (lineCount lines = 0 /\ l = 0 /\ c = 0))
  /\ (forall l, l < lineCount lines ->
        exists t, lineAt lines l = Ok t
                  /\ forall c, valid lines l c = true <-> c <= count t).

(** A success of the parser ends at a valid position of the text. *)
Definition EndsValid {State T} (p : Parser State T) : Prop :=
  forall state lines line column state' r,
    Coherent lines ->
    p state lines line column = Ok (Some (state', r)) ->
    valid lines (endLine r) (endColumnExclusive r) = true.

(** The characters [cs] are the first characters of [l]. *)
Fixpoint startsWith (cs l : list ascii) : bool :=
  match cs, l with
  | [], _ => true
  | c :: cs', d :: l' => Ascii.eqb c d && startsWith cs' l'
  | _ :: _, [] => false
  end.

(** The line [line] of [ls] has the characters [cs] from [column] on; where
    there is no such line, only the empty literal is found. *)
Definition literalAt (ls : list Text) (line column : nat) (cs : list ascii)
    : bool :=
  match nth_error ls line with
  | Some t => startsWith cs (skipn column (iterText t))
  | None => match cs with [] => true | _ :: _ => false end
  end.

(** The strings on which [textOf] of the embedding is [textOf] of the
    source: those of ASCII characters, which [normalize("NFC")] leaves
    unchanged and whose characters are one code point each. *)
Definition isASCII (s : string) : Prop :=
  Forall (fun c => nat_of_ascii c < 128) (list_ascii_of_string s).
(** * Properties *)

Lemma bind_inv : forall A B (m : Run A) (k : A -> Run B) b,
  bind m k = Ok b -> exists a, m = Ok a /\ k a = Ok b.
Proof.
  intros A B m k b H. destruct m as [a| |]; try discriminate. eauto.
Qed.

Lemma rcav_true : forall a b c d,
  resultCoordinatesAreValid a b c d = true <-> posLe (a, b) (c, d).
Proof.
  intros a b c d. unfold resultCoordinatesAreValid, posLe. simpl.
  destruct (a =? c) eqn:E; simpl.
  - apply Nat.eqb_eq in E. rewrite Nat.leb_le. lia.
  - apply Nat.eqb_neq in E. rewrite Nat.ltb_lt. lia.
Qed.

Lemma rcav_false : forall a b c d,
  resultCoordinatesAreValid a b c d = false <-> posLt (c, d) (a, b).
Proof.
  intros a b c d. unfold resultCoordinatesAreValid, posLt. simpl.
  destruct (a =? c) eqn:E; simpl.
  - apply Nat.eqb_eq in E. rewrite Nat.leb_gt. lia.
  - apply Nat.eqb_neq in E. rewrite Nat.ltb_ge. lia.
Qed.

Lemma posLt_not_le : forall p q, posLt p q <-> ~ posLe q p.
Proof. intros [a b] [c d]. unfold posLt, posLe. simpl. lia. Qed.

Lemma posLe_refl : forall p, posLe p p.
Proof. intros [a b]. unfold posLe. simpl. lia. Qed.

Lemma posLe_trans : forall p q r, posLe p q -> posLe q r -> posLe p r.
Proof. intros [a b] [c d] [e f]. unfold posLe. simpl. lia. Qed.

Lemma posLt_le : forall p q, posLt p q -> posLe p q.
Proof. intros [a b] [c d]. unfold posLt, posLe. simpl. lia. Qed.

Lemma kept_app : forall T (xs ys : list (Result T)),
  kept (xs ++ ys) = kept xs ++ kept ys.
Proof. intros. unfold kept. apply filter_app. Qed.

Lemma pushResult_kept : forall T (children : list (Result T)) r,
  pushResult children r = children ++ kept [r].
Proof.
  intros. unfold pushResult, kept. simpl.
  destruct (isUndefined (type r)); simpl; [now rewrite app_nil_r | reflexivity].
Qed.

(** The loop of [joinResults] either meets a result that begins before the
    cursor, or ends with the cursor behind the last result. *)
Lemma joinLoop_spec : forall T (results : list (Result T)) line column children,
  (joinLoop results line column children = Throw InvalidLayout
   /\ exists i r, nth_error results i = Some r
        /\ posLt (startOfResult r) (cursorAt results (line, column) i))
  \/ (joinLoop results line column children
      = Ok (cursorAt results (line, column) (length results),
            children ++ kept results)
      /\ forall i r, nth_error results i = Some r ->
           posLe (cursorAt results (line, column) i) (startOfResult r)).
Proof.
  intros T results. induction results as [|r rest IH]; intros line column children.
  - right. simpl. rewrite app_nil_r. split; [reflexivity|].
    intros i r H. destruct i; discriminate.
  - simpl joinLoop.
    destruct (resultCoordinatesAreValid line column (startLine r)
                (startColumnInclusive r)) eqn:E; simpl negb; cbv iota.
    + apply rcav_true in E.
      destruct (IH (endLine r) (endColumnExclusive r) (pushResult children r))
        as [[H1 (i & r' & Hi & Hlt)] | [H1 H2]].
      * left. split; [exact H1|]. exists (S i), r'. split; [exact Hi|exact Hlt].
      * right. split.
        -- rewrite H1. rewrite pushResult_kept, <- app_assoc.
           change (r :: rest) with ([r] ++ rest) at 3. rewrite kept_app.
           reflexivity.
        -- intros i r' Hi. destruct i as [|j]; simpl in *.
           ++ injection Hi as <-. exact E.
           ++ exact (H2 j r' Hi).
    + apply rcav_false in E. left. split; [reflexivity|].
      exists 0, r. split; [reflexivity|exact E].
Qed.

Lemma lastOf_cons : forall A (x : A) xs, exists y, lastOf (x :: xs) = Some y.
Proof.
  intros. unfold lastOf.
  destruct (nth_error (x :: xs) (length (x :: xs) - 1)) eqn:E; [eauto|].
  apply nth_error_None in E. simpl in E. lia.
Qed.

Lemma joinResults_nobounds : forall T (results : list (Result T)) ty start end_,
  computedBounds results start end_ = None ->
  joinResults results ty start end_ = Throw InvalidArguments
  /\ results = [] /\ (start = None \/ end_ = None).
Proof.
  intros T results ty start end_ H. unfold computedBounds in H.
  destruct results as [|r rest].
  - destruct start, end_; simpl in *; try discriminate; auto.
  - destruct (lastOf_cons r rest) as [y Hy]. rewrite Hy in H.
    destruct start, end_; simpl in H; discriminate.
Qed.

Lemma joinResults_bounds : forall T (results : list (Result T)) ty start end_ s e,
  computedBounds results start end_ = Some (s, e) ->
  ~ (results = [] /\ (start = None \/ end_ = None))
  /\ joinResults results ty start end_ =
     (' (line, column, children) <- joinLoop results (fst s) (snd s) [] ;;
      if negb (resultCoordinatesAreValid line column (fst e) (snd e))
      then Throw InvalidLayout
      else Ok (mkResult ty (fst s) (snd s) (fst e) (snd e) children)).
Proof.
  intros T results ty start end_ s e H. unfold computedBounds in H.
  unfold joinResults.
  destruct results as [|r rest].
  - destruct start as [p|], end_ as [q|]; simpl in H; try discriminate.
    injection H as <- <-. split; [intros [_ [?|?]]; discriminate|].
    destruct p, q. reflexivity.
  - split; [intros [? _]; discriminate|].
    assert (Hl : index (r :: rest) (length (r :: rest) - 1)
                 = match lastOf (r :: rest) with
                   | Some y => Ok y | None => Throw TypeError end)
      by reflexivity.
    destruct (lastOf_cons r rest) as [y Hy]. rewrite Hy in H, Hl.
    change (length (r :: rest) =? 0) with false. cbv beta iota. simpl andb.
    cbv iota. rewrite Hl.
    destruct start as [[a b]|], end_ as [[c d]|]; simpl in H;
      injection H as <- <-; reflexivity.
Qed.

(** The three ways in which [joinResults] ends. *)
Lemma joinResults_cases :
  forall T (results : list (Result T)) (ty : ResultType T)
         (start end_ : option (nat * nat)),
    match computedBounds results start end_ with
    | None =>
        joinResults results ty start end_ = Throw InvalidArguments
        /\ results = [] /\ (start = None \/ end_ = None)
    | Some (s, e) =>
        ~ (results = [] /\ (start = None \/ end_ = None))
        /\ ((joinResults results ty start end_ = Throw InvalidLayout
             /\ LayoutViolation results s e)
            \/ (joinResults results ty start end_
                = Ok (mkResult ty (fst s) (snd s) (fst e) (snd e)
                        (kept results))
                /\ ~ LayoutViolation results s e))
    end.
Proof.
  intros T results ty start end_.
  destruct (computedBounds results start end_) as [[s e]|] eqn:B.
  - destruct (@joinResults_bounds T results ty start end_ s e B) as [Hne Hj].
    split; [exact Hne|]. rewrite Hj.
    destruct (joinLoop_spec results (fst s) (snd s) [])
      as [[H1 (i & r & Hi & Hlt)] | [H1 H2]].
    + left. rewrite H1. split; [reflexivity|]. left. exists i, r.
      destruct s; auto.
    + rewrite H1. simpl bind. destruct s as [sl sc], e as [el ec].
      simpl fst in *; simpl snd in *.
      destruct (cursorAt results (sl, sc) (length results)) as [l c] eqn:C.
      destruct (resultCoordinatesAreValid l c el ec) eqn:V; simpl.
      * right. split; [reflexivity|].
        apply rcav_true in V. intros [(i & r & Hi & Hlt) | Hlt].
        -- apply posLt_not_le in Hlt. apply Hlt. apply H2. exact Hi.
        -- rewrite C in Hlt. apply posLt_not_le in Hlt. auto.
      * left. split; [reflexivity|]. right. rewrite C.
        apply rcav_false in V. exact V.
  - exact (@joinResults_nobounds T results ty start end_ B).
Qed.

Lemma joinResults_ok :
  forall T (results : list (Result T)) ty s e r,
    joinResults results ty (Some s) (Some e) = Ok r ->
    r = mkResult ty (fst s) (snd s) (fst e) (snd e) (kept results)
    /\ ~ LayoutViolation results s e.
Proof.
  intros T results ty s e r H.
  pose proof (joinResults_cases results ty (Some s) (Some e)) as J.
  simpl computedBounds in J. destruct J as (_ & [[J1 _]|[J1 J2]]).
  - rewrite J1 in H. discriminate.
  - split; [|exact J2]. rewrite J1 in H. now injection H.
Qed.

Lemma joinResults_laid_out :
  forall T (results : list (Result T)) ty s e,
    ~ LayoutViolation results s e ->
    joinResults results ty (Some s) (Some e)
    = Ok (mkResult ty (fst s) (snd s) (fst e) (snd e) (kept results)).
Proof.
  intros T results ty s e H.
  pose proof (joinResults_cases results ty (Some s) (Some e)) as J.
  simpl computedBounds in J. destruct J as (_ & [[_ J2]|[J1 _]]).
  - contradiction.
  - exact J1.
Qed.

(** C6: [joinResults] throws InvalidArguments exactly when there is no result
    and a bound is missing; otherwise, with the computed bounds, it throws
    InvalidLayout exactly when some result begins strictly before the cursor
    of the walk or the final cursor lies strictly beyond the computed end; in
    all remaining cases it returns the node with these bounds and the kept
    results as children. *)
Theorem joinResults_errors :
  forall T (results : list (Result T)) (ty : ResultType T)
         (start end_ : option (nat * nat)),
    (joinResults results ty start end_ = Throw InvalidArguments
     <-> results = [] /\ (start = None \/ end_ = None))
    /\ match computedBounds results start end_ with
       | None => results = [] /\ (start = None \/ end_ = None)
       | Some (s, e) =>
           (joinResults results ty start end_ = Throw InvalidLayout
            <-> LayoutViolation results s e)
           /\ (joinResults results ty start end_
               = Ok (mkResult ty (fst s) (snd s) (fst e) (snd e)
                       (kept results))
               <-> ~ LayoutViolation results s e)
           /\ (LayoutViolation results s e \/ ~ LayoutViolation results s e)
       end.
Proof.
  intros T results ty start end_.
  pose proof (joinResults_cases results ty start end_) as J.
  destruct (computedBounds results start end_) as [[s e]|].
  - destruct J as [Hne Hcase]. split.
    + split.
      * intros H. destruct Hcase as [[H1 _]|[H1 _]]; rewrite H1 in H; discriminate.
      * intros H. contradiction.
    + destruct Hcase as [[H1 H2]|[H1 H2]]; rewrite H1.
      * repeat split; auto; intros; try discriminate; contradiction.
      * repeat split; auto; intros; try discriminate; contradiction.
  - destruct J as [H1 H2]. split; [|exact H2]. split; auto.
Qed.

(** ** Terminal choice *)

Section TerminalChoice.
Context {State T : Type}.
Variable terminals : SymSet.
Variable state : State.
Variable lines : TextLines.
Variables line offset : nat.

Lemma orTerminalLoop_concat :
  forall (ps : list (TerminalParsers State T)) rss acc,
    Forall2 (fun p rs => p terminals state lines line offset = Ok rs) ps rss ->
    orTerminalLoop (map (fun p => p terminals) ps) acc state lines line offset
    = Ok (acc ++ concat rss).
Proof.
  intros ps rss acc H. revert acc.
  induction H as [|p rs ps rss Hp _ IH]; intros acc; simpl.
  - now rewrite app_nil_r.
  - rewrite Hp. simpl. rewrite IH.
    now rewrite app_assoc.
Qed.

Lemma orGreedyLoop_first :
  forall (ps : list (TerminalParsers State T)) rss,
    Forall2 (fun p rs => p terminals state lines line offset = Ok rs) ps rss ->
    orGreedyLoop (map (fun p => p terminals) ps) state lines line offset
    = Ok (firstNonEmpty rss).
Proof.
  intros ps rss H.
  induction H as [|p rs ps rss Hp _ IH]; simpl; [reflexivity|].
  rewrite Hp. simpl.
  destruct rs; simpl; [exact IH | reflexivity].
Qed.

(** C7: when the parsers obtained from the elements of [ps] return the lists
    [rss], the parser obtained from [orTerminalParsers ps] returns their
    concatenation in order, and the one obtained from
    [orGreedyTerminalParsers ps] returns the first non-empty list among them,
    or the empty list when all are empty. *)
Theorem terminal_choice :
  forall (ps : list (TerminalParsers State T))
         (rss : list (list (TerminalMatch State T))),
    Forall2 (fun p rs => p terminals state lines line offset = Ok rs) ps rss ->
    orTerminalParsers ps terminals state lines line offset = Ok (concat rss)
    /\ orGreedyTerminalParsers ps terminals state lines line offset
       = Ok (firstNonEmpty rss).
Proof.
  intros ps rss H. split.
  - unfold orTerminalParsers. now rewrite (orTerminalLoop_concat [] H).
  - unfold orGreedyTerminalParsers. now apply orGreedyLoop_first.
Qed.

(** The greedy choice does not run the parsers after the first one that
    matches: what they would do is irrelevant. *)
Lemma orGreedy_stops :
  forall (before after : list (TerminalParsers State T)) p rs,
    Forall (fun q => q terminals state lines line offset = Ok []) before ->
    p terminals state lines line offset = Ok rs ->
    rs <> [] ->
    orGreedyTerminalParsers (before ++ p :: after) terminals state lines
      line offset = Ok rs.
Proof.
  intros before after p rs Hb Hp Hne. unfold orGreedyTerminalParsers.
  induction Hb as [|q before Hq _ IH]; simpl.
  - rewrite Hp. simpl. destruct rs; [contradiction|reflexivity].
  - rewrite Hq. simpl. exact IH.
Qed.
End TerminalChoice.

(** On "ab" at column 0, [tpA] and [tpAny] both match and [tpB] does not. *)
Lemma terminal_choice_witness :
  orTerminalParsers [tpB; tpA; tpAny] [Some "a"%string; Some "any"%string]
    tt linesAbc 0 0
  = Ok (concat [[]; [matchAt "a"%string 0]; [matchAt "any"%string 0]])
  /\ orGreedyTerminalParsers [tpB; tpA; tpAny]
       [Some "a"%string; Some "any"%string] tt linesAbc 0 0
     = Ok (firstNonEmpty [[]; [matchAt "a"%string 0]; [matchAt "any"%string 0]]).
Proof.
  apply terminal_choice.
  repeat (constructor; try reflexivity).
Defined.

(** ** Printing *)

(** C8: [printResult] on the result of [literalP("abc", "A")] at (0,0) of the
    text "abc", with [nameOf] the identity and [isOpaque] constantly false,
    emits exactly one line, [[00:00 to 00:03[   A = "abc"], with line and
    column numbers padded to two digits. *)
Theorem printResult_literal :
  forall (State : Type) (state : State),
    exists result : Result string,
      literalP (Str "abc") (Label "A"%string) state linesAbc 0 0
      = Ok (Some (state, result))
      /\ printResult linesAbc (fun name => name) (fun _ => false) result
         = Ok [("[00:00 to 00:03[   A = " ++ dquote ++ "abc" ++ dquote)%string].
Proof.
  intros State state.
  exists (mkResult (Label "A"%string) 0 0 0 3 []).
  split; reflexivity.
Qed.

(** The padding of [digits] never truncates: a number of three digits is
    printed in full. *)
Lemma digits_wide : digits 123 2 = "123"%string /\ digits 7 2 = "07"%string.
Proof. split; reflexivity. Qed.

(** ** End of input *)

(** C5, as amended: at a position that is not valid [eofP] throws
    InvalidPosition; at a valid position it succeeds exactly when
    [line = lineCount], or [line + 1 = lineCount] and [column] is the length
    of that line, returning a zero-length discarded node there; and it
    returns None exactly at the other valid positions. *)
Theorem eofP_valid_positions :
  forall (State T : Type) (state : State) (lines : TextLines)
         (line column : nat),
    if valid lines line column then
      (eofP state lines line column
       = Ok (Some (state, mkResult (@TUndefined T) line column line column []))
       <-> line = lineCount lines
           \/ (line + 1 = lineCount lines
               /\ exists text, lineAt lines line = Ok text
                               /\ column = count text))
      /\ (eofP (T:=T) state lines line column = Ok None
          <-> line <> lineCount lines
              /\ (line + 1 <> lineCount lines
                  \/ exists text, lineAt lines line = Ok text
                                  /\ column <> count text))
    else eofP (T:=T) state lines line column = Throw InvalidPosition.
Proof.
  intros State T state lines line column. unfold eofP, assert.
  destruct (valid lines line column); [|reflexivity]. simpl bind.
  destruct (line =? lineCount lines) eqn:E1.
  { apply Nat.eqb_eq in E1. simpl. split; split; intros H; auto;
      try discriminate. destruct H as [H _]. contradiction. }
  apply Nat.eqb_neq in E1.
  destruct (line + 1 =? lineCount lines) eqn:E2.
  - apply Nat.eqb_eq in E2.
    destruct (lineAt lines line) as [text| |] eqn:L; simpl.
    + destruct (column =? count text) eqn:E3.
      * apply Nat.eqb_eq in E3. split; split; intros H; auto; try discriminate.
        -- right. split; [exact E2|]. exists text. auto.
        -- destruct H as [_ [H|(t & Ht & Hne)]]; [contradiction|].
           injection Ht as <-. contradiction.
      * apply Nat.eqb_neq in E3. split; split; intros H; try discriminate.
        -- destruct H as [H|(_ & t & Ht & He)]; [contradiction|].
           injection Ht as <-. contradiction.
        -- split; [exact E1|]. right. exists text. auto.
        -- reflexivity.
    + split; split; intros H; try discriminate.
      * destruct H as [H|(_ & t & Ht & _)]; [contradiction|discriminate].
      * destruct H as [_ [H|(t & Ht & _)]]; [contradiction|discriminate].
    + split; split; intros H; try discriminate.
      * destruct H as [H|(_ & t & Ht & _)]; [contradiction|discriminate].
      * destruct H as [_ [H|(t & Ht & _)]]; [contradiction|discriminate].
  - apply Nat.eqb_neq in E2. simpl. split; split; intros H; try discriminate.
    + destruct H as [H|[H _]]; contradiction.
    + auto.
    + reflexivity.
Qed.

(** C5 fails as stated: on the one-line text "a" the position (1, 0) has
    [line = lineCount], and [eofP] throws there instead of succeeding; at
    (0, 5), a position where the claim expects None, it throws as well. *)
Lemma eofP_throws_after_last_line :
  lineCount linesA = 1
  /\ @eofP unit unit tt linesA 1 0 = Throw InvalidPosition
  /\ @eofP unit unit tt linesA 0 5 = Throw InvalidPosition.
Proof. repeat split. Qed.

(** ** The maximum-valid restart *)

Section MaximumValid.
Context {State T : Type}.
Variable undefinedState : State.
Variable symsOf : nat -> option (list Sym).
Variable handleOf : list Sym -> option nat.
Variable is_final : nat -> bool.
Variable num_states : nat.
Variable nextTerminalsOfState : nat -> list nat.
Variable planOfState : nat -> ActionPlan.
Variable lr1_graph : nat -> option (nat -> option nat).
Variable rules : list Rule.
Variable nonterminal_labels : list (Sym * T).
Variable terminal_parsers : TerminalParsers State T.
Variable invalid : ResultType T.

Local Notation iterationG :=
  (iteration undefinedState symsOf handleOf is_final num_states
     nextTerminalsOfState planOfState lr1_graph rules nonterminal_labels
     terminal_parsers).
Local Notation TurnsG :=
  (Turns undefinedState symsOf handleOf is_final num_states
     nextTerminalsOfState planOfState lr1_graph rules nonterminal_labels
     terminal_parsers).
Local Notation parseLoopG :=
  (parseLoop undefinedState symsOf handleOf is_final num_states
     nextTerminalsOfState planOfState lr1_graph rules nonterminal_labels
     terminal_parsers invalid).
Local Notation maximum_validG :=
  (maximum_valid undefinedState symsOf handleOf is_final num_states
     nextTerminalsOfState planOfState lr1_graph rules nonterminal_labels
     terminal_parsers invalid).
Local Notation maximum_invalidG :=
  (maximum_invalid undefinedState symsOf handleOf is_final num_states
     nextTerminalsOfState planOfState lr1_graph rules nonterminal_labels
     terminal_parsers invalid).

(** [k] turns that continue use up [k] units of fuel and nothing else. *)
Lemma parseLoop_turns :
  forall lines c k c', TurnsG lines c k c' ->
  forall n mv startState startLine startOffset,
    parseLoopG (k + n) mv lines startState startLine startOffset c
    = parseLoopG n mv lines startState startLine startOffset c'.
Proof.
  intros lines c k c' H. induction H as [c|c c1 c2 k Hstep _ IH]; intros.
  - reflexivity.
  - simpl. rewrite Hstep. simpl. apply IH.
Qed.

(** With no more fuel than turns, the loop is still running. *)
Lemma parseLoop_short :
  forall lines c k c', TurnsG lines c k c' ->
  forall n mv startState startLine startOffset, n <= k ->
    parseLoopG n mv lines startState startLine startOffset c = Diverge.
Proof.
  intros lines c k c' H. induction H as [c|c c1 c2 k Hstep _ IH]; intros.
  - assert (n = 0) by lia. subst. reflexivity.
  - destruct n as [|n]; [reflexivity|]. simpl. rewrite Hstep. simpl.
    apply IH. lia.
Qed.

(** More fuel does not change an answer that has been reached. *)
Lemma parseLoop_mono :
  forall fuel mv lines startState startLine startOffset c r,
    parseLoopG fuel mv lines startState startLine startOffset c = r ->
    r <> Diverge ->
    forall fuel', fuel <= fuel' ->
      parseLoopG fuel' mv lines startState startLine startOffset c = r.
Proof.
  induction fuel as [|fuel IH];
    intros mv lines startState startLine startOffset c r H Hr fuel' Hle.
  - simpl in H. congruence.
  - destruct fuel' as [|fuel']; [lia|]. simpl in H |- *.
    destruct (iterationG lines c) as [[c'|v|c']| |]; simpl in H |- *;
      try exact H.
    + apply IH; [exact H|exact Hr|lia].
    + destruct (if mv then last_valid c' else None) as [[l o]|];
        [|exact H].
      destruct (textlinesUntil lines l o) as [lu| |]; simpl in H |- *;
        try exact H.
      apply IH; [exact H|exact Hr|lia].
Qed.

(** C1: when the maximum-valid parser, after [k] turns of its loop, fails (the
    plan of the current state yields no action, or a reduction has no goto)
    with a last valid position [Q] recorded, then it returns what the
    maximum-invalid parser returns from the same user state and entry
    position on [textlinesUntil lines Q]: with [m] units of fuel for the
    latter and [k + 1 + m] for the former, and hence for the values returned
    with any sufficient fuel. *)
Theorem maximum_valid_restart :
  forall (lines : TextLines) (state : State) (line offset : nat)
         (k : nat) (c c' : @Config State T) (Q : nat * nat),
    TurnsG lines (initial state line offset) k c ->
    iterationG lines c = Ok (Failed c') ->
    last_valid c' = Some Q ->
    (forall m,
       maximum_validG (k + S m) state lines line offset
       = (linesUntil <- textlinesUntil lines (fst Q) (snd Q) ;;
          maximum_invalidG m state linesUntil line offset))
    /\ (forall v,
          (exists n, maximum_validG n state lines line offset = Ok v)
          <-> (exists m,
                 (linesUntil <- textlinesUntil lines (fst Q) (snd Q) ;;
                  maximum_invalidG m state linesUntil line offset) = Ok v)).
Proof.
  intros lines state line offset k c c' Q HT Hfail HQ.
  assert (Heq : forall m,
    maximum_validG (k + S m) state lines line offset
    = (linesUntil <- textlinesUntil lines (fst Q) (snd Q) ;;
       maximum_invalidG m state linesUntil line offset)).
  { intros m. unfold maximum_valid, maximum_invalid, mkParser.
    rewrite (parseLoop_turns HT). simpl. rewrite Hfail. simpl.
    rewrite HQ. destruct Q as [l o]. reflexivity. }
  split; [exact Heq|].
  intros v. split.
  - intros [n Hn]. destruct (Nat.le_gt_cases n k) as [Hle|Hgt].
    + unfold maximum_valid, mkParser in Hn.
      rewrite (parseLoop_short HT _ _ _ _ Hle) in Hn. discriminate.
    + exists (n - S k). rewrite <- Heq.
      replace (k + S (n - S k)) with n by lia. exact Hn.
  - intros [m Hm]. exists (k + S m). rewrite Heq. exact Hm.
Qed.
End MaximumValid.

(** On "aab" the table above shifts two [a]s, records (0, 2) as last valid
    position in state 1 and fails to read at [b]. *)
Lemma maximum_valid_restart_witness :
  aMaximumValid (2 + S 3) tt linesAab 0 0
  = (linesUntil <- textlinesUntil linesAab 0 2 ;;
     aMaximumInvalid 3 tt linesUntil 0 0).
Proof.
  unfold aMaximumValid, aMaximumInvalid.
  refine (proj1 (@maximum_valid_restart unit string tt aSymsOf aHandleOf
                   aIsFinal 2 aNextTerminals aPlan aGraph [] [] tpA
                   (Label "invalid"%string) linesAab tt 0 0 2 aTurn2 aFailed
                   (0, 2) _ _ _) 3).
  - apply Turns_next with (c' := aTurn1); [vm_compute; reflexivity|].
    apply Turns_next with (c' := aTurn2); [vm_compute; reflexivity|].
    apply Turns_here.
  - vm_compute. reflexivity.
  - reflexivity.
Defined.

(** ** The section parser *)

Section SectionParser.
Context {State T : Type}.
Variable bulletP : Parser State T.
Variable bodyP : TextLines -> State -> Result T -> Parser State T.
Variables spacesL indentationL : Lexer.
Variable afterP : Parser State T.

Local Notation sectionG := (sectionP bulletP bodyP spacesL indentationL afterP).
Local Notation StepsG :=
  (SectionSteps bulletP bodyP spacesL indentationL afterP).

(** Once its steps are known, [sectionP] is the call of [joinResults]. *)
Lemma sectionP_steps :
  forall state lines line state2 bullet body after,
    valid lines line 0 = true ->
    StepsG state lines line state2 bullet body after ->
    sectionG state lines line 0
    = (joined <- joinResults (sectionResults bullet body after) TNull
                   (Some (line, 0)) (Some (sectionEnd body after)) ;;
       Ok (Some (state2, joined))).
Proof.
  intros state lines line state2 bullet body after Hv H.
  destruct H as [bulletLines state1 bullet bodyLines state2 body0 body after
                   H1 H2 H3 H4 H5 H6].
  unfold sectionP, assert. rewrite Hv. simpl bind. cbv iota.
  rewrite H1. simpl bind. rewrite H2. simpl bind. cbv iota beta.
  rewrite H3. simpl bind. rewrite H4. simpl bind. cbv iota beta.
  rewrite H5. simpl bind. rewrite H6. simpl bind. reflexivity.
Qed.

(** A successful [sectionP] has gone through all its steps. *)
Lemma sectionP_inv :
  forall state lines line column state' r,
    sectionG state lines line column = Ok (Some (state', r)) ->
    column = 0 /\ valid lines line 0 = true
    /\ exists bullet body after,
         StepsG state lines line state' bullet body after
         /\ joinResults (sectionResults bullet body after) TNull
              (Some (line, 0)) (Some (sectionEnd body after)) = Ok r.
Proof.
  intros state lines line column state' r H.
  unfold sectionP, assert in H.
  destruct (valid lines line column) eqn:Hv; [|discriminate]. simpl bind in H.
  destruct (0 <? column) eqn:Hc; [discriminate|].
  apply Nat.ltb_ge in Hc. assert (column = 0) by lia. subst column.
  split; [reflexivity|]. split; [exact Hv|].
  destruct (cutoffAfterIndentation lines line (isIndented spacesL))
    as [bulletLines| |] eqn:H1; try discriminate. simpl bind in H.
  destruct (bulletP state bulletLines line 0) as [[[state1 bullet]|]| |] eqn:H2;
    try discriminate. simpl bind in H.
  destruct (cutoutTextLines lines (endLine bullet) (endColumnExclusive bullet)
              spacesL indentationL) as [bodyLines| |] eqn:H3;
    try discriminate. simpl bind in H.
  destruct (bodyP lines state1 bullet state1 bodyLines 0 0)
    as [[[state2 body0]|]| |] eqn:H4; try discriminate. simpl bind in H.
  destruct (shiftResult bodyLines body0) as [body| |] eqn:H5;
    try discriminate. simpl bind in H.
  destruct (afterP state2 lines (endLine body) (endColumnExclusive body))
    as [after| |] eqn:H6; try discriminate. simpl bind in H.
  match type of H with
  | bind ?m _ = _ => destruct m as [joined| |] eqn:H7; try discriminate
  end.
  simpl in H. injection H as <- <-.
  exists bullet, body, after. split; [|exact H7].
  econstructor; eassumption.
Qed.

(** C3, as amended: at a valid entry position, [sectionP] returns None
    whenever the column is not 0; and, for body parsers built from the
    combinators, whenever the bullet and the body parser succeed (and
    [afterP] returns, and the arrangement check of [joinResults] passes) it
    returns, with the state of the body parser, a structural node from the
    entry position to the end of the after result (when [afterP] succeeded)
    or of the body, whose children are those of [bullet; body; after?] that
    are not discarded, [body] being the body result shifted back to source
    coordinates.  The restriction on the body parser is that of the
    embedding: the source shifts the body result in place, which is the
    shift of a copy when the body parser has allocated the nodes of its
    result, as the combinators do, and not when it returns a node it was
    handed, such as the bullet result. *)
Theorem sectionP_node :
  forall (state : State) (lines : TextLines) (line column : nat),
    valid lines line column = true ->
    (column <> 0 -> sectionG state lines line column = Ok None)
    /\ (column = 0 ->
        (forall ls st b, Built (bodyP ls st b)) ->
        forall state2 bullet body after,
          StepsG state lines line state2 bullet body after ->
          ~ LayoutViolation (sectionResults bullet body after) (line, 0)
              (sectionEnd body after) ->
          sectionG state lines line column
          = Ok (Some (state2,
                  mkResult TNull line 0
                    (fst (sectionEnd body after)) (snd (sectionEnd body after))
                    (kept (sectionResults bullet body after))))).
Proof.
  intros state lines line column Hv. split.
  - intros Hc. unfold sectionP, assert. rewrite Hv. simpl.
    destruct column; [contradiction|reflexivity].
  - intros -> _ state2 bullet body after Hsteps Hlay.
    rewrite (sectionP_steps Hv Hsteps).
    rewrite (joinResults_laid_out TNull Hlay). reflexivity.
Qed.

End SectionParser.

(** On the one-line text "-", with a labelled bullet, an empty body and an
    empty after part. *)
Lemma sectionP_node_witness :
  @sectionP unit string failP (fun _ _ _ => failP) noIndent noIndent failP
    tt linesAbc 0 1 = Ok None
  /\ dashSection (literalP (Str "-") (Label "Bullet"%string)) emptyP
       tt linesDash 0 0
     = Ok (Some (tt, mkResult TNull 0 0 0 1 [dashBullet; emptyAt1; emptyAt1])).
Proof.
  split.
  - refine (proj1 (sectionP_node failP (fun _ _ _ => failP) noIndent noIndent
                     failP tt linesAbc 0 1 eq_refl) _).
    discriminate.
  - refine (proj2 (sectionP_node (literalP (Str "-") (Label "Bullet"%string))
                     (fun _ _ _ => emptyP) noIndent noIndent emptyP
                     tt linesDash 0 0 eq_refl)
              eq_refl (fun _ _ _ => Built_emptyP)
              tt dashBullet emptyAt1 (Some (tt, emptyAt1)) _ _).
    + section_steps.
    + no_violation.
Defined.

(** C3 fails as stated.  With the bullet [charP] of a dash, which yields a
    discarded node, the bullet and the body succeed and the node returned has
    the children [body; after], not [bullet; body; after]; and at the invalid
    position (0, 5), whose column is not 0, [sectionP] throws instead of
    returning None. *)
Lemma sectionP_discards_bullet :
  SectionSteps (charP (isLetter "-")) (fun _ _ _ => emptyP) noIndent noIndent
    emptyP tt linesDash 0 tt dashDiscarded emptyAt1 (Some (tt, emptyAt1))
  /\ dashSection (charP (isLetter "-")) emptyP tt linesDash 0 0
     = Ok (Some (tt, mkResult TNull 0 0 0 1 [emptyAt1; emptyAt1]))
  /\ [emptyAt1; emptyAt1] <> [dashDiscarded; emptyAt1; emptyAt1]
  /\ dashSection (charP (isLetter "-")) emptyP tt linesDash 0 5
     = Throw InvalidPosition.
Proof.
  split; [section_steps|]. split; [reflexivity|].
  split; [discriminate|reflexivity].
Qed.



(** ** Cut-out windows *)

Section Cutout.
Variable source : TextLines.
Variable skipRemaining : Lexer.

(** What the loop of [cutoutTextLines] has collected when it returns. *)
Lemma cutoutLoop_ok :
  forall n i ls cs,
    cutoutLoop source skipRemaining n i = Ok (ls, cs) ->
    length ls = length cs /\ length ls <= n
    /\ (forall k, k < length ls ->
          exists t s t',
            lineAt source (i + k) = Ok t /\ skipRemaining t 0 = Ok s
            /\ (0 <= s)%Z /\ slice t (Z.to_nat s) None = Ok t'
            /\ nth_error ls k = Some t' /\ nth_error cs k = Some (Z.to_nat s))
    /\ (length ls < n ->
          exists t s,
            lineAt source (i + length ls) = Ok t /\ skipRemaining t 0 = Ok s
            /\ (s < 0)%Z).
Proof.
  induction n as [|n IH]; intros i ls cs H; simpl in H.
  - injection H as <- <-. simpl. repeat split; intros; lia.
  - destruct (lineAt source i) as [t| |] eqn:L; try discriminate.
    simpl bind in H.
    destruct (skipRemaining t 0) as [s| |] eqn:K; try discriminate.
    simpl bind in H. destruct (s <? 0)%Z eqn:Neg.
    + injection H as <- <-. simpl.
      split; [reflexivity|]. split; [lia|]. split.
      * intros; lia.
      * intros _. exists t, s. rewrite Nat.add_0_r. apply Z.ltb_lt in Neg. auto.
    + apply Z.ltb_ge in Neg.
      destruct (slice t (Z.to_nat s) None) as [t'| |] eqn:Sl; try discriminate.
      simpl bind in H.
      destruct (cutoutLoop source skipRemaining n (S i)) as [[ls' cs']| |] eqn:R;
        try discriminate.
      simpl in H. injection H as <- <-.
      destruct (IH _ _ _ R) as (H1 & H2 & H3 & H4). simpl.
      split; [lia|]. split; [lia|]. split.
      * intros k Hk. destruct k as [|k].
        -- exists t, s, t'. rewrite Nat.add_0_r. repeat split; auto.
        -- destruct (H3 k ltac:(lia)) as (t1 & s1 & t1' & Q).
           exists t1, s1, t1'. replace (i + S k) with (S i + k) by lia. exact Q.
      * intros Hlt. destruct (H4 ltac:(lia)) as (t1 & s1 & Q).
        exists t1, s1. replace (i + S (length ls')) with (S i + length ls') by lia.
        exact Q.
Qed.

(** The loop returns when the lexer keeps to its contract: it returns, and
    never more than the length of the line. *)
Lemma cutoutLoop_total :
  forall n i,
    (forall k, k < n ->
       exists t s, lineAt source (i + k) = Ok t /\ skipRemaining t 0 = Ok s
                   /\ (s <= Z.of_nat (count t))%Z) ->
    exists ls cs, cutoutLoop source skipRemaining n i = Ok (ls, cs).
Proof.
  induction n as [|n IH]; intros i H; simpl.
  - eauto.
  - destruct (H 0 ltac:(lia)) as (t & s & L & K & B).
    rewrite Nat.add_0_r in L. rewrite L. simpl bind. rewrite K. simpl bind.
    destruct (s <? 0)%Z eqn:Neg; [eauto|].
    apply Z.ltb_ge in Neg. unfold slice.
    replace (count t <? Z.to_nat s) with false
      by (symmetry; apply Nat.ltb_ge; lia).
    rewrite Nat.ltb_irrefl. simpl bind.
    destruct (IH (S i)) as (ls & cs & R).
    { intros k Hk. destruct (H (S k) ltac:(lia)) as (t1 & s1 & Q).
      exists t1, s1. replace (S i + k) with (i + S k) by lia. exact Q. }
    rewrite R. simpl. eauto.
Qed.
End Cutout.

Lemma window_ok :
  forall source startLine ls cs,
    length ls = length cs ->
    exists w, TextLinesWindow source startLine ls cs = Ok w
              /\ lineCount w = length ls
              /\ (forall k, lineAt w k = index ls k)
              /\ (forall k c, shift w k c = windowShift startLine ls cs k c).
Proof.
  intros source startLine ls cs H. unfold TextLinesWindow.
  destruct (length ls =? length cs) eqn:E;
    [|apply Nat.eqb_neq in E; contradiction].
  simpl. eexists. split; [reflexivity|]. simpl. auto.
Qed.

(** C10, as amended: at a valid position of a line [text] of a source that has
    lines, a negative return of [skipFirst] is clamped to zero.  The call
    behaves as with a [skipFirst] that returns 0; whenever it returns a
    window, the first line of the window is [text] from [column] on and (0,0)
    shifts to [(line, column)], every further line of the window is a line on
    which [skipRemaining] is not negative, and lines are left out only from
    the first line on which [skipRemaining] is negative; and it does return a
    window when [skipRemaining] returns, on each later line, at most the
    length of the line. *)
Theorem cutout_clamps_skipFirst :
  forall (source : TextLines) (line column : nat)
         (skipFirst skipRemaining : Lexer) (text : Text) (z : Z),
    valid source line column = true ->
    lineCount source <> 0 ->
    lineAt source line = Ok text ->
    column <= count text ->
    skipFirst text column = Ok z ->
    (z < 0)%Z ->
    cutoutTextLines source line column skipFirst skipRemaining
    = cutoutTextLines source line column (fun _ _ => Ok 0%Z) skipRemaining
    /\ (forall w,
          cutoutTextLines source line column skipFirst skipRemaining = Ok w ->
          lineAt w 0 = slice text column None
          /\ shift w 0 0 = Ok (line, column)
          /\ (forall k, 0 < k < lineCount w ->
                exists t s,
                  lineAt source (line + k) = Ok t
                  /\ skipRemaining t 0 = Ok s /\ (0 <= s)%Z
                  /\ lineAt w k = slice t (Z.to_nat s) None
                  /\ shift w k 0 = Ok (line + k, Z.to_nat s))
          /\ (line + lineCount w < lineCount source ->
                exists t s,
                  lineAt source (line + lineCount w) = Ok t
                  /\ skipRemaining t 0 = Ok s /\ (s < 0)%Z))
    /\ ((forall j, line < j < lineCount source ->
           exists t s, lineAt source j = Ok t /\ skipRemaining t 0 = Ok s
                       /\ (s <= Z.of_nat (count t))%Z) ->
        exists w,
          cutoutTextLines source line column skipFirst skipRemaining = Ok w).
Proof.
  intros source line column skipFirst skipRemaining text z
         Hv Hn Hl Hc Hs Hz.
  assert (Hclamp : Z.to_nat (Z.max z 0) = 0) by lia.
  set (first := TextSlice (column + startIndex text) (count text - column)
                  (chars text)).
  assert (Hsl : slice text column None = Ok first).
  { unfold slice. replace (count text <? column) with false
      by (symmetry; apply Nat.ltb_ge; lia).
    now rewrite Nat.ltb_irrefl. }
  assert (Hunf : forall skip y,
    skip text column = Ok y -> Z.to_nat (Z.max y 0) = 0 ->
    cutoutTextLines source line column skip skipRemaining
    = (' (ls, cs) <- cutoutLoop source skipRemaining
                       (lineCount source - (line + 1)) (line + 1) ;;
       TextLinesWindow source line (first :: ls) (column :: cs))).
  { intros skip y Hy Hy0. unfold cutoutTextLines, assert.
    rewrite Hv. simpl bind.
    apply Nat.eqb_neq in Hn. rewrite Hn. rewrite Hl. simpl bind.
    rewrite Hy. simpl bind. rewrite Hy0, Nat.add_0_r, Hsl. reflexivity. }
  pose proof (Hunf skipFirst z Hs Hclamp) as Hrun.
  split; [|split].
  - rewrite Hrun. symmetry. apply (Hunf (fun _ _ => Ok 0%Z) 0%Z); reflexivity.
  - intros w Hw. rewrite Hrun in Hw.
    destruct (cutoutLoop source skipRemaining (lineCount source - (line + 1))
                (line + 1)) as [[ls cs]| |] eqn:R; try discriminate.
    simpl bind in Hw.
    destruct (cutoutLoop_ok _ _ _ _ R) as (H1 & H2 & H3 & H4).
    destruct (@window_ok source line (first :: ls) (column :: cs))
      as (w' & W1 & W2 & W3 & W4).
    { simpl. now rewrite H1. }
    rewrite W1 in Hw. injection Hw as <-.
    rewrite W2. simpl length.
    split; [|split; [|split]].
    + rewrite W3, Hsl. reflexivity.
    + rewrite W4. reflexivity.
    + intros k Hk. destruct k as [|k]; [lia|].
      destruct (H3 k ltac:(lia)) as (t & s & t' & L & K & P & Sl & N1 & N2).
      exists t, s. replace (line + S k) with (line + 1 + k) by lia.
      split; [exact L|]. split; [exact K|]. split; [exact P|]. split.
      * rewrite W3. unfold index. simpl. rewrite N1. now rewrite Sl.
      * rewrite W4. unfold windowShift, validIn, index. simpl.
        rewrite N1, N2. simpl. f_equal. f_equal; lia.
    + intros Hlt. destruct (H4 ltac:(lia)) as (t & s & Q).
      exists t, s. replace (line + S (length ls)) with (line + 1 + length ls)
        by lia. exact Q.
  - intros Hcontract. rewrite Hrun.
    destruct (@cutoutLoop_total source skipRemaining
                (lineCount source - (line + 1)) (line + 1))
      as (ls & cs & R).
    { intros k Hk. apply Hcontract. lia. }
    rewrite R. simpl bind.
    destruct (cutoutLoop_ok _ _ _ _ R) as (H1 & _).
    destruct (@window_ok source line (first :: ls) (column :: cs))
      as (w' & W1 & _).
    { simpl. now rewrite H1. }
    eauto.
Qed.

(** Behind the bullet of "- x" there is nothing left on the line, so the
    lexer for spaces fails there; the next line is indented by one space and
    the third is not. *)
Lemma cutout_clamps_skipFirst_witness :
  exists w,
    cutoutTextLines linesIndented 0 3 skipOneSpace skipOneSpace = Ok w
    /\ shift w 0 0 = Ok (0, 3)
    /\ cutoutTextLines linesIndented 0 3 skipOneSpace skipOneSpace
       = cutoutTextLines linesIndented 0 3 (fun _ _ => Ok 0%Z) skipOneSpace.
Proof.
  destruct (@cutout_clamps_skipFirst linesIndented 0 3 skipOneSpace
              skipOneSpace (TextSlice 0 3 ["-"; " "; "x"]%char) (-1)%Z
              eq_refl ltac:(discriminate) eq_refl ltac:(simpl; lia)
              eq_refl ltac:(lia)) as (Hclamp & Hwin & Hret).
  destruct Hret as [w Hw].
  { intros j Hj. assert (Hcases : j = 1 \/ j = 2) by (simpl in Hj; lia).
    destruct Hcases as [-> | ->].
    - exists (TextSlice 0 2 [" "; "a"]%char), 1%Z.
      repeat split; simpl; lia.
    - exists (TextSlice 0 3 ["e"; "n"; "d"]%char), (-1)%Z.
      repeat split; simpl; lia. }
  exists w. split; [exact Hw|]. split; [|exact Hclamp].
  apply Hwin in Hw. apply Hw.
Defined.

(** C10 fails as stated.  At the position (0, 5), which is not valid in the
    one-line text "a", a lexer returns -1 and the construction throws; and at
    the valid position (0, 0) of "a", "b", with [skipFirst] negative, a
    [skipRemaining] that returns 5 on the one-letter line "b" makes the
    construction throw as well. *)
Lemma cutout_fails :
  lineAt linesA 0 = Ok (TextSlice 0 1 ["a"%char])
  /\ noIndent (TextSlice 0 1 ["a"%char]) 5 = Ok (-1)%Z
  /\ cutoutTextLines linesA 0 5 noIndent noIndent = Throw InvalidPosition
  /\ valid linesAB 0 0 = true
  /\ cutoutTextLines linesAB 0 0 noIndent skipFive = Throw InvalidSlice.
Proof.
  repeat split.
Qed.

(** ** Ordered spans *)

Lemma Result_forall_ind :
  forall T (P : Result T -> Prop),
    (forall ty sl sc el ec cs, Forall P cs -> P (mkResult ty sl sc el ec cs)) ->
    forall r, P r.
Proof.
  intros T P H. fix IH 1. intros [ty sl sc el ec cs]. apply H.
  induction cs as [|c cs IHcs]; constructor; [apply IH | exact IHcs].
Qed.

Section Chains.
Context {T : Type}.
Implicit Types (r : Result T) (rs cs : list (Result T)) (s e m : nat * nat).

Lemma Chain_extend : forall cs s m e,
  Chain s cs m -> posLe m e -> Chain s cs e.
Proof.
  induction cs as [|c cs IH]; simpl; intros s m e H Hle.
  - eapply posLe_trans; eassumption.
  - destruct H as (H1 & H2 & H3). eauto.
Qed.

Lemma Chain_from : forall cs s s' e,
  posLe s' s -> Chain s cs e -> Chain s' cs e.
Proof.
  destruct cs as [|c cs]; simpl; intros s s' e Hle H.
  - eapply posLe_trans; eassumption.
  - destruct H as (H1 & H2 & H3). split; [|auto].
    eapply posLe_trans; eassumption.
Qed.

Lemma Chain_snoc : forall cs s m r,
  Chain s cs m -> posLe m (startOfResult r) -> validSpan r ->
  Chain s (cs ++ [r]) (endOfResult r).
Proof.
  induction cs as [|c cs IH]; simpl; intros s m r H Hle Hv.
  - split; [eapply posLe_trans; eassumption|]. split; [exact Hv|].
    apply posLe_refl.
  - destruct H as (H1 & H2 & H3). eauto.
Qed.

Lemma Chain_push : forall cs s line column r,
  Chain s cs (line, column) ->
  startOfResult r = (line, column) -> validSpan r ->
  Chain s (pushResult cs r) (endOfResult r).
Proof.
  intros cs s line column r H Hs Hv. unfold pushResult.
  destruct (isUndefined (type r)).
  - eapply Chain_extend; [exact H|]. rewrite <- Hs. exact Hv.
  - eapply Chain_snoc; [exact H| |exact Hv]. rewrite Hs. apply posLe_refl.
Qed.

Lemma Chain_sorted : forall cs s e,
  Chain s cs e ->
  posLe s e
  /\ StronglySorted precedes cs
  /\ Forall (fun c => posLe s (startOfResult c) /\ posLe (endOfResult c) e) cs.
Proof.
  induction cs as [|c cs IH]; simpl; intros s e H.
  - repeat split; [exact H|constructor|constructor].
  - destruct H as (H1 & H2 & H3). destruct (IH _ _ H3) as (I1 & I2 & I3).
    split; [|split].
    + eapply posLe_trans; [exact H1|]. eapply posLe_trans; eassumption.
    + constructor; [exact I2|]. eapply Forall_impl; [|exact I3].
      intros a [Ha _]. exact Ha.
    + constructor; [split; assumption|].
      eapply Forall_impl; [|exact I3]. intros a [Ha1 Ha2]. split; [|exact Ha2].
      eapply posLe_trans; [exact H1|]. eapply posLe_trans; eassumption.
Qed.

(** A node over a chain of ordered children is ordered. *)
Lemma SpanOrdered_over_chain : forall ty sl sc el ec cs,
  Chain (sl, sc) cs (el, ec) -> Forall SpanOrdered cs ->
  SpanOrdered (mkResult ty sl sc el ec cs).
Proof.
  intros ty sl sc el ec cs H Hcs.
  destruct (Chain_sorted _ _ _ H) as (H1 & H2 & H3).
  constructor; simpl; auto.
Qed.

Lemma SpanOrdered_valid : forall r, SpanOrdered r -> validSpan r.
Proof. intros r H. now inversion H. Qed.

Lemma pushResult_Forall : forall (P : Result T -> Prop) cs r,
  Forall P cs -> P r -> Forall P (pushResult cs r).
Proof.
  intros P cs r H Hr. unfold pushResult. destruct (isUndefined (type r)); auto.
  apply Forall_app. auto.
Qed.

(** Where [joinResults] finds no violation, the results it keeps form a
    chain. *)
Lemma noViolation_Chain : forall rs s e,
  ~ LayoutViolation rs s e -> Forall validSpan rs -> Chain s (kept rs) e.
Proof.
  induction rs as [|r rs IH]; intros s e Hn Hv.
  - simpl. destruct (posLt_not_le e s) as [_ H].
    unfold posLe. unfold LayoutViolation in Hn. simpl in Hn.
    destruct s as [a b], e as [c d]. unfold posLt in Hn. simpl in *.
    assert (~ (c < a \/ c = a /\ d < b)) by tauto. lia.
  - inversion Hv as [|? ? Hr Hrs]; subst.
    assert (Hs : posLe s (startOfResult r)).
    { destruct s as [a b]. destruct (startOfResult r) as [c d] eqn:E.
      assert (~ posLt (c, d) (a, b)).
      { intros H. apply Hn. left. exists 0, r. simpl. rewrite E. auto. }
      unfold posLt, posLe in *. simpl in *. lia. }
    assert (Hrest : ~ LayoutViolation rs (endOfResult r) e).
    { intros [(i & r' & Hi & Hlt)|Hlt]; apply Hn.
      - left. exists (S i), r'. auto.
      - right. exact Hlt. }
    specialize (IH _ _ Hrest Hrs). unfold kept. simpl.
    destruct (isUndefined (type r)); simpl.
    + eapply Chain_from; [|exact IH]. eapply posLe_trans; eassumption.
    + auto.
Qed.

Lemma kept_Forall : forall (P : Result T -> Prop) rs,
  Forall P rs -> Forall P (kept rs).
Proof.
  intros P rs H. unfold kept. rewrite Forall_forall in *.
  intros x Hx. apply filter_In in Hx. apply H. tauto.
Qed.
End Chains.

(** *** Shifting back from a window *)

Lemma windowShift_Monotone : forall startLine ls columns,
  Monotone (windowShift startLine ls columns).
Proof.
  intros startLine ls columns l1 c1 l2 c2 p q Hp Hq Hle.
  unfold windowShift in Hp, Hq.
  destruct (validIn ls l1 c1); [|discriminate].
  destruct (validIn ls l2 c2); [|discriminate].
  unfold index in Hp, Hq.
  destruct (nth_error columns l1) as [x1|] eqn:N1; [|discriminate].
  destruct (nth_error columns l2) as [x2|] eqn:N2; [|discriminate].
  simpl in Hp, Hq. injection Hp as <-. injection Hq as <-.
  unfold posLe in *. simpl in *.
  destruct Hle as [Hlt|[Heq Hle]]; [left; lia|].
  subst l2. rewrite N1 in N2. injection N2 as <-. right. lia.
Qed.

Lemma cutout_Monotone :
  forall source line column skipFirst skipRemaining (w : CutoutTextLines),
    cutoutTextLines source line column skipFirst skipRemaining = Ok w ->
    Monotone (shift w).
Proof.
  intros source line column skipFirst skipRemaining w H.
  unfold cutoutTextLines, assert in H.
  destruct (valid source line column) eqn:V; [|discriminate]. simpl bind in H.
  destruct (lineCount source =? 0).
  - unfold EmptyTextLines, assert in H. rewrite V in H. simpl in H.
    injection H as <-. simpl. intros l1 c1 l2 c2 p q Hp Hq _.
    destruct ((l1 =? 0) && (c1 =? 0)); [|discriminate].
    destruct ((l2 =? 0) && (c2 =? 0)); [|discriminate].
    injection Hp as <-. injection Hq as <-. apply posLe_refl.
  - destruct (lineAt source line) as [text| |]; try discriminate.
    simpl bind in H.
    destruct (skipFirst text column) as [s| |]; try discriminate.
    simpl bind in H.
    destruct (slice text (column + Z.to_nat (Z.max s 0)) None) as [t'| |];
      try discriminate.
    simpl bind in H.
    destruct (cutoutLoop source skipRemaining (lineCount source - (line + 1))
                (line + 1)) as [[ls cs]| |]; try discriminate.
    simpl bind in H. unfold TextLinesWindow in H.
    destruct (negb (length (t' :: ls)
                    =? length (column + Z.to_nat (Z.max s 0) :: cs)));
      [discriminate|].
    injection H as <-. simpl. apply windowShift_Monotone.
Qed.

(** The origin of a window lies at or behind the position it was cut at. *)
Lemma cutout_origin :
  forall source line column skipFirst skipRemaining (w : CutoutTextLines) p,
    cutoutTextLines source line column skipFirst skipRemaining = Ok w ->
    shift w 0 0 = Ok p ->
    posLe (line, column) p.
Proof.
  intros source line column skipFirst skipRemaining w p H Hp.
  unfold cutoutTextLines in H. apply bind_inv in H as (u & Hu & H).
  destruct (lineCount source =? 0).
  - unfold EmptyTextLines in H. rewrite Hu in H. simpl in H.
    injection H as <-. simpl in Hp. injection Hp as <-. apply posLe_refl.
  - apply bind_inv in H as (text & _ & H). apply bind_inv in H as (s & _ & H).
    apply bind_inv in H as (t' & _ & H).
    apply bind_inv in H as ([ls cs] & _ & H).
    unfold TextLinesWindow in H.
    match type of H with
    | (if ?b then _ else _) = _ => destruct b; [discriminate|]
    end.
    injection H as <-. simpl in Hp. unfold windowShift, validIn in Hp.
    simpl in Hp. injection Hp as <-. unfold posLe. simpl. lia.
Qed.

Section Shifting.
Context {T : Type}.
Variable w : CutoutTextLines.

Lemma shiftResult_inv : forall ty sl sc el ec cs (r : Result T),
  shiftResult w (mkResult ty sl sc el ec cs) = Ok r ->
  exists s e cs',
    shift w sl sc = Ok s /\ shift w el ec = Ok e
    /\ Forall2 (fun c c' => shiftResult w c = Ok c') cs cs'
    /\ r = mkResult ty (fst s) (snd s) (fst e) (snd e) cs'.
Proof.
  intros ty sl sc el ec cs r H. simpl in H.
  destruct (shift w sl sc) as [[sl' sc']| |]; try discriminate.
  simpl bind in H.
  destruct (shift w el ec) as [[el' ec']| |]; try discriminate.
  simpl bind in H.
  match type of H with
  | bind (?each cs) _ = _ =>
      assert (Heach : forall xs xs', each xs = Ok xs' ->
                Forall2 (fun c c' => shiftResult w c = Ok c') xs xs')
  end.
  { induction xs as [|x xs IH]; intros xs' Hx; simpl in Hx.
    - injection Hx as <-. constructor.
    - destruct (shiftResult w x) as [x'| |] eqn:Ex; try discriminate.
      simpl bind in Hx.
      match type of Hx with
      | bind ?m _ = _ => destruct m as [rest| |] eqn:Er; try discriminate
      end.
      simpl in Hx. injection Hx as <-. constructor; [exact Ex|].
      apply IH. reflexivity. }
  match type of H with
  | bind ?m _ = _ => destruct m as [cs'| |] eqn:Ecs; try discriminate
  end.
  simpl in H. injection H as <-.
  exists (sl', sc'), (el', ec'), cs'. repeat split. apply Heach. exact Ecs.
Qed.

Hypothesis shift_monotone : Monotone (shift w).

(** Shifting keeps the order of the spans, and moves the two ends of a node
    as [shift] does. *)
Lemma shiftResult_ordered : forall (r0 r : Result T),
  shiftResult w r0 = Ok r ->
  SpanOrdered r0 ->
  SpanOrdered r
  /\ shift w (startLine r0) (startColumnInclusive r0) = Ok (startOfResult r)
  /\ shift w (endLine r0) (endColumnExclusive r0) = Ok (endOfResult r).
Proof.
  induction r0 as [ty sl sc el ec cs IH] using Result_forall_ind.
  intros r H Hord.
  destruct (shiftResult_inv _ _ _ _ _ _ H) as (s & e & cs' & Hs & He & Hcs & ->).
  destruct s as [sl' sc'], e as [el' ec']. simpl fst; simpl snd.
  split; [|split; [exact Hs|exact He]].
  inversion Hord as [? Hv Hsorted Hwithin Hchildren]; subst.
  simpl children in *.
  (* every child moves as [shift] does and stays ordered *)
  assert (Hmoved : Forall2 (fun c c' =>
            SpanOrdered c'
            /\ shift w (startLine c) (startColumnInclusive c)
               = Ok (startOfResult c')
            /\ shift w (endLine c) (endColumnExclusive c)
               = Ok (endOfResult c')) cs cs').
  { clear - Hcs IH Hchildren.
    induction Hcs as [|c c' cs cs' Hc _ IHcs]; [constructor|].
    inversion IH; subst. inversion Hchildren; subst.
    constructor; [auto|]. apply IHcs; assumption. }
  assert (Hwithin' : Forall (fun c => posLe (sl, sc) (startOfResult c)
                                      /\ posLe (endOfResult c) (el, ec)) cs)
    by exact Hwithin.
  constructor; simpl children.
  - unfold validSpan in *. simpl in *.
    eapply shift_monotone; eassumption.
  - clear - Hmoved Hsorted shift_monotone.
    induction Hmoved as [|c c' cs cs' Hc Hrest IHm]; [constructor|].
    inversion Hsorted as [|? ? Hs1 Hs2]; subst.
    constructor; [apply IHm; exact Hs1|].
    clear IHm Hs1 Hsorted.
    induction Hrest as [|d d' ds ds' Hd _ IHd]; [constructor|].
    inversion Hs2; subst. constructor; [|apply IHd; assumption].
    destruct Hc as (_ & _ & Hce). destruct Hd as (_ & Hds & _).
    unfold precedes in *. eapply shift_monotone; eassumption.
  - change (Forall (fun c' => posLe (sl', sc') (startOfResult c')
                              /\ posLe (endOfResult c') (el', ec')) cs').
    clear - Hmoved Hwithin' Hs He shift_monotone.
    induction Hmoved as [|c c' cs cs' Hc _ IHm]; [constructor|].
    inversion Hwithin' as [|? ? [Hw1 Hw2] Hw3]; subst. clear Hwithin'.
    constructor; [|apply IHm; exact Hw3].
    destruct Hc as (_ & Hcs & Hce). split.
    + eapply (shift_monotone Hs Hcs). exact Hw1.
    + eapply (shift_monotone Hce He). exact Hw2.
  - clear - Hmoved. induction Hmoved as [|c c' cs cs' Hc _ IHm]; constructor;
      [apply Hc|exact IHm].
Qed.
End Shifting.

(** *** The combinators keep spans ordered *)

Section SpansOfCombinators.
Context {State T : Type}.
Implicit Types (p : Parser State T) (ps : list (Parser State T)).

Lemma SpanOrdered_leaf : forall (ty : ResultType T) sl sc el ec,
  posLe (sl, sc) (el, ec) -> SpanOrdered (mkResult ty sl sc el ec []).
Proof. intros. constructor; simpl; auto; constructor. Qed.

Lemma SpanOK_emptyP : SpanOK (@emptyP State T).
Proof.
  intros state lines line column state' r H. unfold emptyP in H. enter H.
  injection H as <- <-. split; [reflexivity|].
  apply SpanOrdered_leaf, posLe_refl.
Qed.

Lemma SpanOK_charP : forall predicate, SpanOK (@charP State T predicate).
Proof.
  intros predicate state lines line column state' r H. unfold charP in H.
  enter H. destruct (lineCount lines <=? line); [discriminate|].
  destruct (lineAt lines line) as [text| |]; try discriminate. simpl bind in H.
  destruct (count text <=? column); [discriminate|].
  destruct (charAt text column) as [c| |]; try discriminate. simpl bind in H.
  destruct (negb (predicate c)); [discriminate|].
  injection H as <- <-. split; [reflexivity|].
  apply SpanOrdered_leaf. unfold posLe. simpl. lia.
Qed.

Lemma SpanOK_newlineP : SpanOK (@newlineP State T).
Proof.
  intros state lines line column state' r H. unfold newlineP in H. enter H.
  match type of H with
  | bind ?m _ = _ => destruct m as [[|]| |]; try discriminate
  end.
  simpl in H. injection H as <- <-. split; [reflexivity|].
  apply SpanOrdered_leaf. unfold posLe. simpl. lia.
Qed.

Lemma SpanOK_eofP : SpanOK (@eofP State T).
Proof.
  intros state lines line column state' r H. unfold eofP in H. enter H.
  match type of H with
  | bind ?m _ = _ => destruct m as [[|]| |]; try discriminate
  end.
  simpl in H. injection H as <- <-. split; [reflexivity|].
  apply SpanOrdered_leaf, posLe_refl.
Qed.

Lemma SpanOK_bolP : SpanOK (@bolP State T).
Proof.
  intros state lines line column state' r H. unfold bolP in H. enter H.
  destruct ((line <? lineCount lines) && (column =? 0)); [|discriminate].
  injection H as <- <-. split; [reflexivity|].
  apply SpanOrdered_leaf, posLe_refl.
Qed.

Lemma seqLoop_chain : forall ps,
  (forall p, In p ps -> SpanOK p) ->
  forall state lines line column children s state' line' column' children',
    Chain s children (line, column) ->
    Forall SpanOrdered children ->
    seqLoop ps state lines line column children
    = Ok (Some (state', line', column', children')) ->
    Chain s children' (line', column') /\ Forall SpanOrdered children'.
Proof.
  induction ps as [|p ps IH]; intros Hps state lines line column children s
    state' line' column' children' Hc Hf H; simpl in H.
  - injection H as <- <- <- <-. auto.
  - destruct (p state lines line column) as [[[state1 r]|]| |] eqn:Hp;
      try discriminate.
    simpl bind in H. cbv iota beta in H.
    destruct (Hps p (or_introl eq_refl) _ _ _ _ _ _ Hp) as [Hs Ho].
    eapply IH; [| | |exact H].
    + intros q Hq. apply Hps. now right.
    + change (endLine r, endColumnExclusive r) with (endOfResult r).
      eapply Chain_push; [exact Hc|exact Hs|].
      now apply SpanOrdered_valid.
    + now apply pushResult_Forall.
Qed.

Lemma seqP_many : forall p1 p2 ps state lines line column,
  seqP (p1 :: p2 :: ps) state lines line column
  = (assert lines line column ;;;
     r <- seqLoop (p1 :: p2 :: ps) state lines line column [] ;;
     match r with
     | None => Ok None
     | Some (state', l, c, children) =>
         Ok (Some (state', mkResult TNull line column l c children))
     end).
Proof. reflexivity. Qed.

Lemma SpanOK_seqP : forall ps,
  (forall p, In p ps -> SpanOK p) -> SpanOK (seqP ps).
Proof.
  intros ps Hps. destruct ps as [|p1 [|p2 ps]].
  - apply SpanOK_emptyP.
  - apply Hps. now left.
  - intros state lines line column state' r H.
    rewrite seqP_many in H. apply bind_inv in H as (u & _ & H).
    apply bind_inv in H as (o & L & H).
    destruct o as [[[[st l] c] cs]|]; [|discriminate].
    injection H as <- <-. split; [reflexivity|].
    destruct (@seqLoop_chain (p1 :: p2 :: ps) Hps state lines line column []
                (line, column) st l c cs (posLe_refl _) (Forall_nil _) L)
      as [Hc Hf].
    now apply SpanOrdered_over_chain.
Qed.

Lemma SpanOK_orP : forall ps,
  (forall p, In p ps -> SpanOK p) -> SpanOK (orP ps).
Proof.
  intros ps Hps state lines line column state' r H. unfold orP in H. enter H.
  induction ps as [|p ps IH]; simpl in H; [discriminate|].
  destruct (p state lines line column) as [[[st1 r1]|]| |] eqn:Hp;
    try discriminate; simpl in H.
  - injection H as <- <-. eapply Hps; [now left|exact Hp].
  - apply IH; [|exact H]. intros q Hq. apply Hps. now right.
Qed.

Lemma repLoop_chain : forall p,
  SpanOK p ->
  forall fuel startLine startColumn state lines line column children state' r,
    Chain (startLine, startColumn) children (line, column) ->
    Forall SpanOrdered children ->
    repLoop fuel p startLine startColumn state lines line column children
    = Ok (Some (state', r)) ->
    startOfResult r = (startLine, startColumn) /\ SpanOrdered r.
Proof.
  intros p Hp. induction fuel as [|fuel IH];
    intros startLine startColumn state lines line column children state' r
           Hc Hf H; simpl in H; [discriminate|].
  destruct (p state lines line column) as [[[state1 r1]|]| |] eqn:E;
    try discriminate; simpl in H.
  - destruct (Hp _ _ _ _ _ _ E) as [Hs Ho].
    eapply IH; [| |exact H].
    + change (endLine r1, endColumnExclusive r1) with (endOfResult r1).
      eapply Chain_push; [exact Hc|exact Hs|].
      now apply SpanOrdered_valid.
    + now apply pushResult_Forall.
  - injection H as <- <-. split; [reflexivity|].
    now apply SpanOrdered_over_chain.
Qed.

Lemma SpanOK_repP : forall fuel ps,
  (forall p, In p ps -> SpanOK p) -> SpanOK (repP fuel ps).
Proof.
  intros fuel ps Hps state lines line column state' r H. unfold repP in H.
  enter H. eapply repLoop_chain; [apply SpanOK_seqP; exact Hps| | |exact H].
  - apply posLe_refl.
  - constructor.
Qed.

Lemma SpanOK_literalP : forall text ty, SpanOK (@literalP State T text ty).
Proof.
  intros text ty state lines line column state' r H.
  unfold literalP, setTypeP, modifyTypeP, modifyResultP, modifyParseResultP
    in H.
  match type of H with
  | bind (seqP ?ps _ _ _ _) _ = _ =>
      destruct (seqP ps state lines line column) as [[[st r0]|]| |] eqn:E;
      try discriminate; simpl in H;
      assert (Hseq : SpanOK (seqP ps))
  end.
  { apply SpanOK_seqP. intros p Hp. apply in_map_iff in Hp.
    destruct Hp as (c & <- & _). apply SpanOK_charP. }
  injection H as <- <-. destruct (Hseq _ _ _ _ _ _ E) as [Hs Ho].
  split; [exact Hs|]. inversion Ho; subst. constructor; assumption.
Qed.

Lemma SpanOK_sectionP :
  forall bulletP (bodyP : TextLines -> State -> Result T -> Parser State T)
         spacesL indentationL afterP,
    SpanOK bulletP ->
    (forall lines state bullet, SpanOK (bodyP lines state bullet)) ->
    SpanOK afterP ->
    SpanOK (sectionP bulletP bodyP spacesL indentationL afterP).
Proof.
  intros bulletP bodyP spacesL indentationL afterP Hb Hbody Ha
         state lines line column state' r H.
  destruct (sectionP_inv _ _ _ _ _ _ _ _ _ H)
    as (-> & Hv & bullet & body & after & Hsteps & Hj).
  apply joinResults_ok in Hj. destruct Hj as [-> Hlay].
  split; [reflexivity|].
  destruct Hsteps as [bulletLines state1 bullet bodyLines state2 body0 body
                        after H1 H2 H3 H4 H5 H6].
  destruct (Hb _ _ _ _ _ _ H2) as [_ Obullet].
  destruct (Hbody _ _ _ _ _ _ _ _ _ H4) as [_ Obody0].
  destruct (@shiftResult_ordered T bodyLines (cutout_Monotone _ _ _ _ _ H3)
              body0 body H5 Obody0) as [Obody _].
  assert (Oall : Forall SpanOrdered (sectionResults bullet body after)).
  { unfold sectionResults. destruct after as [[state3 ra]|]; simpl.
    - destruct (Ha _ _ _ _ _ _ H6) as [_ Oafter].
      constructor; [exact Obullet|]. constructor; [exact Obody|].
      constructor; [exact Oafter|constructor].
    - constructor; [exact Obullet|]. constructor; [exact Obody|constructor]. }
  destruct (sectionEnd body after) as [el ec]. simpl fst; simpl snd.
  apply SpanOrdered_over_chain.
  - apply noViolation_Chain; [exact Hlay|].
    eapply Forall_impl; [|exact Oall]. apply SpanOrdered_valid.
  - now apply kept_Forall.
Qed.

Lemma noViolation_nil : forall (s e : nat * nat),
  posLe s e -> ~ LayoutViolation (@nil (Result T)) s e.
Proof.
  intros s e H [(i & r & Hi & _)|Hlt].
  - destruct i; discriminate.
  - simpl in Hlt. apply posLt_not_le in Hlt. contradiction.
Qed.

Lemma noViolation_cons : forall (r : Result T) rs s e,
  posLe s (startOfResult r) ->
  ~ LayoutViolation rs (endOfResult r) e ->
  ~ LayoutViolation (r :: rs) s e.
Proof.
  intros r rs s e Hs Hrest [(i & r' & Hi & Hlt)|Hlt].
  - destruct i as [|i]; simpl in Hi, Hlt.
    + injection Hi as <-. apply posLt_not_le in Hlt. contradiction.
    + apply Hrest. left. exists i, r'. auto.
  - apply Hrest. right. exact Hlt.
Qed.

(** With parsers that begin their results where they are entered, and keep
    spans ordered, the arrangement check of [sectionP] always passes. *)
Lemma sectionP_layout :
  forall bulletP (bodyP : TextLines -> State -> Result T -> Parser State T)
         spacesL indentationL afterP,
    SpanOK bulletP ->
    (forall lines state bullet, SpanOK (bodyP lines state bullet)) ->
    SpanOK afterP ->
    forall state lines line state2 bullet body after,
      SectionSteps bulletP bodyP spacesL indentationL afterP state lines line
        state2 bullet body after ->
      ~ LayoutViolation (sectionResults bullet body after) (line, 0)
          (sectionEnd body after).
Proof.
  intros bulletP bodyP spacesL indentationL afterP Hb Hbody Ha
         state lines line state2 bullet body after Hsteps.
  destruct Hsteps as [bulletLines state1 bullet bodyLines state2 body0 body
                        after H1 H2 H3 H4 H5 H6].
  destruct (Hb _ _ _ _ _ _ H2) as [Sbullet _].
  destruct (Hbody _ _ _ _ _ _ _ _ _ H4) as [Sbody0 Obody0].
  destruct (@shiftResult_ordered T bodyLines (cutout_Monotone _ _ _ _ _ H3)
              body0 body H5 Obody0) as (_ & Sbody & _).
  injection Sbody0 as E1 E2. rewrite E1, E2 in Sbody.
  pose proof (cutout_origin _ _ _ _ _ H3 Sbody) as Horigin.
  unfold sectionResults, sectionEnd.
  apply noViolation_cons; [rewrite Sbullet; apply posLe_refl|].
  apply noViolation_cons; [exact Horigin|].
  destruct after as [[state3 ra]|]; simpl app.
  - destruct (Ha _ _ _ _ _ _ H6) as [Safter _].
    apply noViolation_cons; [rewrite Safter; apply posLe_refl|].
    apply noViolation_nil, posLe_refl.
  - apply noViolation_nil, posLe_refl.
Qed.

Lemma Built_SpanOK : forall p, Built p -> SpanOK p.
Proof.
  induction 1.
  - apply SpanOK_emptyP.
  - apply SpanOK_charP.
  - apply SpanOK_newlineP.
  - apply SpanOK_eofP.
  - apply SpanOK_bolP.
  - now apply SpanOK_seqP.
  - now apply SpanOK_orP.
  - now apply SpanOK_repP.
  - apply SpanOK_literalP.
  - now apply SpanOK_sectionP.
Qed.
(** So a [sectionP] over parsers built from the combinators returns its node
    as soon as the bullet and the body succeed and [afterP] returns. *)
Lemma sectionP_of_built :
  forall bulletP (bodyP : TextLines -> State -> Result T -> Parser State T)
         spacesL indentationL afterP,
    Built bulletP ->
    (forall lines state bullet, Built (bodyP lines state bullet)) ->
    Built afterP ->
    forall state lines line state2 bullet body after,
      valid lines line 0 = true ->
      SectionSteps bulletP bodyP spacesL indentationL afterP state lines line
        state2 bullet body after ->
      sectionP bulletP bodyP spacesL indentationL afterP state lines line 0
      = Ok (Some (state2,
              mkResult TNull line 0
                (fst (sectionEnd body after)) (snd (sectionEnd body after))
                (kept (sectionResults bullet body after)))).
Proof.
  intros bulletP bodyP spacesL indentationL afterP Hb Hbody Ha
         state lines line state2 bullet body after Hv Hsteps.
  rewrite (sectionP_steps Hv Hsteps).
  rewrite (joinResults_laid_out TNull
             (sectionP_layout (Built_SpanOK Hb)
                (fun l s b => Built_SpanOK (Hbody l s b))
                (Built_SpanOK Ha) Hsteps)).
  reflexivity.
Qed.
End SpansOfCombinators.

(** C2: for every parser built from [emptyP], [charP], [newlineP], [eofP],
    [bolP], [seqP], [orP], [repP], [literalP] and [sectionP], and every user
    state, text and entry position: if the parser returns Some, the span of
    the result starts at the entry position, the spans of its children
    follow one another in order, and each of them lies within the span of the
    result; and the same holds at every node below. *)
Theorem built_parsers_order_spans :
  forall (State T : Type) (p : Parser State T),
    Built p ->
    forall (state : State) (lines : TextLines) (line column : nat)
           (state' : State) (r : Result T),
      p state lines line column = Ok (Some (state', r)) ->
      startOfResult r = (line, column)
      /\ StronglySorted precedes (children r)
      /\ Forall (Within r) (children r)
      /\ SpanOrdered r.
Proof.
  intros State T p Hp state lines line column state' r H.
  destruct (Built_SpanOK Hp _ _ _ _ H) as [Hs Ho].
  split; [exact Hs|]. inversion Ho; subst. auto.
Qed.

(** On "abc", the sequence of the literals "a" and "b", labelled A and B. *)
Lemma built_parsers_order_spans_witness :
  startOfResult abNode = (0, 0)
  /\ StronglySorted precedes (children abNode)
  /\ Forall (Within abNode) (children abNode)
  /\ SpanOrdered abNode.
Proof.
  apply (@built_parsers_order_spans unit string abParser) with
    (state := tt) (lines := linesAbc) (state' := tt).
  - apply Built_seqP. intros p [<-|[<-|[]]]; apply Built_literalP.
  - reflexivity.
Defined.

(** ** Repetition *)

Section Repetition.
Context {State T : Type}.
Variable parser : Parser State T.
Variable lines : TextLines.
Variables startLine startColumn : nat.

Lemma repLoop_S : forall fuel state line column children,
  repLoop (S fuel) parser startLine startColumn state lines line column
    children
  = (parsed <- parser state lines line column ;;
     match parsed with
     | None =>
         Ok (Some (state, mkResult TNull startLine startColumn line column
                            children))
     | Some (state', result) =>
         repLoop fuel parser startLine startColumn state' lines
           (endLine result) (endColumnExclusive result)
           (pushResult children result)
     end).
Proof. reflexivity. Qed.

Lemma repLoop_repeats :
  forall rs state line column state' line' column',
    Repeats parser lines state line column rs state' line' column' ->
    parser state' lines line' column' = Ok None ->
    forall n children,
      repLoop (S (length rs + n)) parser startLine startColumn state lines
        line column children
      = Ok (Some (state', mkResult TNull startLine startColumn line' column'
                        (children ++ kept rs))).
Proof.
  intros rs state line column state' line' column' H.
  induction H as [state line column
                 |state line column state1 r rs state' line' column' Hp _ IH];
    intros Hnone n children.
  - simpl. rewrite Hnone. simpl. now rewrite app_nil_r.
  - change (S (length (r :: rs) + n)) with (S (S (length rs + n))).
    rewrite repLoop_S, Hp. cbv beta iota delta [bind].
    rewrite (IH Hnone). rewrite pushResult_kept, <- app_assoc.
    change (r :: rs) with ([r] ++ rs). now rewrite kept_app.
Qed.

Lemma repLoop_inv :
  forall fuel state line column children o,
    repLoop fuel parser startLine startColumn state lines line column children
    = Ok o ->
    exists state' rs line' column',
      Repeats parser lines state line column rs state' line' column'
      /\ parser state' lines line' column' = Ok None
      /\ o = Some (state', mkResult TNull startLine startColumn line' column'
                            (children ++ kept rs)).
Proof.
  induction fuel as [|fuel IH]; intros state line column children o H;
    simpl in H; [discriminate|].
  destruct (parser state lines line column) as [[[state1 r]|]| |] eqn:Hp;
    try discriminate; simpl in H.
  - destruct (IH _ _ _ _ _ H) as (state' & rs & line' & column' & HR & HN & ->).
    exists state', (r :: rs), line', column'. split; [|split; [exact HN|]].
    + econstructor; eassumption.
    + rewrite pushResult_kept, <- app_assoc.
      change (r :: rs) with ([r] ++ rs). now rewrite kept_app.
  - injection H as <-. exists state, [], line, column.
    split; [constructor|]. split; [exact Hp|]. now rewrite app_nil_r.
Qed.

(** More fuel does not change an answer that has been reached. *)
Lemma repLoop_mono :
  forall fuel state line column children r,
    repLoop fuel parser startLine startColumn state lines line column children
    = r ->
    r <> Diverge ->
    forall fuel', fuel <= fuel' ->
      repLoop fuel' parser startLine startColumn state lines line column
        children = r.
Proof.
  induction fuel as [|fuel IH];
    intros state line column children r H Hr fuel' Hle.
  - simpl in H. congruence.
  - destruct fuel' as [|fuel']; [lia|]. rewrite repLoop_S in H |- *.
    destruct (parser state lines line column) as [[[state1 r1]|]| |];
      cbv beta iota delta [bind] in H |- *; try exact H.
    apply IH; [exact H|exact Hr|lia].
Qed.

(** With strict progress inside a rectangle of valid positions, the loop
    ends. *)
Lemma repLoop_terminates :
  forall L C,
    (forall l c, valid lines l c = true -> l < L /\ c < C) ->
    Advances parser lines ->
    forall n state line column children,
      valid lines line column = true ->
      (L - line) * C + (C - column) < n ->
      exists o, forall fuel, n <= fuel ->
        repLoop fuel parser startLine startColumn state lines line column
          children = Ok o.
Proof.
  intros L C HB HA. induction n as [|n IH];
    intros state line column children Hv Hm; [inversion Hm|].
  destruct (HA state line column Hv) as (o & Hp & Ho).
  destruct o as [[state1 r]|].
  - destruct Ho as [Hv' Hlt].
    destruct (IH state1 (endLine r) (endColumnExclusive r)
                (pushResult children r) Hv') as (o' & Ho').
    { destruct (HB _ _ Hv) as [B1 B2]. destruct (HB _ _ Hv') as [B3 B4].
      unfold posLt, endOfResult in Hlt. simpl in Hlt.
      destruct Hlt as [Hlt|[Heq Hlt]].
      - assert (E : (L - line) * C
                    = (L - endLine r) * C + (endLine r - line) * C).
        { rewrite <- Nat.mul_add_distr_r. f_equal. lia. }
        assert (C <= (endLine r - line) * C).
        { replace (endLine r - line) with (S (endLine r - line - 1)) by lia.
          simpl. apply Nat.le_add_r. }
        lia.
      - rewrite <- Heq. lia. }
    exists o'. intros fuel Hf. destruct fuel as [|fuel]; [lia|].
    simpl. rewrite Hp. simpl. apply Ho'. lia.
  - eexists. intros fuel Hf. destruct fuel as [|fuel]; [lia|].
    simpl. rewrite Hp. reflexivity.
Qed.
End Repetition.

(** C4, as amended.  Whenever [repP] returns, it returns Some: the inner
    sequence has succeeded a number of times in a row and the node ends at the
    first position where it returned None.  And [repP] does return, at every
    valid entry position of a text whose valid positions are bounded, when
    the inner sequence returns at every valid position and every success of
    it ends at a valid position strictly behind its entry. *)
Theorem repP_stops_at_None :
  forall (State T : Type) (parsers : list (Parser State T)),
    (forall fuel state lines line column o,
       repP fuel parsers state lines line column = Ok o ->
       exists state' rs line' column',
         Repeats (seqP parsers) lines state line column rs state' line' column'
         /\ seqP parsers state' lines line' column' = Ok None
         /\ o = Some (state', mkResult TNull line column line' column'
                               (kept rs)))
    /\ (forall lines,
          BoundedValid lines ->
          Advances (seqP parsers) lines ->
          forall state line column,
            valid lines line column = true ->
            exists fuel o, forall fuel', fuel <= fuel' ->
              repP fuel' parsers state lines line column = Ok (Some o)).
Proof.
  intros State T parsers. split.
  - intros fuel state lines line column o H. unfold repP, assert in H.
    destruct (valid lines line column); [|discriminate]. simpl bind in H.
    apply repLoop_inv in H. exact H.
  - intros lines (L & C & HB) HA state line column Hv.
    destruct (@repLoop_terminates State T (seqP parsers) lines line column
                L C HB HA (S ((L - line) * C + (C - column)))
                state line column [] Hv ltac:(lia)) as (o & Ho).
    pose proof (Ho _ (Nat.le_refl _)) as H0.
    apply repLoop_inv in H0.
    destruct H0 as (state' & rs & line' & column' & _ & _ & ->).
    eexists. eexists. intros fuel' Hf. unfold repP, assert. rewrite Hv.
    simpl bind. apply Ho. exact Hf.
Qed.

(** The texts built from strings and lists of lines have bounded valid
    positions, and so have the views cut from bounded texts. *)
Lemma BoundedValid_validIn : forall ls source abs,
  BoundedValid (mkTextLines (length ls) source (validIn ls) abs).
Proof.
  intros ls source abs. exists (S (length ls)), (S (list_max (map count ls))).
  simpl. intros l c H. unfold validIn in H.
  destruct (nth_error ls l) as [t|] eqn:N.
  - split.
    + assert (l < length ls) by (apply nth_error_Some; congruence). lia.
    + apply Nat.leb_le in H. apply nth_error_In in N.
      assert (count t <= list_max (map count ls)).
      { pose proof (proj1 (list_max_le (map count ls) _) (Nat.le_refl _)) as F.
        rewrite Forall_forall in F. apply F. now apply in_map. }
      lia.
  - apply andb_prop in H as [H1 H2]. apply andb_prop in H1 as [_ H1].
    apply Nat.eqb_eq in H1, H2. lia.
Qed.

Lemma BoundedValid_createTextLines : forall l, BoundedValid (createTextLines l).
Proof.
  intros [s|ls]; unfold createTextLines, TextLinesImpl;
    apply BoundedValid_validIn.
Qed.

Lemma BoundedValid_cutoff : forall source line,
  BoundedValid source -> BoundedValid (CutoffTextLines source line).
Proof.
  intros source line (L & C & H). exists L, C. simpl. intros l c Hv.
  apply andb_prop in Hv as [Hv _]. auto.
Qed.

Lemma BoundedValid_until : forall source endLine endColumn lines,
  BoundedValid source ->
  textlinesUntil source endLine endColumn = Ok lines ->
  BoundedValid lines.
Proof.
  intros source endLine endColumn lines (L & C & H) Hu.
  unfold textlinesUntil in Hu.
  destruct (lineCount source <=? endLine) eqn:E.
  - injection Hu as <-. exists L, C. exact H.
  - unfold TextLinesUntil in Hu. rewrite E in Hu.
    destruct (lineAt source endLine) as [t| |]; try discriminate.
    simpl bind in Hu.
    destruct (if count t <=? endColumn then Ok t
              else slice t 0 (Some endColumn)) as [t'| |];
      try discriminate.
    simpl in Hu. injection Hu as <-. exists L, C. simpl. intros l c Hv.
    destruct (valid source l c) eqn:V; [|discriminate]. auto.
Qed.

Lemma BoundedValid_cutout :
  forall source line column skipFirst skipRemaining (w : CutoutTextLines),
    cutoutTextLines source line column skipFirst skipRemaining = Ok w ->
    BoundedValid w.
Proof.
  intros source line column skipFirst skipRemaining w H.
  unfold cutoutTextLines in H. apply bind_inv in H as (u & Hu & H).
  destruct (lineCount source =? 0).
  - unfold EmptyTextLines in H. rewrite Hu in H. simpl in H.
    injection H as <-. exists 1, 1. simpl. intros l c Hv.
    apply andb_prop in Hv as [H1 H2]. apply Nat.eqb_eq in H1, H2. lia.
  - apply bind_inv in H as (text & _ & H). apply bind_inv in H as (s & _ & H).
    apply bind_inv in H as (t' & _ & H).
    apply bind_inv in H as ([ls cs] & _ & H).
    unfold TextLinesWindow in H.
    match type of H with
    | (if ?b then _ else _) = _ => destruct b; [discriminate|]
    end.
    injection H as <-. simpl base.
    exact (BoundedValid_validIn (t' :: ls) _ _).
Qed.

(** On "12ab", from (0,0): [charP isDigit] advances by one column each time it
    succeeds, and [repP] stops in front of [a]. *)
Lemma repP_stops_at_None_witness :
  exists fuel o, forall fuel', fuel <= fuel' ->
    @repP unit unit fuel' [charP isDigit] tt lines12ab 0 0 = Ok (Some o).
Proof.
  refine (proj2 (@repP_stops_at_None unit unit [charP isDigit]) lines12ab
            (BoundedValid_createTextLines _) _ tt 0 0 eq_refl).
  intros [] line column Hv.
  destruct line as [|line]; [|destruct line; discriminate].
  do 5 (destruct column as [|column];
        [eexists; split; [reflexivity|];
         first [exact I | split; [reflexivity|right; simpl; lia]]|]).
  discriminate.
Defined.

(** A parser that succeeds without moving keeps the loop running. *)
Lemma repLoop_stuck :
  forall (State T : Type) (p : Parser State T) (state : State) lines
         line column (r : Result T),
    p state lines line column = Ok (Some (state, r)) ->
    endLine r = line ->
    endColumnExclusive r = column ->
    forall fuel startLine startColumn children,
      repLoop fuel p startLine startColumn state lines line column children
      = Diverge.
Proof.
  intros State T p state lines line column r Hp Hl Hc fuel startLine
         startColumn.
  induction fuel as [|fuel IH]; intros children; [reflexivity|].
  simpl. rewrite Hp. simpl. rewrite Hl, Hc. apply IH.
Qed.

(** C4 fails as stated: at the valid position (0, 0) of the text "a",
    [repP()] never returns, whatever the number of turns allowed, its inner
    sequence being [emptyP]; nor does [repP(bolP())], [bolP] succeeding at
    column 0 without moving. *)
Lemma repP_diverges :
  valid linesA 0 0 = true
  /\ ~ (exists fuel, @repP unit unit fuel [] tt linesA 0 0 <> Diverge)
  /\ ~ (exists fuel, @repP unit unit fuel [bolP] tt linesA 0 0 <> Diverge).
Proof.
  split; [reflexivity|]. split; intros (fuel & H); apply H;
    unfold repP, assert; simpl valid; simpl bind;
    eapply repLoop_stuck; reflexivity.
Qed.

(** * Properties of the other functions *)

(** ** Pruning and selecting *)

Lemma flat_map_fixed : forall A (f : A -> list A) l,
  Forall (fun x => f x = [x]) l -> flat_map f l = l.
Proof.
  intros A f l H. induction H as [|x l Hx _ IH]; simpl; [reflexivity|].
  now rewrite Hx, IH.
Qed.

Lemma Forall_flat_map_intro : forall A B (P : B -> Prop) (f : A -> list B) l,
  Forall (fun x => Forall P (f x)) l -> Forall P (flat_map f l).
Proof.
  intros A B P f l H. induction H as [|x l Hx _ IH]; simpl; [constructor|].
  apply Forall_app. auto.
Qed.

Lemma pruneResult_fixed : forall T (r : Result T),
  Forall (fun r' => pruneResult r' = [r']) (pruneResult r).
Proof.
  intros T r. induction r as [ty sl sc el ec cs IH] using Result_forall_ind.
  destruct ty as [t| |]; simpl.
  - constructor; [|constructor]. simpl. f_equal. f_equal.
    apply flat_map_fixed. now apply Forall_flat_map_intro.
  - now apply Forall_flat_map_intro.
  - constructor.
Qed.

(** X1: pruning is idempotent: pruning the trees of a pruned forest gives
    the same forest. *)
Theorem pruneResult_idempotent : forall T (r : Result T),
  flat_map pruneResult (pruneResult r) = pruneResult r.
Proof.
  intros T r. apply flat_map_fixed, pruneResult_fixed.
Qed.

(** X2: after pruning, every node at every depth carries a label: no
    structural and no discarded node is left. *)
Theorem pruneResult_labeled : forall T (r : Result T),
  Forall AllLabeled (pruneResult r).
Proof.
  intros T r. induction r as [ty sl sc el ec cs IH] using Result_forall_ind.
  destruct ty as [t| |]; simpl.
  - constructor; [|constructor]. constructor.
    now apply Forall_flat_map_intro.
  - now apply Forall_flat_map_intro.
  - constructor.
Qed.

Lemma select_filter : forall T (p : Result T -> bool) (r : Result T),
  select p r = filter p (select always r).
Proof.
  intros T p r. induction r as [ty sl sc el ec cs IH] using Result_forall_ind.
  destruct ty as [t| |]; simpl.
  - reflexivity.
  - induction IH as [|c cs Hc _ IHcs]; simpl; [reflexivity|].
    now rewrite filter_app, Hc, IHcs.
  - reflexivity.
Qed.

Lemma prune_select : forall T (r : Result T),
  pruneResult r = map pruneNode (select always r).
Proof.
  intros T r. induction r as [ty sl sc el ec cs IH] using Result_forall_ind.
  destruct ty as [t| |]; simpl.
  - reflexivity.
  - induction IH as [|c cs Hc _ IHcs]; simpl; [reflexivity|].
    now rewrite map_app, Hc, IHcs.
  - reflexivity.
Qed.

(** X3: the labelled nodes that [selectResults] finds below a result are, in
    the same order, the roots of the forest that [pruneResult] builds (which
    only prunes their children); and a predicate does nothing but filter
    them. *)
Theorem selectResults_roots_of_pruned :
  forall T (r : Result T) (predicate : Result T -> bool),
    pruneResult r = map pruneNode (selectResults r always)
    /\ selectResults r predicate = filter predicate (selectResults r always).
Proof.
  intros T r predicate. split; [apply prune_select|apply select_filter].
Qed.

Lemma collect_select : forall T F (f : Result T -> option F) (r : Result T),
  collect f r = flat_map (keepIf f) (select always r).
Proof.
  intros T F f r. induction r as [ty sl sc el ec cs IH] using Result_forall_ind.
  destruct ty as [t| |]; simpl.
  - unfold keepIf.
    match goal with |- context [f ?x] => destruct (f x) end; reflexivity.
  - induction IH as [|c cs Hc _ IHcs]; simpl; [reflexivity|].
    now rewrite flat_map_app, Hc, IHcs.
  - reflexivity.
Qed.

(** X4: collecting is selecting every labelled node and then applying the
    filter to each; selecting is collecting with the predicate as filter; and
    both go through a list of results one result after the other. *)
Theorem collectResultsIn_by_select :
  forall T F (results more : list (Result T)) (filter : Result T -> option F)
         (predicate : Result T -> bool),
    collectResultsIn results filter
    = flat_map (keepIf filter) (selectResultsIn results always)
    /\ selectResultsIn results predicate
       = collectResultsIn results
           (fun r => if predicate r then Some r else None)
    /\ collectResultsIn (results ++ more) filter
       = collectResultsIn results filter ++ collectResultsIn more filter.
Proof.
  intros T F results more f p. unfold collectResultsIn, selectResultsIn.
  split; [|split].
  - induction results as [|r rs IH]; simpl; [reflexivity|].
    now rewrite flat_map_app, IH, collect_select.
  - induction results as [|r rs IH]; simpl; [reflexivity|].
    rewrite IH. f_equal.
    rewrite collect_select, select_filter.
    generalize (select always r). intros l.
    induction l as [|x l IHl]; simpl; [reflexivity|].
    unfold keepIf at 1. destruct (p x); simpl; now rewrite IHl.
  - apply flat_map_app.
Qed.

Lemma StronglySorted_app : forall A (R : A -> A -> Prop) l1 l2,
  StronglySorted R l1 -> StronglySorted R l2 ->
  (forall x y, In x l1 -> In y l2 -> R x y) ->
  StronglySorted R (l1 ++ l2).
Proof.
  intros A R l1 l2 H1 H2 Hc. induction H1 as [|a l H1 IH Ha]; simpl.
  - exact H2.
  - constructor.
    + apply IH. intros x y Hx Hy. apply Hc; [now right|exact Hy].
    + apply Forall_app. split; [exact Ha|].
      apply Forall_forall. intros y Hy. apply Hc; [now left|exact Hy].
Qed.

Lemma Inside_trans : forall T (s e : nat * nat) (c x : Result T),
  Inside s e c -> Inside (startOfResult c) (endOfResult c) x -> Inside s e x.
Proof.
  intros T s e c x [H1 H2] [H3 H4].
  split; eapply posLe_trans; eassumption.
Qed.

Lemma flat_prune_ordered : forall T (cs : list (Result T)),
  Forall (fun c => SpanOrdered c ->
            StronglySorted precedes (pruneResult c)
            /\ Forall (Inside (startOfResult c) (endOfResult c)) (pruneResult c)
            /\ Forall SpanOrdered (pruneResult c)) cs ->
  StronglySorted precedes cs ->
  Forall SpanOrdered cs ->
  StronglySorted precedes (flat_map pruneResult cs)
  /\ Forall (fun y => exists c, In c cs
               /\ Inside (startOfResult c) (endOfResult c) y)
       (flat_map pruneResult cs)
  /\ Forall SpanOrdered (flat_map pruneResult cs).
Proof.
  intros T cs IH. induction IH as [|c cs Hc _ IHcs]; intros Hs Ho; simpl.
  - repeat split; constructor.
  - inversion Hs as [|? ? Hs1 Hs2]; subst. inversion Ho as [|? ? Ho1 Ho2]; subst.
    destruct (Hc Ho1) as (C1 & C2 & C3).
    destruct (IHcs Hs1 Ho2) as (R1 & R2 & R3).
    split; [|split].
    + apply StronglySorted_app; [exact C1|exact R1|].
      intros x y Hx Hy. rewrite Forall_forall in C2, R2, Hs2.
      destruct (C2 x Hx) as [_ Hxe]. destruct (R2 y Hy) as (c' & Hc' & Hys & _).
      unfold precedes. eapply posLe_trans; [exact Hxe|].
      eapply posLe_trans; [exact (Hs2 c' Hc')|exact Hys].
    + apply Forall_app. split.
      * eapply Forall_impl; [|exact C2]. intros y Hy. exists c. split;
          [now left|exact Hy].
      * eapply Forall_impl; [|exact R2]. intros y (c' & Hc' & Hy).
        exists c'. split; [now right|exact Hy].
    + apply Forall_app. auto.
Qed.

(** X5: pruning keeps the order of spans.  For a result whose spans are
    ordered, the pruned forest is in order, every tree of it lies within the
    span of the result, and the spans inside each tree are ordered again
    (the labelled descendants promoted through structural nodes stay in
    line). *)
Theorem pruneResult_keeps_order : forall T (r : Result T),
  SpanOrdered r ->
  StronglySorted precedes (pruneResult r)
  /\ Forall (Within r) (pruneResult r)
  /\ Forall SpanOrdered (pruneResult r).
Proof.
  intros T r. induction r as [ty sl sc el ec cs IH] using Result_forall_ind.
  intros Ho. inversion Ho as [? Hv Hsorted Hwithin Hchildren]; subst.
  simpl children in *.
  destruct (flat_prune_ordered IH Hsorted Hchildren) as (F1 & F2 & F3).
  assert (F2' : Forall (Inside (sl, sc) (el, ec)) (flat_map pruneResult cs)).
  { rewrite Forall_forall in F2, Hwithin |- *. intros y Hy.
    destruct (F2 y Hy) as (c & Hc & Hin).
    eapply Inside_trans; [exact (Hwithin c Hc)|exact Hin]. }
  destruct ty as [t| |]; simpl.
  - split; [|split].
    + repeat constructor.
    + constructor; [|constructor]. split; apply posLe_refl.
    + constructor; [|constructor]. constructor; simpl; auto.
  - split; [exact F1|]. split; [exact F2'|exact F3].
  - repeat split; constructor.
Qed.

Lemma abNode_ordered : SpanOrdered abNode.
Proof.
  assert (H : abParser tt linesAbc 0 0 = Ok (Some (tt, abNode)))
    by reflexivity.
  refine (proj2 (@Built_SpanOK unit string abParser _ _ _ _ _ _ _ H)).
  apply Built_seqP. intros p [<-|[<-|[]]]; apply Built_literalP.
Qed.

Lemma pruneResult_keeps_order_witness :
  StronglySorted precedes (pruneResult abNode)
  /\ Forall (Within abNode) (pruneResult abNode)
  /\ Forall SpanOrdered (pruneResult abNode).
Proof.
  apply pruneResult_keeps_order. exact abNode_ordered.
Defined.

(** ** Laws of the combinators *)

Lemma rcav_refl : forall l c, resultCoordinatesAreValid l c l c = true.
Proof. intros. apply rcav_true, posLe_refl. Qed.

Lemma joinResults_empty : forall T (ty : ResultType T) l c,
  joinResults [] ty (Some (l, c)) (Some (l, c)) = Ok (mkResult ty l c l c []).
Proof.
  intros. unfold joinResults. simpl. now rewrite rcav_refl.
Qed.

Section CombinatorLaws.
Context {State T : Type}.
Implicit Types (p : Parser State T) (ps qs : list (Parser State T)).

(** X6: [notP] and [lookaheadP] look without touching anything.  [notP p]
    succeeds exactly when [p] returns None, [lookaheadP p] exactly when [p]
    succeeds; the success is a structural node of length zero at the entry
    position, without children (its type is [null], the default that
    [joinResults] puts in the place of the [undefined] it is given; it is
    not a discarded node), and the state returned is the state given,
    whatever [p] did to it. *)
Theorem notP_lookaheadP_look_only :
  forall p (state : State) lines line column state' (r : Result T),
    (notP p state lines line column = Ok (Some (state', r))
     <-> p state lines line column = Ok None
         /\ state' = state
         /\ r = mkResult TNull line column line column [])
    /\ (lookaheadP p state lines line column = Ok (Some (state', r))
        <-> (exists x, p state lines line column = Ok (Some x))
            /\ state' = state
            /\ r = mkResult TNull line column line column []).
Proof.
  intros p state lines line column state' r.
  unfold notP, lookaheadP, defaultNull.
  destruct (p state lines line column) as [[y|]| |]; simpl;
    rewrite ?joinResults_empty; simpl.
  - split; split; intros H; try discriminate.
    + destruct H as [H _]. discriminate.
    + injection H as <- <-. eauto.
    + destruct H as (_ & -> & ->). reflexivity.
  - split; split; intros H; try discriminate.
    + injection H as <- <-. auto.
    + destruct H as (_ & -> & ->). reflexivity.
    + destruct H as ((z & H) & _). discriminate.
  - split; split; intros H; try discriminate.
    + destruct H as [H _]. discriminate.
    + destruct H as ((z & H) & _). discriminate.
  - split; split; intros H; try discriminate.
    + destruct H as [H _]. discriminate.
    + destruct H as ((z & H) & _). discriminate.
Qed.

(** X7: a double negation is a lookahead: [notP (notP p)] and [lookaheadP p]
    do the same at every position, also where [p] throws or does not
    return. *)
Theorem notP_notP_lookaheadP :
  forall p (state : State) lines line column,
    notP (notP p) state lines line column
    = lookaheadP p state lines line column.
Proof.
  intros p state lines line column. unfold notP, lookaheadP, defaultNull.
  destruct (p state lines line column) as [[x|]| |]; simpl;
    rewrite ?joinResults_empty; simpl; rewrite ?joinResults_empty;
    reflexivity.
Qed.

Lemma orLoop_app : forall ps qs (state : State) lines line column,
  orLoop (ps ++ qs) state lines line column
  = (r <- orLoop ps state lines line column ;;
     match r with
     | Some _ => Ok r
     | None => orLoop qs state lines line column
     end).
Proof.
  induction ps as [|p ps IH]; intros qs state lines line column; simpl.
  - reflexivity.
  - destruct (p state lines line column) as [[x|]| |]; simpl; auto.
Qed.

(** X8: choices nest.  Trying the parsers of two lists in order is trying
    the choice over the first list and then the choice over the second, at
    every position (at a position that is not valid both throw
    InvalidPosition before any parser runs). *)
Theorem orP_nests :
  forall ps qs (state : State) lines line column,
    orP (ps ++ qs) state lines line column
    = orP [orP ps; orP qs] state lines line column.
Proof.
  intros ps qs state lines line column. unfold orP, assert.
  destruct (valid lines line column) eqn:Hv; [|reflexivity]. simpl.
  rewrite ?Hv. simpl. rewrite orLoop_app.
  destruct (orLoop ps state lines line column) as [[x|]| |]; simpl;
    rewrite ?Hv; simpl; try reflexivity.
  destruct (orLoop qs state lines line column) as [[y|]| |]; reflexivity.
Qed.

(** X9: [failP] is neutral for [orP] at the positions that are valid:
    [orP(failP, p)] and [orP(p, failP)] do what [p] does there, whether it
    succeeds, fails, throws or does not return.  At the other positions they
    throw InvalidPosition, also when [p] would not. *)
Theorem orP_failP_neutral :
  forall p (state : State) lines line column,
    (valid lines line column = true ->
     orP [failP; p] state lines line column = p state lines line column
     /\ orP [p; failP] state lines line column = p state lines line column)
    /\ (valid lines line column = false ->
        orP [failP; p] state lines line column = Throw InvalidPosition
        /\ orP [p; failP] state lines line column = Throw InvalidPosition).
Proof.
  intros p state lines line column. unfold orP, failP, assert. split.
  - intros Hv. rewrite Hv. simpl. rewrite Hv. simpl.
    destruct (p state lines line column) as [[x|]| |]; simpl; auto.
  - intros Hv. rewrite Hv. auto.
Qed.

(** X10: [optP] never fails.  It never returns None; at a valid position
    where the sequence fails it returns the empty structural node and the
    state unchanged, and where the sequence succeeds, the success of the
    sequence. *)
Theorem optP_never_None :
  forall ps (state : State) lines line column,
    optP ps state lines line column <> Ok None
    /\ (valid lines line column = true ->
        (seqP ps state lines line column = Ok None ->
         optP ps state lines line column
         = Ok (Some (state, mkResult TNull line column line column [])))
        /\ (forall x, seqP ps state lines line column = Ok (Some x) ->
              optP ps state lines line column = Ok (Some x))).
Proof.
  intros ps state lines line column. unfold optP, orP, emptyP, assert.
  destruct (valid lines line column) eqn:Hv; simpl.
  - destruct (seqP ps state lines line column) as [[x|]| |]; simpl;
      rewrite ?Hv; simpl; split; try discriminate; intros _; split;
      intros; try discriminate; try reflexivity.
    congruence.
  - split; [discriminate|]. discriminate.
Qed.
End CombinatorLaws.

Lemma orP_failP_neutral_witness :
  @orP unit unit [failP; charP (isLetter "a")] tt linesAbc 0 0
  = charP (isLetter "a") tt linesAbc 0 0
  /\ @orP unit unit [charP (isLetter "a"); failP] tt linesAbc 0 0
     = charP (isLetter "a") tt linesAbc 0 0.
Proof.
  apply (proj1 (@orP_failP_neutral unit unit (charP (isLetter "a")) tt
                  linesAbc 0 0)).
  reflexivity.
Defined.

Lemma optP_never_None_witness :
  @optP unit unit [charP (isLetter "b")] tt linesAbc 0 0
  = Ok (Some (tt, mkResult TNull 0 0 0 0 [])).
Proof.
  refine (proj1 (proj2 (@optP_never_None unit unit [charP (isLetter "b")] tt
                          linesAbc 0 0) _) _); reflexivity.
Defined.

Section AtLeastOnce.
Context {State T : Type}.
Implicit Types (p : Parser State T) (ps : list (Parser State T)).

Lemma seqLoop_cons :
  forall p ps (state : State) lines line column (children : list (Result T)),
    seqLoop (p :: ps) state lines line column children
    = (parsed <- p state lines line column ;;
       match parsed with
       | None => Ok None
       | Some (state', result) =>
           seqLoop ps state' lines (endLine result)
             (endColumnExclusive result) (pushResult children result)
       end).
Proof. reflexivity. Qed.

Lemma repP_not_None : forall fuel ps (state : State) lines line column,
  repP fuel ps state lines line column <> Ok None.
Proof.
  intros fuel ps state lines line column H. unfold repP in H.
  apply bind_inv in H as (u & _ & H). apply repLoop_inv in H.
  destruct H as (state' & rs & line' & column' & _ & _ & H). discriminate.
Qed.

(** A sequence of a parser and a repetition fails only at its head. *)
Lemma seq_head_rep :
  forall p fuel ps (state : State) lines line column,
    valid lines line column = true ->
    (seqP [p; repP fuel ps] state lines line column = Ok None
     <-> p state lines line column = Ok None).
Proof.
  intros p fuel ps state lines line column Hv.
  rewrite seqP_many. unfold assert. rewrite Hv.
  cbv beta iota delta [bind]. rewrite seqLoop_cons.
  destruct (p state lines line column) as [[[state1 r1]|]| |];
    cbv beta iota delta [bind];
    try solve [split; intros H; discriminate || reflexivity].
  rewrite seqLoop_cons.
  pose proof (@repP_not_None fuel ps state1 lines (endLine r1)
                (endColumnExclusive r1)) as Hrep.
  destruct (repP fuel ps state1 lines (endLine r1) (endColumnExclusive r1))
    as [[[state2 r2]|]| |]; cbv beta iota delta [bind seqLoop];
    split; intros H; try discriminate. now contradiction Hrep.
Qed.

(** X11: [rep1P] and [joinP] fail only at their first element.  At a valid
    position [rep1P(p...)] returns None exactly when the sequence of the
    [p...] returns None there, and [joinP(elem, joint)] exactly when [elem]
    does: once the first element is read, the repetition behind it cannot
    turn the success into a failure. *)
Theorem rep1P_joinP_fail_at_head :
  forall fuel ps (elemP jointP : Parser State T) (state : State)
         lines line column,
    valid lines line column = true ->
    (rep1P fuel ps state lines line column = Ok None
     <-> seqP ps state lines line column = Ok None)
    /\ (joinP fuel elemP jointP state lines line column = Ok None
        <-> elemP state lines line column = Ok None).
Proof.
  intros fuel ps elemP jointP state lines line column Hv.
  unfold rep1P, joinP. split; apply seq_head_rep; exact Hv.
Qed.
End AtLeastOnce.

Lemma rep1P_joinP_fail_at_head_witness :
  (@rep1P unit unit 9 [charP isDigit] tt lines12ab 0 2 = Ok None
   <-> @seqP unit unit [charP isDigit] tt lines12ab 0 2 = Ok None)
  /\ (@joinP unit unit 9 (charP isDigit) (charP (isLetter ",")) tt
        lines12ab 0 2 = Ok None
      <-> @charP unit unit isDigit tt lines12ab 0 2 = Ok None).
Proof.
  apply rep1P_joinP_fail_at_head. reflexivity.
Defined.

(** ** Texts *)

Lemma iterText_slice_list : forall (l : list TextChar) s n a b,
  b <= n ->
  firstn (b - a) (skipn (a + s) l)
  = firstn (b - a) (skipn a (firstn n (skipn s l))).
Proof.
  intros l s n a b Hb.
  rewrite skipn_firstn_comm, firstn_firstn, skipn_skipn.
  f_equal. lia.
Qed.

Lemma slice_within :
  forall (t : Text) (a b : nat),
    a <= b -> b <= count t ->
    exists t',
      slice t a (Some b) = Ok t'
      /\ count t' = b - a
      /\ iterText t' = firstn (b - a) (skipn a (iterText t))
      /\ (forall i, i < b - a -> charAt t' i = charAt t (a + i))
      /\ (ProperText t -> ProperText t').
Proof.
  intros t a b Hab Hb. unfold slice.
  replace (b <? a) with false by (symmetry; apply Nat.ltb_ge; lia).
  replace (count t <? b) with false by (symmetry; apply Nat.ltb_ge; lia).
  eexists. split; [reflexivity|]. simpl. split; [reflexivity|].
  split; [|split].
  - unfold iterText. simpl. now apply iterText_slice_list.
  - intros i Hi. unfold charAt. simpl.
    replace (b - a <=? i) with false by (symmetry; apply Nat.leb_gt; lia).
    replace (count t <=? a + i) with false
      by (symmetry; apply Nat.leb_gt; lia).
    f_equal. lia.
  - unfold ProperText. simpl. lia.
Qed.

(** X12: [slice(a, b)] throws exactly when [b < a] or [b > count]; within
    these bounds it returns the text of the [b - a] characters from [a] on:
    iterating it gives that part of the iteration of the text, its [charAt]
    is the [charAt] of the text moved by [a], and a slice that stays within
    its backing array gives one that does. *)
Theorem slice_bounds :
  forall (t : Text) (a b : nat),
    (slice t a (Some b) = Throw InvalidSlice <-> b < a \/ count t < b)
    /\ (a <= b -> b <= count t ->
        exists t',
          slice t a (Some b) = Ok t'
          /\ count t' = b - a
          /\ iterText t' = firstn (b - a) (skipn a (iterText t))
          /\ (forall i, i < b - a -> charAt t' i = charAt t (a + i))
          /\ (ProperText t -> ProperText t')).
Proof.
  intros t a b. split.
  - unfold slice. destruct (b <? a) eqn:E1; [apply Nat.ltb_lt in E1; tauto|].
    apply Nat.ltb_ge in E1.
    destruct (count t <? b) eqn:E2.
    + apply Nat.ltb_lt in E2. tauto.
    + apply Nat.ltb_ge in E2. split; [discriminate|lia].
  - apply slice_within.
Qed.

Lemma slice_bounds_witness :
  exists t',
    slice (textOf (Str "hello")) 1 (Some 3) = Ok t'
    /\ count t' = 3 - 1
    /\ iterText t' = firstn (3 - 1) (skipn 1 (iterText (textOf (Str "hello"))))
    /\ (forall i, i < 3 - 1 ->
          charAt t' i = charAt (textOf (Str "hello")) (1 + i))
    /\ (ProperText (textOf (Str "hello")) -> ProperText t').
Proof.
  apply (proj2 (slice_bounds (textOf (Str "hello")) 1 3)); simpl; lia.
Defined.

(** X13: slices compose: a slice of a slice is the slice of the text at the
    added offsets. *)
Theorem slice_of_slice :
  forall (t t1 : Text) (a b c d : nat),
    slice t a (Some b) = Ok t1 ->
    c <= d -> d <= b - a ->
    slice t1 c (Some d) = slice t (a + c) (Some (a + d)).
Proof.
  intros t t1 a b c d H Hcd Hd. unfold slice in *.
  destruct (b <? a) eqn:E1; [discriminate|]. apply Nat.ltb_ge in E1.
  destruct (count t <? b) eqn:E2; [discriminate|]. apply Nat.ltb_ge in E2.
  injection H as <-. simpl.
  replace (d <? c) with false by (symmetry; apply Nat.ltb_ge; lia).
  replace (b - a <? d) with false by (symmetry; apply Nat.ltb_ge; lia).
  replace (a + d <? a + c) with false by (symmetry; apply Nat.ltb_ge; lia).
  replace (count t <? a + d) with false by (symmetry; apply Nat.ltb_ge; lia).
  f_equal. f_equal; lia.
Qed.

Lemma slice_of_slice_witness :
  slice (TextSlice 1 3 (list_ascii_of_string "hello")) 1 (Some 2)
  = slice (textOf (Str "hello")) (1 + 1) (Some (1 + 2)).
Proof.
  apply (@slice_of_slice (textOf (Str "hello")) _ 1 4 1 2);
    [reflexivity|lia|simpl; lia].
Defined.

(** X14: [toString] prints the whole backing array, whatever the slice: a
    slice prints like the text it was cut from, though it iterates over its
    own characters only.  A text built by [textOfChars] prints and iterates
    the same characters. *)
Theorem toString_ignores_slice :
  forall (t t' : Text) (a : nat) (b : option nat) (cs : list TextChar),
    (slice t a b = Ok t' -> toString t' = toString t)
    /\ toString (textOfChars cs) = string_of_list_ascii cs
    /\ iterText (textOfChars cs) = cs.
Proof.
  intros t t' a b cs. split; [|split].
  - unfold slice. intros H.
    destruct (_ <? a); [discriminate|].
    destruct (count t <? _); [discriminate|].
    injection H as <-. reflexivity.
  - reflexivity.
  - unfold iterText, textOfChars. simpl. apply firstn_all.
Qed.

Lemma toString_ignores_slice_witness :
  toString (TextSlice 1 2 (list_ascii_of_string "hello")) = "hello"%string.
Proof.
  refine (proj1 (@toString_ignores_slice (textOf (Str "hello")) _ 1 (Some 3)
                   []) _).
  reflexivity.
Defined.

(** ** Lines *)

Lemma joinWithLF_cons : forall p q rest,
  joinWithLF (p :: q :: rest) = p ++ LF :: joinWithLF (q :: rest).
Proof. reflexivity. Qed.

Lemma splitLines_join : forall n s cur,
  length s <= n ->
  splitLines cur s <> []
  /\ joinWithLF (splitLines cur s) = rev cur ++ normalizeNewlines s.
Proof.
  assert (Hsep : forall cur rest piece,
    piece <> [] ->
    joinWithLF piece = normalizeNewlines rest ->
    rev cur :: piece <> []
    /\ joinWithLF (rev cur :: piece) = rev cur ++ LF :: normalizeNewlines rest).
  { intros cur rest piece Hne Hj. split; [discriminate|].
    destruct piece as [|q piece]; [contradiction|].
    rewrite joinWithLF_cons, Hj. reflexivity. }
  induction n as [|n IH]; intros s cur Hn.
  - destruct s; [|simpl in Hn; lia]. simpl. split; [discriminate|].
    now rewrite app_nil_r.
  - destruct s as [|c rest]; simpl.
    { split; [discriminate|]. now rewrite app_nil_r. }
    simpl in Hn.
    destruct (Ascii.eqb c LF).
    + destruct rest as [|d rest'].
      * apply Hsep; apply (IH [] []); simpl; lia.
      * destruct (Ascii.eqb d CR).
        -- apply Hsep; apply (IH rest' []); simpl in *; lia.
        -- apply Hsep; apply (IH (d :: rest') []); simpl in *; lia.
    + destruct (Ascii.eqb c CR).
      * destruct rest as [|d rest'].
        -- apply Hsep; apply (IH [] []); simpl; lia.
        -- destruct (Ascii.eqb d LF).
           ++ apply Hsep; apply (IH rest' []); simpl in *; lia.
           ++ apply Hsep; apply (IH (d :: rest') []); simpl in *; lia.
      * destruct (IH rest (c :: cur) ltac:(lia)) as [H1 H2].
        split; [exact H1|]. rewrite H2. simpl. now rewrite <- app_assoc.
Qed.

Lemma normalizeNewlines_no_CR : forall n s,
  length s <= n -> ~ In CR s -> normalizeNewlines s = s.
Proof.
  induction n as [|n IH]; intros s Hn Hcr.
  - destruct s; [reflexivity|simpl in Hn; lia].
  - destruct s as [|c rest]; [reflexivity|]. simpl in Hn |- *.
    assert (Hrest : normalizeNewlines rest = rest).
    { apply IH; [lia|]. intros H. apply Hcr. now right. }
    destruct (Ascii.eqb c LF) eqn:E1.
    + apply Ascii.eqb_eq in E1. subst c.
      destruct rest as [|d rest']; [reflexivity|].
      destruct (Ascii.eqb d CR) eqn:E2.
      * apply Ascii.eqb_eq in E2. subst d. exfalso. apply Hcr. right. now left.
      * now rewrite Hrest.
    + destruct (Ascii.eqb c CR) eqn:E2.
      * apply Ascii.eqb_eq in E2. subst c. exfalso. apply Hcr. now left.
      * now rewrite Hrest.
Qed.

(** The loop of [textOfTextLines] behind the first line puts the separator
    in front of every line. *)
Lemma textOfTextLinesLoop_rest : forall sep ls pre,
  pre <> [] ->
  textOfTextLinesLoop (TextLinesImpl (pre ++ ls)) sep (length ls) (length pre)
  = Ok (flat_map (fun t => sep ++ iterText t) ls).
Proof.
  intros sep ls. induction ls as [|t ls IH]; intros pre Hpre; simpl.
  - reflexivity.
  - unfold index. rewrite nth_error_app2 by lia. rewrite Nat.sub_diag. simpl.
    specialize (IH (pre ++ [t])).
    rewrite <- app_assoc, length_app in IH. simpl in IH.
    rewrite Nat.add_1_r in IH. rewrite IH by (destruct pre; discriminate).
    simpl. destruct pre as [|p pre]; [contradiction|]. simpl.
    now rewrite <- app_assoc.
Qed.

Lemma textOfTextLines_impl : forall t ls,
  textOfTextLines (TextLinesImpl (t :: ls)) NEWLINE
  = Ok (textOfChars (iterText t ++ flat_map (fun u => LF :: iterText u) ls)).
Proof.
  intros t ls. unfold textOfTextLines.
  change (lineCount (TextLinesImpl (t :: ls))) with (S (length ls)).
  simpl textOfTextLinesLoop.
  pose proof (@textOfTextLinesLoop_rest (iterText NEWLINE) ls [t]) as H.
  simpl in H. rewrite H by discriminate. reflexivity.
Qed.

Lemma iterText_of_string : forall cs,
  iterText (textOf (Str (string_of_list_ascii cs))) = cs.
Proof.
  intros cs. unfold iterText. simpl.
  rewrite list_ascii_of_string_of_list_ascii. apply firstn_all.
Qed.

Lemma join_pieces : forall p pieces,
  p ++ flat_map (fun u => LF :: iterText u)
         (map (fun cs => textOf (Str (string_of_list_ascii cs))) pieces)
  = joinWithLF (p :: pieces).
Proof.
  intros p pieces. revert p.
  induction pieces as [|q pieces IH]; intros p.
  - simpl. apply app_nil_r.
  - rewrite joinWithLF_cons, <- IH. cbn [map flat_map app].
    now rewrite iterText_of_string.
Qed.

(** X15: splitting into lines and joining again.  [createTextLines] of a
    string always has at least one line; and for a string of ASCII
    characters (on which the normalisation and the splitting into code
    points of [textOf] change nothing), [textOfTextLines] of it (with the
    newline as separator) is the string with every line separator replaced
    by a newline: the string itself when it has no carriage return. *)
Theorem createTextLines_round_trip :
  forall s : string,
    1 <= lineCount (createTextLines (OfString s))
    /\ (isASCII s ->
        textOfTextLines (createTextLines (OfString s)) NEWLINE
        = Ok (textOfChars (normalizeNewlines (list_ascii_of_string s)))
        /\ (~ In CR (list_ascii_of_string s) ->
            (text <- textOfTextLines (createTextLines (OfString s)) NEWLINE ;;
             Ok (toString text)) = Ok s)).
Proof.
  intros s. unfold createTextLines.
  destruct (@splitLines_join (length (list_ascii_of_string s))
              (list_ascii_of_string s) [] (Nat.le_refl _)) as [Hne Hjoin].
  simpl in Hjoin.
  destruct (splitLines [] (list_ascii_of_string s)) as [|p pieces] eqn:E;
    [contradiction|].
  assert (Htext :
    textOfTextLines
      (TextLinesImpl
         (map (fun cs => textOf (Str (string_of_list_ascii cs))) (p :: pieces)))
      NEWLINE
    = Ok (textOfChars (normalizeNewlines (list_ascii_of_string s)))).
  { cbn [map]. rewrite textOfTextLines_impl, iterText_of_string.
    now rewrite join_pieces, Hjoin. }
  split; [simpl; lia|]. intros _. split; [exact Htext|].
  intros Hcr. rewrite Htext. simpl.
  rewrite (@normalizeNewlines_no_CR _ _ (Nat.le_refl _) Hcr).
  unfold toString. simpl. now rewrite string_of_list_ascii_of_string.
Qed.

Lemma createTextLines_round_trip_witness :
  (text <- textOfTextLines
             (createTextLines (OfString ("ab" ++ String LF "c"))) NEWLINE ;;
   Ok (toString text)) = Ok ("ab" ++ String LF "c")%string.
Proof.
  apply (proj2 (createTextLines_round_trip ("ab" ++ String LF "c")%string)).
  - unfold isASCII. simpl. repeat constructor.
  - simpl. intros [H|[H|[H|[H|[]]]]]; discriminate.
Defined.

(** X16: the text of a result that lies on one line is the part of that
    line between its two columns. *)
Theorem textOfResult_one_line :
  forall T (lines : TextLines) (r : Result T) (t : Text),
    startLine r = endLine r ->
    valid lines (startLine r) (startColumnInclusive r) = true ->
    valid lines (endLine r) (endColumnExclusive r) = true ->
    startLine r < lineCount lines ->
    lineAt lines (startLine r) = Ok t ->
    startColumnInclusive r <= endColumnExclusive r ->
    endColumnExclusive r <= count t ->
    textOfResult lines r
    = Ok (textOfChars
            (firstn (endColumnExclusive r - startColumnInclusive r)
               (skipn (startColumnInclusive r) (iterText t)))).
Proof.
  intros T lines [ty sl sc el ec cs] t. simpl.
  intros <- Hv1 Hv2 Hl Ht Hc1 Hc2.
  unfold textOfResult, textlinesOfResult, copySliceOfTextLines, assert.
  simpl. rewrite Hv1, Hv2. simpl bind.
  replace (Nat.min (lineCount lines) (S sl) - sl) with 1 by lia.
  simpl copySliceLoop. rewrite Ht. simpl bind. rewrite Nat.eqb_refl.
  destruct (slice_within t Hc1 Hc2) as (t' & Hs & _ & Hi & _).
  rewrite Hs. simpl bind.
  change (createTextLines (OfTexts [t'])) with (TextLinesImpl [t']).
  rewrite textOfTextLines_impl. simpl flat_map.
  now rewrite app_nil_r, Hi.
Qed.

Lemma textOfResult_one_line_witness :
  textOfResult linesAbc (mkResult (Label "A"%string) 0 1 0 3 [])
  = Ok (textOfChars (firstn (3 - 1) (skipn 1 (list_ascii_of_string "abc")))).
Proof.
  apply (@textOfResult_one_line string linesAbc
           (mkResult (Label "A"%string) 0 1 0 3 []) (textOf (Str "abc")));
    try reflexivity; simpl; lia.
Defined.

(** X17: what [textlinesUntil] leaves.  The truncated text admits no
    position that the text did not admit; when the end line exists, it has
    the lines up to that one, the lines before it unchanged and the end line
    cut at the end column (or whole, when it is shorter), and no position
    behind the end is valid in it. *)
Theorem textlinesUntil_truncates :
  forall (lines lines' : TextLines) (endLine endColumn : nat),
    textlinesUntil lines endLine endColumn = Ok lines' ->
    (forall l c, valid lines' l c = true -> valid lines l c = true)
    /\ lineCount lines' = Nat.min (lineCount lines) (endLine + 1)
    /\ (endLine < lineCount lines ->
        (forall l c, valid lines' l c = true ->
           posLe (l, c) (endLine, endColumn))
        /\ (forall l, l < endLine -> lineAt lines' l = lineAt lines l)
        /\ exists t t',
             lineAt lines endLine = Ok t /\ lineAt lines' endLine = Ok t'
             /\ count t' = Nat.min (count t) endColumn
             /\ iterText t' = firstn endColumn (iterText t)).
Proof.
  intros lines lines' endLine endColumn H. unfold textlinesUntil in H.
  destruct (lineCount lines <=? endLine) eqn:E.
  - apply Nat.leb_le in E. injection H as <-.
    split; [auto|]. split; [lia|]. intros Hlt. lia.
  - apply Nat.leb_gt in E. unfold TextLinesUntil in H.
    replace (lineCount lines <=? endLine) with false in H
      by (symmetry; apply Nat.leb_gt; exact E).
    apply bind_inv in H as (t & Ht & H). apply bind_inv in H as (t' & Ht' & H).
    injection H as <-. simpl.
    assert (Hlast : count t' = Nat.min (count t) endColumn
                    /\ iterText t' = firstn endColumn (iterText t)).
    { destruct (count t <=? endColumn) eqn:Ec.
      - apply Nat.leb_le in Ec. injection Ht' as <-. split; [lia|].
        symmetry. apply firstn_all2. unfold iterText.
        etransitivity; [apply firstn_le_length|exact Ec].
      - apply Nat.leb_gt in Ec.
        destruct (@slice_within t 0 endColumn (Nat.le_0_l _)
                    (Nat.lt_le_incl _ _ Ec)) as (u & Hu & Hc & Hi & _).
        rewrite Hu in Ht'. injection Ht' as <-. split; [lia|].
        rewrite Hi. simpl. now rewrite Nat.sub_0_r. }
    split; [|split; [lia|]].
    + intros l c Hv. destruct (valid lines l c); [reflexivity|discriminate].
    + intros _. split; [|split].
      * intros l c Hv. destruct (valid lines l c); [|discriminate]. simpl in Hv.
        unfold posLe. simpl.
        destruct (l <? endLine) eqn:E1; [apply Nat.ltb_lt in E1; lia|].
        destruct (endLine <? l) eqn:E2; [discriminate|].
        apply Nat.ltb_ge in E1, E2. apply Nat.leb_le in Hv. lia.
      * intros l Hl. now replace (l <? endLine) with true
          by (symmetry; apply Nat.ltb_lt; exact Hl).
      * exists t, t'. rewrite Nat.ltb_irrefl, Nat.eqb_refl. tauto.
Qed.

Lemma textlinesUntil_truncates_witness :
  exists lines',
    textlinesUntil linesAab 0 2 = Ok lines'
    /\ (forall l c, valid lines' l c = true -> posLe (l, c) (0, 2)).
Proof.
  destruct (textlinesUntil linesAab 0 2) as [lines'| |] eqn:E;
    try discriminate.
  exists lines'. split; [reflexivity|].
  refine (proj1 (proj2 (proj2 (textlinesUntil_truncates _ _ _ E)) _)).
  simpl. lia.
Defined.

Lemma cutoffLoop_spec :
  forall source isIndented n i view,
    cutoffLoop source isIndented n i = Ok view ->
    i + n <= lineCount source ->
    (view = source
     /\ forall k, i <= k < i + n ->
          exists t, lineAt source k = Ok t /\ isIndented t = Ok true)
    \/ (exists cut,
          view = CutoffTextLines source cut /\ i <= cut < i + n
          /\ (forall k, i <= k < cut ->
                exists t, lineAt source k = Ok t /\ isIndented t = Ok true)
          /\ exists t, lineAt source cut = Ok t /\ isIndented t = Ok false).
Proof.
  intros source isIndented n. induction n as [|n IH]; intros i view H Hn;
    simpl in H.
  - injection H as <-. left. split; [reflexivity|]. intros k Hk. lia.
  - apply bind_inv in H as (t & Ht & H). apply bind_inv in H as (b & Hb & H).
    destruct b.
    + destruct (IH _ _ H ltac:(lia)) as [[-> Hall]|(cut & -> & Hc & Hall & Hcut)].
      * left. split; [reflexivity|]. intros k Hk.
        destruct (Nat.eq_dec k i) as [->|Hne]; [eauto|]. apply Hall. lia.
      * right. exists cut. split; [reflexivity|]. split; [lia|].
        split; [|exact Hcut]. intros k Hk.
        destruct (Nat.eq_dec k i) as [->|Hne]; [eauto|]. apply Hall. lia.
    + injection H as <-. right. exists i. split; [reflexivity|].
      split; [lia|]. split; [intros k Hk; lia|eauto].
Qed.

(** X18: the view that [cutoffAfterIndentation] returns.  It admits no
    position that the source does not admit and shows the lines of the
    source unchanged; it keeps the line it is asked for (when the source has
    it) and, behind it, exactly the indented lines that follow: every line
    of the view behind the given one is indented, and the view ends before
    the end of the source only at a line that is not indented. *)
Theorem cutoffAfterIndentation_view :
  forall (source view : TextLines) (line : nat)
         (isIndented : Text -> Run bool),
    cutoffAfterIndentation source line isIndented = Ok view ->
    (forall l c, valid view l c = true -> valid source l c = true)
    /\ (forall k, k < lineCount source -> lineAt view k = lineAt source k)
    /\ lineCount view <= lineCount source
    /\ (line < lineCount source -> line < lineCount view)
    /\ (forall k, line < k < lineCount view ->
          exists t, lineAt source k = Ok t /\ isIndented t = Ok true)
    /\ (lineCount view < lineCount source ->
          exists t, lineAt source (lineCount view) = Ok t
                    /\ isIndented t = Ok false).
Proof.
  intros source view line isIndented H. unfold cutoffAfterIndentation in H.
  apply bind_inv in H as (u & _ & H).
  destruct (Nat.le_gt_cases (lineCount source) line) as [Hle|Hgt].
  - replace (lineCount source - (line + 1)) with 0 in H by lia.
    simpl in H. injection H as <-.
    repeat split; auto; intros; lia.
  - apply cutoffLoop_spec in H; [|lia].
    replace (line + 1 + (lineCount source - (line + 1)))
      with (lineCount source) in H by lia.
    destruct H as [[-> Hall]|(cut & -> & Hc & Hall & Hcut)].
    + split; [auto|]. split; [auto|]. split; [lia|]. split; [auto|].
      split; [|lia]. intros k Hk. apply Hall. lia.
    + simpl. split; [|split; [|split; [|split; [|split]]]].
      * intros l c Hv. apply andb_prop in Hv. tauto.
      * intros k Hk. now replace (lineCount source <=? k) with false
          by (symmetry; apply Nat.leb_gt; exact Hk).
      * lia.
      * lia.
      * intros k Hk. apply Hall. lia.
      * intros _. exact Hcut.
Qed.

Lemma cutoffAfterIndentation_view_witness :
  exists view,
    cutoffAfterIndentation linesIndented 0 (isIndented skipOneSpace) = Ok view
    /\ lineCount view = 2.
Proof.
  destruct (cutoffAfterIndentation linesIndented 0 (isIndented skipOneSpace))
    as [view| |] eqn:E; try discriminate.
  exists view. split; [reflexivity|].
  destruct (cutoffAfterIndentation_view _ _ _ E)
    as (_ & _ & Hle & Hgt & Hind & Hcut).
  simpl in Hle, Hgt, Hind.
  assert (H0 : 0 < lineCount view) by (apply Hgt; lia).
  assert (H3 : lineCount view <> 3).
  { intros H3. destruct (Hind 2 ltac:(lia)) as (t & Ht & Hi).
    injection Ht as <-. discriminate. }
  assert (H1 : lineCount view <> 1).
  { intros H1. rewrite H1 in Hcut. destruct (Hcut ltac:(simpl; lia))
      as (t & Ht & Hi). injection Ht as <-. discriminate. }
  lia.
Defined.

(** * trimText *)

Lemma dropSpaces_skipn : forall cs,
  dropSpaces cs = skipn (leadingSpaces cs) cs.
Proof.
  induction cs as [|c cs IH]; simpl; [reflexivity|].
  destruct (Ascii.eqb c SPACE); [exact IH|reflexivity].
Qed.

Lemma leadingSpaces_le : forall cs, leadingSpaces cs <= length cs.
Proof.
  induction cs as [|c cs IH]; simpl; [lia|].
  destruct (Ascii.eqb c SPACE); lia.
Qed.

Lemma nth_error_split : forall (A : Type) (l : list A) k c,
  nth_error l k = Some c ->
  firstn (S k) l = firstn k l ++ [c] /\ skipn k l = c :: skipn (S k) l.
Proof.
  intros A l. induction l as [|x l IH]; intros [|k] c H; simpl in H;
    try discriminate.
  - injection H as <-. split; reflexivity.
  - destruct (IH _ _ H) as [H1 H2]. split.
    + change (x :: firstn (S k) l = x :: (firstn k l ++ [c])). now rewrite H1.
    + exact H2.
Qed.

Lemma iterText_length : forall t, ProperText t -> length (iterText t) = count t.
Proof.
  intros t Hp. unfold iterText, ProperText in *.
  rewrite length_firstn, length_skipn. lia.
Qed.

Lemma charAt_iterText : forall t i,
  ProperText t -> i < count t ->
  exists c, charAt t i = Ok c /\ nth_error (iterText t) i = Some c.
Proof.
  intros t i Hp Hi. unfold charAt, index, iterText, ProperText in *.
  replace (count t <=? i) with false by (symmetry; apply Nat.leb_gt; exact Hi).
  rewrite nth_error_firstn.
  replace (i <? count t) with true by (symmetry; apply Nat.ltb_lt; exact Hi).
  rewrite nth_error_skipn.
  destruct (nth_error (chars t) (startIndex t + i)) as [c|] eqn:E.
  - exists c. split; reflexivity.
  - apply nth_error_None in E. lia.
Qed.

Lemma trimLeft_spec : forall t, ProperText t ->
  forall n i, i <= count t -> count t - i <= n ->
    trimLeft t n i = Ok (i + leadingSpaces (skipn i (iterText t))).
Proof.
  intros t Hp n. induction n as [|n IH]; intros i Hi Hn.
  - simpl. rewrite skipn_all2 by (rewrite iterText_length by exact Hp; lia).
    simpl. f_equal. lia.
  - cbn [trimLeft]. destruct (i <? count t) eqn:E.
    + apply Nat.ltb_lt in E.
      destruct (charAt_iterText Hp E) as (c & Hc & Hnth).
      destruct (nth_error_split _ _ Hnth) as [_ Hs].
      rewrite Hc, Hs. cbv beta iota delta [bind]. cbn [leadingSpaces].
      destruct (Ascii.eqb c SPACE).
      * rewrite IH by lia. f_equal. lia.
      * f_equal. lia.
    + apply Nat.ltb_ge in E.
      rewrite skipn_all2 by (rewrite iterText_length by exact Hp; lia).
      simpl. f_equal. lia.
Qed.

Lemma trimRight_spec : forall t, ProperText t ->
  forall n i j, i <= j -> j <= count t -> j - i <= n ->
    trimRight t n i j
    = Ok (j - leadingSpaces (rev (skipn i (firstn j (iterText t))))).
Proof.
  intros t Hp n. induction n as [|n IH]; intros i j Hi Hj Hn.
  - simpl. rewrite skipn_all2 by (rewrite length_firstn; lia).
    simpl. f_equal. lia.
  - cbn [trimRight]. destruct (i <? j) eqn:E.
    + apply Nat.ltb_lt in E.
      assert (Hj1 : j - 1 < count t) by lia.
      destruct (charAt_iterText Hp Hj1) as (c & Hc & Hnth).
      destruct (nth_error_split _ _ Hnth) as [Hf _].
      replace (S (j - 1)) with j in Hf by lia.
      rewrite Hc, Hf. cbv beta iota delta [bind].
      rewrite skipn_app.
      replace (i - length (firstn (j - 1) (iterText t))) with 0
        by (rewrite length_firstn, iterText_length by exact Hp; lia).
      rewrite skipn_O, rev_app_distr. cbn [rev app leadingSpaces].
      destruct (Ascii.eqb c SPACE).
      * rewrite IH by lia. f_equal. lia.
      * f_equal. lia.
    + apply Nat.ltb_ge in E.
      rewrite skipn_all2 by (rewrite length_firstn; lia).
      simpl. f_equal. lia.
Qed.

Lemma firstn_rev_skipn : forall (A : Type) (l : list A) k,
  firstn (length l - k) l = rev (skipn k (rev l)).
Proof.
  intros A l k. rewrite skipn_rev, rev_involutive. reflexivity.
Qed.

Lemma trimText_chars : forall t, ProperText t ->
  exists t',
    trimText t = Ok t' /\ ProperText t'
    /\ iterText t' = trimmed (iterText t).
Proof.
  intros t Hp. unfold trimText.
  rewrite (trimLeft_spec Hp) by lia. cbv beta iota delta [bind].
  rewrite skipn_O, Nat.add_0_l.
  set (L := iterText t). set (i := leadingSpaces L).
  assert (HL : length L = count t) by (apply iterText_length; exact Hp).
  assert (Hi : i <= count t) by (rewrite <- HL; apply leadingSpaces_le).
  rewrite (trimRight_spec Hp) by lia. cbv beta iota delta [bind].
  fold L. rewrite <- HL, firstn_all.
  set (M := skipn i L). set (k := leadingSpaces (rev M)).
  assert (HM : length M = length L - i) by (apply length_skipn).
  assert (Hk : k <= length M)
    by (unfold k; rewrite <- length_rev; apply leadingSpaces_le).
  destruct (@slice_within t i (length L - k))
    as (t' & Ht' & _ & Hit & _ & Hpt);
    [clearbody k M i L; lia|clearbody k M i L; lia|].
  exists t'. split; [exact Ht'|]. split; [exact (Hpt Hp)|].
  rewrite Hit. fold L. fold M. unfold trimmed.
  rewrite !dropSpaces_skipn. fold i. fold M. fold k.
  rewrite <- firstn_rev_skipn. unfold k, M. f_equal.
  rewrite length_skipn. unfold TextChar. lia.
Qed.

Lemma leadingSpaces_dropSpaces : forall cs, leadingSpaces (dropSpaces cs) = 0.
Proof.
  induction cs as [|c cs IH]; simpl; [reflexivity|].
  destruct (Ascii.eqb c SPACE) eqn:E; [exact IH|]. simpl. now rewrite E.
Qed.

Lemma dropSpaces_snoc : forall cs c,
  Ascii.eqb c SPACE = false -> dropSpaces (cs ++ [c]) = dropSpaces cs ++ [c].
Proof.
  intros cs c Hc. induction cs as [|d cs IH]; simpl.
  - now rewrite Hc.
  - destruct (Ascii.eqb d SPACE); [exact IH|reflexivity].
Qed.

Lemma leadingSpaces_trimmed : forall cs,
  leadingSpaces (trimmed cs) = 0 /\ leadingSpaces (rev (trimmed cs)) = 0.
Proof.
  intros cs. unfold trimmed. split.
  - pose proof (leadingSpaces_dropSpaces cs) as H.
    destruct (dropSpaces cs) as [|c M]; [reflexivity|].
    simpl in H. destruct (Ascii.eqb c SPACE) eqn:E; [discriminate|].
    cbn [rev]. rewrite dropSpaces_snoc by exact E.
    rewrite rev_app_distr. simpl. now rewrite E.
  - rewrite rev_involutive. apply leadingSpaces_dropSpaces.
Qed.

(** X19: [trimText] on a text that stays within its backing array never
    throws; it returns a slice of the same array whose characters are those
    of the text without the spaces at its two ends, and trimming that slice
    again returns it unchanged. *)
Theorem trimText_trims :
  forall t : Text,
    ProperText t ->
    exists t',
      trimText t = Ok t'
      /\ chars t' = chars t
      /\ iterText t' = trimmed (iterText t)
      /\ trimText t' = Ok t'.
Proof.
  intros t Hp.
  destruct (trimText_chars Hp) as (t' & Ht' & Hp' & Hit).
  exists t'. split; [exact Ht'|]. split; [|split; [exact Hit|]].
  - unfold trimText in Ht'.
    apply bind_inv in Ht' as (i & _ & Ht').
    apply bind_inv in Ht' as (j & _ & Ht').
    unfold slice in Ht'.
    destruct (j <? i); [discriminate|].
    destruct (count t <? j); [discriminate|].
    injection Ht' as <-. reflexivity.
  - destruct (leadingSpaces_trimmed (iterText t)) as [H1 H2].
    rewrite <- Hit in H1, H2.
    unfold trimText.
    rewrite (trimLeft_spec Hp') by lia. cbv beta iota delta [bind].
    rewrite skipn_O, H1, Nat.add_0_l.
    rewrite (trimRight_spec Hp') by lia. cbv beta iota delta [bind].
    rewrite skipn_O.
    replace (firstn (count t') (iterText t')) with (iterText t')
      by (rewrite <- (iterText_length Hp'); symmetry; apply firstn_all).
    unfold TextChar in *. rewrite H2.
    unfold slice. rewrite Nat.sub_0_r.
    replace (count t' <? 0) with false by reflexivity.
    rewrite Nat.ltb_irrefl. destruct t'. simpl. now rewrite Nat.sub_0_r.
Qed.

Lemma trimText_trims_witness :
  exists t',
    trimText (textOf (Str "  a b ")) = Ok t'
    /\ iterText t' = list_ascii_of_string "a b".
Proof.
  destruct (@trimText_trims (textOf (Str "  a b ")))
    as (t' & Ht & _ & Hi & _).
  - unfold ProperText. simpl. lia.
  - exists t'. split; [exact Ht|]. rewrite Hi. reflexivity.
Defined.

(** * Terminal parsers and the LR driver *)

Section MkTerminalParsers.
Context {State T : Type}.

Lemma distinctSyms_NoDup :
  forall (parsers : list (Sym * Parser State T)) seen,
    distinctSyms seen parsers = true
    <-> NoDup (map fst parsers)
        /\ forall s, In s (map fst parsers) -> ~ In s seen.
Proof.
  induction parsers as [|[s p] rest IH]; intros seen; simpl.
  - split; [intros _; split; [constructor|intros s []]|reflexivity].
  - destruct (existsb (String.eqb s) seen) eqn:E.
    + split; [discriminate|]. intros [_ H]. exfalso.
      apply existsb_exists in E as (x & Hx & Heq).
      apply String.eqb_eq in Heq as <-. apply (H s); auto.
    + rewrite IH. split.
      * intros [Hnd Hd]. split.
        -- constructor; [|exact Hnd]. intros Hin. apply (Hd s Hin). now left.
        -- intros x [<-|Hx] Hs.
           ++ assert (existsb (String.eqb s) seen = true)
                by (apply existsb_exists; exists s; split;
                    [exact Hs|apply String.eqb_refl]).
              congruence.
           ++ apply (Hd x Hx). now right.
      * intros [Hnd Hd]. inversion Hnd as [|? ? Hnot Hnd']; subst. split.
        -- exact Hnd'.
        -- intros x Hx [<-|Hs]; [contradiction|]. apply (Hd x); auto.
Qed.

Lemma firstTerminal_match :
  forall (filtered : list (option Sym * Parser State T))
         state lines line offset ms,
    firstTerminal filtered state lines line offset = Ok ms ->
    ms = []
    \/ exists t parser state' result,
         ms = [mkTerminalMatch t state' result]
         /\ In (t, parser) filtered
         /\ parser state lines line offset = Ok (Some (state', result)).
Proof.
  induction filtered as [|[t parser] rest IH]; intros state lines line offset
    ms H; simpl in H.
  - injection H as <-. now left.
  - apply bind_inv in H as (r & Hr & H). destruct r as [[state' result]|].
    + injection H as <-. right. exists t, parser, state', result.
      split; [reflexivity|]. split; [now left|exact Hr].
    + destruct (IH _ _ _ _ _ H) as [->|(t' & p' & s' & r' & -> & Hin & Hp)];
        [now left|].
      right. exists t', p', s', r'. split; [reflexivity|].
      split; [now right|exact Hp].
Qed.

(** X20: [mkTerminalParsers] throws exactly when a symbol has two parsers.
    Otherwise the parser it gives for a set of terminals returns at most one
    match; the symbol of the match belongs to the set, and the match is what
    a parser listed for that symbol returns at this position, or, for the
    end-of-input symbol [null], what [eofP] returns. *)
Theorem mkTerminalParsers_one_match :
  forall parsers : list (Sym * Parser State T),
    (mkTerminalParsers parsers = Throw DuplicateSymbol
     <-> ~ NoDup (map fst parsers))
    /\ forall tp, mkTerminalParsers parsers = Ok tp ->
       forall terminals state lines line offset ms,
         tp terminals state lines line offset = Ok ms ->
         ms = []
         \/ exists m,
              ms = [m]
              /\ setHas terminals (sym m) = true
              /\ match sym m with
                 | Some s =>
                     exists parser,
                       In (s, parser) parsers
                       /\ parser state lines line offset
                          = Ok (Some (tm_state m, tm_result m))
                 | None =>
                     eofP state lines line offset
                     = Ok (Some (tm_state m, tm_result m))
                 end.
Proof.
  intros parsers. unfold mkTerminalParsers.
  pose proof (distinctSyms_NoDup parsers []) as Hd.
  destruct (distinctSyms [] parsers); simpl.
  - split.
    + split; [discriminate|]. intros Hn. exfalso. apply Hn.
      now apply Hd.
    + intros tp Htp terminals state lines line offset ms H.
      injection Htp as <-.
      apply firstTerminal_match in H
        as [->|(t & p & s' & r & -> & Hin & Hp)]; [now left|].
      right. eexists. split; [reflexivity|]. simpl.
      apply in_app_or in Hin as [Hin|Hin].
      * apply in_map_iff in Hin as ([s q] & Heq & Hin).
        injection Heq as <- <-. apply filter_In in Hin as [Hin Hhas].
        simpl in *. split; [exact Hhas|]. exists q. split; assumption.
      * destruct (setHas terminals None) eqn:E; [|destruct Hin].
        destruct Hin as [Heq|[]]. injection Heq as <- <-.
        split; [exact E|exact Hp].
  - split.
    + split; [|reflexivity]. intros _ Hn.
      assert (false = true); [|discriminate]. apply Hd.
      split; [exact Hn|intros s _ []].
    + intros tp Htp. discriminate.
Qed.
End MkTerminalParsers.

(** With parsers for [a] and for any character, on "abc" the first listed
    parser wins: one match, for [a]. *)
Lemma mkTerminalParsers_one_match_witness :
  exists m,
    tpAAny [Some "any"%string; Some "a"%string] tt linesAbc 0 0 = Ok [m]
    /\ setHas [Some "any"%string; Some "a"%string] (sym m) = true.
Proof.
  destruct (proj2 (mkTerminalParsers_one_match
                     [("a"%string, charP (isLetter "a"));
                      ("any"%string, anyCharP)])
              tpAAny eq_refl [Some "any"%string; Some "a"%string] tt
              linesAbc 0 0 [matchAt "a"%string 0] eq_refl)
    as [H|(m & Hm & Hs & _)].
  - discriminate H.
  - exists m. split; [|exact Hs].
    injection Hm as <-. reflexivity.
Defined.

Lemma splice_tail : forall (A : Type) (xs : list A) (L : nat) (items : list A),
  L <= length xs ->
  splice xs (Z.of_nat (length xs) - Z.of_nat L) L items
  = (firstn (length xs - L) xs ++ items, skipn (length xs - L) xs).
Proof.
  intros A xs L items HL. unfold splice.
  replace (Z.of_nat (length xs) - Z.of_nat L <? 0)%Z with false
    by (symmetry; apply Z.ltb_ge; lia).
  replace (Nat.min (Z.to_nat (Z.of_nat (length xs) - Z.of_nat L)) (length xs))
    with (length xs - L) by lia.
  replace (Nat.min L (length xs - (length xs - L))) with L by lia.
  replace (length xs - L + L) with (length xs) by lia.
  rewrite skipn_all, app_nil_r. f_equal.
  apply firstn_all2. rewrite length_skipn. lia.
Qed.

Section LRInvariants.
Context {State T : Type}.
Variable undefinedState : State.
Variable symsOf : nat -> option (list Sym).
Variable handleOf : list Sym -> option nat.
Variable is_final : nat -> bool.
Variable num_states : nat.
Variable nextTerminalsOfState : nat -> list nat.
Variable planOfState : nat -> ActionPlan.
Variable lr1_graph : nat -> option (nat -> option nat).
Variable rules : list Rule.
Variable nonterminal_labels : list (Sym * T).
Variable terminal_parsers : TerminalParsers State T.
Variable invalid : ResultType T.

Local Notation iterationG :=
  (iteration undefinedState symsOf handleOf is_final num_states
     nextTerminalsOfState planOfState lr1_graph rules nonterminal_labels
     terminal_parsers).
Local Notation TurnsG :=
  (Turns undefinedState symsOf handleOf is_final num_states
     nextTerminalsOfState planOfState lr1_graph rules nonterminal_labels
     terminal_parsers).
Local Notation parseLoopG :=
  (parseLoop undefinedState symsOf handleOf is_final num_states
     nextTerminalsOfState planOfState lr1_graph rules nonterminal_labels
     terminal_parsers invalid).
Local Notation mkParserG :=
  (mkParser undefinedState symsOf handleOf is_final num_states
     nextTerminalsOfState planOfState lr1_graph rules nonterminal_labels
     terminal_parsers invalid).

Lemma iteration_balanced :
  forall lines (c c' : @Config State T),
    iterationG lines c = Ok (Continue c') -> Balanced c -> Balanced c'.
Proof.
  intros lines c c' H [Hhd Hlen]. unfold iteration in H.
  destruct (lastOf (lr_states c)) as [lr_state|]; [|discriminate].
  apply bind_inv in H as (plan & _ & H).
  apply bind_inv in H as (er & _ & H).
  destruct er as [[[tokens new_state] action]|]; [|discriminate].
  destruct action as [|ruleIndex|target].
  - destruct (results c) as [|r [|]]; discriminate.
  - apply bind_inv in H as (rule & _ & H).
    destruct (length (rhs rule) <? length (lr_states c)) eqn:E;
      [|discriminate].
    apply Nat.ltb_lt in E.
    apply bind_inv in H as (top & _ & H).
    destruct (goto lr1_graph top (lhs rule)); [|discriminate].
    rewrite (@splice_tail _ (results c)) in H by lia.
    rewrite (@splice_tail _ (lr_states c)) in H by lia.
    destruct (symsOf (lhs rule)) as [[|nt [|]]|]; try discriminate.
    injection H as <-.
    unfold Balanced. cbn [lr_states results fst].
    rewrite !length_app, !length_firstn. cbn [length]. split; [|lia].
    destruct (lr_states c) as [|s0 rest]; [discriminate|].
    cbn [length] in *.
    replace (S (length rest) - length (rhs rule))
      with (S (length rest - length (rhs rule))) by lia.
    exact Hhd.
  - assert (Hhd' : hd_error (lr_states c ++ [target]) = Some 0).
    { destruct (lr_states c); [discriminate|exact Hhd]. }
    destruct tokens as [|t [|t' tokens]].
    + simpl in H. injection H as <-. unfold Balanced. simpl.
      split; [exact Hhd'|]. rewrite !length_app. simpl. lia.
    + injection H as <-. unfold Balanced. simpl.
      split; [exact Hhd'|]. rewrite !length_app. simpl. lia.
    + destruct (match lastOf (t :: t' :: tokens) with
                | Some last => endOfResult last
                | None => (cf_line c, cf_offset c)
                end) as [e o].
      injection H as <-. unfold Balanced. simpl.
      split; [exact Hhd'|]. rewrite !length_app. simpl. lia.
Qed.

(** X21: the two stacks of the LR loop stay in step.  After any number of
    turns from the start of a parse, the stack of LR states has the start
    state 0 at its bottom and exactly one entry more than the stack of
    results. *)
Theorem lr_stacks_in_step :
  forall (lines : TextLines) (state : State) (line offset : nat)
         (k : nat) (c : @Config State T),
    TurnsG lines (initial state line offset) k c ->
    hd_error (lr_states c) = Some 0
    /\ length (lr_states c) = S (length (results c)).
Proof.
  intros lines state line offset k c H.
  change (Balanced c).
  assert (H0 : Balanced (@initial State T state line offset))
    by (split; reflexivity).
  revert H H0. generalize (@initial State T state line offset) as c0.
  intros c0 H H0.
  induction H as [c|c c1 c2 k Hstep _ IH]; [exact H0|].
  apply IH. exact (@iteration_balanced _ _ _ Hstep H0).
Qed.

Lemma parseLoop_not_None :
  isUndefined invalid = false ->
  forall fuel mv lines startState startLine startOffset c,
    parseLoopG fuel mv lines startState startLine startOffset c <> Ok None.
Proof.
  intros Hinv. induction fuel as [|fuel IH];
    intros mv lines startState startLine startOffset c; [discriminate|].
  cbn [parseLoop].
  destruct (iterationG lines c) as [[c'|r|c']| |] eqn:E;
    cbv beta iota delta [bind]; try discriminate.
  - apply IH.
  - intros Hr. injection Hr as ->. unfold iteration in E.
    destruct (lastOf (lr_states c)) as [lr_state|]; [|discriminate].
    apply bind_inv in E as (plan & _ & E).
    apply bind_inv in E as (er & _ & E).
    destruct er as [[[tokens new_state] action]|]; [|discriminate].
    destruct action as [|ruleIndex|target].
    + destruct (results c) as [|r [|]]; discriminate.
    + apply bind_inv in E as (rule & _ & E).
      destruct (length (rhs rule) <? length (lr_states c)); [|discriminate].
      apply bind_inv in E as (top & _ & E).
      destruct (goto lr1_graph top (lhs rule)); [|discriminate].
      destruct (splice (results c) _ _ _) as [results' rhs_].
      destruct (symsOf (lhs rule)) as [[|nt [|]]|]; discriminate.
    + destruct tokens as [|t [|t' tokens]]; try discriminate.
      destruct (match lastOf (t :: t' :: tokens) with
                | Some last => endOfResult last
                | None => (cf_line c, cf_offset c)
                end) as [e o]. discriminate.
  - destruct (if mv then last_valid c' else None) as [[l o]|].
    + destruct (textlinesUntil lines l o) as [lu| |]; try discriminate.
      apply IH.
    + unfold invalidTree. rewrite Hinv. discriminate.
Qed.

(** X22: with a label for invalid input given to [lrP], neither of its two
    parsers reports failure: whatever they return is a tree, never
    [undefined]. *)
Theorem lrP_invalid_label_never_fails :
  isUndefined invalid = false ->
  forall (fuel : nat) (maximum_valid : bool) (state : State)
         (lines : TextLines) (line offset : nat),
    mkParserG fuel maximum_valid state lines line offset <> Ok None.
Proof.
  intros Hinv fuel mv state lines line offset. unfold mkParser.
  apply parseLoop_not_None. exact Hinv.
Qed.
End LRInvariants.

Lemma lr_stacks_in_step_witness :
  length (lr_states aTurn2) = S (length (results aTurn2)).
Proof.
  refine (proj2 (@lr_stacks_in_step unit string tt aSymsOf aHandleOf
                   aIsFinal 2 aNextTerminals aPlan aGraph [] [] tpA
                   linesAab tt 0 0 2 aTurn2 _)).
  apply Turns_next with (c' := aTurn1); [vm_compute; reflexivity|].
  apply Turns_next with (c' := aTurn2); [vm_compute; reflexivity|].
  apply Turns_here.
Defined.

Lemma lrP_invalid_label_never_fails_witness :
  aMaximumInvalid 3 tt linesAab 0 0 <> Ok None.
Proof.
  unfold aMaximumInvalid, maximum_invalid.
  apply lrP_invalid_label_never_fails. reflexivity.
Defined.

(** * Spans *)

Lemma newSpan_Some : forall a b c d,
  posLe (a, b) (c, d) -> newSpan a b c d = Some (mkSpan a b c d).
Proof.
  intros a b c d H. unfold newSpan, posLe in *. simpl in H.
  destruct (c <? a) eqn:E1; [apply Nat.ltb_lt in E1; lia|].
  destruct (a =? c) eqn:E2; [|reflexivity].
  apply Nat.eqb_eq in E2.
  destruct (d <? b) eqn:E3; [apply Nat.ltb_lt in E3; lia|reflexivity].
Qed.

Lemma newSpan_None : forall a b c d,
  posLt (c, d) (a, b) -> newSpan a b c d = None.
Proof.
  intros a b c d H. unfold newSpan, posLt in *. simpl in H.
  destruct (c <? a) eqn:E1; [reflexivity|]. apply Nat.ltb_ge in E1.
  destruct (a =? c) eqn:E2; [|apply Nat.eqb_neq in E2; lia].
  destruct (d <? b) eqn:E3; [reflexivity|]. apply Nat.ltb_ge in E3. lia.
Qed.

(** X23: the constructor of [Span] and [resultCoordinatesAreValid] agree.
    [spanOfResult] throws on a result exactly when the coordinates of the
    result are not valid in the sense of [resultCoordinatesAreValid], and
    otherwise returns the span with the four coordinates of the result. *)
Theorem spanOfResult_valid_coordinates :
  forall (T : Type) (r : Result T),
    (spanOfResult r = None
     <-> resultCoordinatesAreValid (startLine r) (startColumnInclusive r)
           (endLine r) (endColumnExclusive r) = false)
    /\ (resultCoordinatesAreValid (startLine r) (startColumnInclusive r)
          (endLine r) (endColumnExclusive r) = true
        -> spanOfResult r
           = Some (mkSpan (startLine r) (startColumnInclusive r)
                     (endLine r) (endColumnExclusive r))).
Proof.
  intros T r. unfold spanOfResult.
  destruct (resultCoordinatesAreValid (startLine r) (startColumnInclusive r)
              (endLine r) (endColumnExclusive r)) eqn:E.
  - apply rcav_true in E. rewrite (newSpan_Some E).
    split; [split; discriminate|reflexivity].
  - apply rcav_false in E. rewrite (newSpan_None E).
    split; [split; reflexivity|discriminate].
Qed.

Lemma spanOfResult_valid_coordinates_witness :
  spanOfResult abNode = Some (mkSpan 0 0 0 2).
Proof.
  apply (proj2 (spanOfResult_valid_coordinates abNode)). reflexivity.
Defined.

(** X24: every result of a parser built from the combinators has a span:
    [spanOfResult] does not throw on it, and the span starts at the position
    at which the parser was entered. *)
Theorem spanOfResult_of_built :
  forall (State T : Type) (p : Parser State T),
    Built p ->
    forall (state : State) (lines : TextLines) (line column : nat)
           (state' : State) (r : Result T),
      p state lines line column = Ok (Some (state', r)) ->
      spanOfResult r
      = Some (mkSpan line column (endLine r) (endColumnExclusive r)).
Proof.
  intros State T p Hp state lines line column state' r H.
  destruct (Built_SpanOK Hp _ _ _ _ H) as [Hs Ho].
  inversion Ho as [r' Hv _ _ _]; subst r'.
  unfold spanOfResult. unfold validSpan in Hv.
  unfold startOfResult in Hs. injection Hs as Hl Hc.
  rewrite <- Hl, <- Hc. apply newSpan_Some. exact Hv.
Qed.

Lemma spanOfResult_of_built_witness :
  spanOfResult abNode
  = Some (mkSpan 0 0 (endLine abNode) (endColumnExclusive abNode)).
Proof.
  apply (@spanOfResult_of_built unit string abParser) with
    (state := tt) (lines := linesAbc) (state' := tt).
  - apply Built_seqP. intros p [<-|[<-|[]]]; apply Built_literalP.
  - reflexivity.
Defined.

Lemma cutout_shape :
  forall source line column skipFirst skipRemaining (w : CutoutTextLines),
    cutoutTextLines source line column skipFirst skipRemaining = Ok w ->
    (forall l c,
       absolute w l c
       = (p <- shift w l c ;; absolute source (fst p) (snd p)))
    /\ (forall l c, valid w l c = true -> exists p, shift w l c = Ok p)
    /\ valid w 0 0 = true.
Proof.
  intros source line column skipFirst skipRemaining w H.
  unfold cutoutTextLines in H. apply bind_inv in H as (u & Hu & H).
  destruct (lineCount source =? 0).
  - unfold EmptyTextLines in H. rewrite Hu in H. simpl in H.
    injection H as <-. simpl. split.
    + intros l c. destruct ((l =? 0) && (c =? 0)); reflexivity.
    + split; [|reflexivity]. intros l c Hv. rewrite Hv. eauto.
  - apply bind_inv in H as (text & _ & H). apply bind_inv in H as (s & _ & H).
    apply bind_inv in H as (t' & _ & H).
    apply bind_inv in H as ([ls cs] & _ & H).
    unfold TextLinesWindow in H.
    match type of H with
    | (if negb ?b then _ else _) = _ => destruct b eqn:E; [|discriminate]
    end.
    apply Nat.eqb_eq in E. simpl in H. injection H as <-. simpl. split.
    + intros l c.
      destruct (windowShift line (t' :: ls)
                  (column + Z.to_nat (Z.max s 0) :: cs) l c) as [[l' c']| |];
        reflexivity.
    + split; [|reflexivity]. intros l c Hv. unfold windowShift. rewrite Hv.
      unfold validIn in Hv. unfold index.
      destruct (nth_error (t' :: ls) l) eqn:N; [|discriminate].
      assert (Hl : l < length (t' :: ls))
        by (apply nth_error_Some; congruence).
      rewrite E in Hl. apply nth_error_Some in Hl.
      destruct (nth_error (column + Z.to_nat (Z.max s 0) :: cs) l);
        [|contradiction].
      simpl. eauto.
Qed.

(** X25: spans of a window translate to spans of the text.  In a window cut
    by [cutoutTextLines] out of a text whose positions are absolute (as those
    of [createTextLines] are), [absoluteSpan] of a span between two valid
    positions of the window does not throw: it is the span between the
    shifted positions, which are in the same order. *)
Theorem absoluteSpan_of_window :
  forall (source : TextLines) (line column : nat)
         (skipFirst skipRemaining : Lexer) (w : CutoutTextLines)
         (l1 c1 l2 c2 : nat),
    (forall l c, absolute source l c = Ok (l, c)) ->
    cutoutTextLines source line column skipFirst skipRemaining = Ok w ->
    valid w l1 c1 = true ->
    valid w l2 c2 = true ->
    posLe (l1, c1) (l2, c2) ->
    exists p q,
      shift w l1 c1 = Ok p /\ shift w l2 c2 = Ok q
      /\ posLe (line, column) p /\ posLe p q
      /\ absoluteSpan w (mkSpan l1 c1 l2 c2)
         = Ok (Some (mkSpan (fst p) (snd p) (fst q) (snd q))).
Proof.
  intros source line column skipFirst skipRemaining w l1 c1 l2 c2
    Habs H Hv1 Hv2 Hle.
  destruct (@cutout_shape _ _ _ _ _ _ H) as (Ha & Hs & H0).
  destruct (Hs _ _ Hv1) as (p & Hp). destruct (Hs _ _ Hv2) as (q & Hq).
  destruct (Hs _ _ H0) as (o & Ho).
  pose proof (@cutout_Monotone _ _ _ _ _ _ H) as Hm.
  exists p, q. split; [exact Hp|]. split; [exact Hq|].
  assert (Hpq : posLe p q) by exact (Hm _ _ _ _ _ _ Hp Hq Hle).
  split; [|split; [exact Hpq|]].
  - apply posLe_trans with o.
    + exact (@cutout_origin _ _ _ _ _ _ _ H Ho).
    + apply (Hm _ _ _ _ _ _ Ho Hp). unfold posLe. simpl. lia.
  - unfold absoluteSpan. simpl. rewrite !Ha, Hp, Hq.
    cbv beta iota delta [bind]. rewrite !Habs.
    destruct p as [pl pc], q as [ql qc]. simpl.
    now rewrite (newSpan_Some Hpq).
Qed.

(** The window cut at (1, 0) out of "a" and "b": the span of its only line
    is the span of the second line of the text. *)
Lemma absoluteSpan_of_window_witness :
  exists (w : CutoutTextLines) p q,
    cutoutTextLines linesAB 1 0 noIndent noIndent = Ok w
    /\ shift w 0 0 = Ok p /\ shift w 0 1 = Ok q
    /\ posLe (1, 0) p /\ posLe p q
    /\ absoluteSpan w (mkSpan 0 0 0 1)
       = Ok (Some (mkSpan (fst p) (snd p) (fst q) (snd q))).
Proof.
  destruct (cutoutTextLines linesAB 1 0 noIndent noIndent) as [w| |] eqn:E;
    try discriminate.
  assert (Hv : valid w 0 0 = true /\ valid w 0 1 = true).
  { vm_compute in E. injection E as <-. split; reflexivity. }
  destruct (@absoluteSpan_of_window linesAB 1 0 noIndent noIndent w 0 0 0 1)
    as (p & q & H); try tauto.
  - unfold posLe. simpl. lia.
  - exists w, p, q. tauto.
Defined.

(** * Where results end *)

Lemma assert_ok : forall lines l c u,
  assert lines l c = Ok u -> valid lines l c = true.
Proof.
  intros lines l c u H. unfold assert in H.
  destruct (valid lines l c); [reflexivity|discriminate].
Qed.

Lemma Coherent_lists : forall (lines : TextLines) (ls : list Text),
  lineCount lines = length ls ->
  (forall l, lineAt lines l = index ls l) ->
  (forall l c, valid lines l c = validIn ls l c) ->
  Coherent lines.
Proof.
  intros lines ls Hn Hat Hv. split.
  - intros l c H. rewrite Hv in H. unfold validIn in H. rewrite Hn.
    destruct (nth_error ls l) eqn:E.
    + left. apply nth_error_Some. congruence.
    + right. apply andb_prop in H as [H H3]. apply andb_prop in H as [H1 H2].
      apply Nat.eqb_eq in H1, H2, H3. auto.
  - intros l Hl. rewrite Hn in Hl.
    destruct (nth_error ls l) as [t|] eqn:E;
      [|apply nth_error_None in E; lia].
    exists t. split.
    + rewrite Hat. unfold index. now rewrite E.
    + intros c. rewrite Hv. unfold validIn. rewrite E. apply Nat.leb_le.
Qed.

Lemma Coherent_createTextLines : forall x, Coherent (createTextLines x).
Proof.
  intros [s|ls]; simpl; eapply Coherent_lists; simpl; reflexivity.
Qed.

Lemma cutoff_cases :
  forall source line isIndented view,
    cutoffAfterIndentation source line isIndented = Ok view ->
    view = source
    \/ exists cut, view = CutoffTextLines source cut
                   /\ line < cut < lineCount source.
Proof.
  intros source line isIndented view H. unfold cutoffAfterIndentation in H.
  apply bind_inv in H as (u & _ & H).
  destruct (Nat.le_gt_cases (lineCount source) line) as [Hle|Hgt].
  - replace (lineCount source - (line + 1)) with 0 in H by lia.
    simpl in H. injection H as <-. now left.
  - apply cutoffLoop_spec in H; [|lia].
    destruct H as [[-> _]|(cut & -> & Hc & _)]; [now left|].
    right. exists cut. split; [reflexivity|lia].
Qed.

Lemma Coherent_cutoff :
  forall source line isIndented view,
    Coherent source ->
    cutoffAfterIndentation source line isIndented = Ok view ->
    Coherent view
    /\ forall l c, valid view l c = true -> valid source l c = true.
Proof.
  intros source line isIndented view [H1 H2] H.
  apply cutoff_cases in H as [->|(cut & -> & Hc)].
  - split; [split; assumption|auto].
  - split; [split|]; simpl.
    + intros l c Hv. apply andb_prop in Hv as [_ Hv].
      apply Nat.ltb_lt in Hv. now left.
    + intros l Hl. destruct (H2 l ltac:(lia)) as (t & Ht & Hv).
      exists t. split.
      * now replace (lineCount source <=? l) with false
          by (symmetry; apply Nat.leb_gt; lia).
      * intros c. replace (l <? cut) with true
          by (symmetry; apply Nat.ltb_lt; exact Hl).
        rewrite andb_true_r. apply Hv.
    + intros l c Hv. apply andb_prop in Hv. tauto.
Qed.

Lemma slice_rest : forall t a t',
  slice t a None = Ok t' -> a <= count t /\ count t' = count t - a.
Proof.
  intros t a t' H. unfold slice in H.
  destruct (count t <? a) eqn:E; [discriminate|]. apply Nat.ltb_ge in E.
  rewrite Nat.ltb_irrefl in H. injection H as <-. simpl. auto.
Qed.

(** The window of [cutoutTextLines] is coherent, and its valid positions
    shift to valid positions of the source. *)
Lemma Coherent_cutout :
  forall source line column skipFirst skipRemaining (w : CutoutTextLines),
    Coherent source ->
    cutoutTextLines source line column skipFirst skipRemaining = Ok w ->
    Coherent w
    /\ forall l c, valid w l c = true ->
         exists p, shift w l c = Ok p /\ valid source (fst p) (snd p) = true.
Proof.
  intros source line column skipFirst skipRemaining w [H1 H2] H.
  unfold cutoutTextLines in H. apply bind_inv in H as (u & Hu & H).
  apply assert_ok in Hu.
  destruct (lineCount source =? 0) eqn:E0.
  - unfold EmptyTextLines in H. apply bind_inv in H as (u' & _ & H).
    injection H as <-. simpl. split; [split|]; simpl.
    + intros l c Hv. apply andb_prop in Hv as [Hl Hc].
      apply Nat.eqb_eq in Hl, Hc. auto.
    + intros l Hl. lia.
    + intros l c Hv. rewrite Hv. eexists. split; [reflexivity|exact Hu].
  - apply Nat.eqb_neq in E0.
    apply bind_inv in H as (text & Htext & H).
    apply bind_inv in H as (s & _ & H).
    apply bind_inv in H as (t' & Ht' & H).
    apply bind_inv in H as ([ls cs] & Hloop & H).
    apply cutoutLoop_ok in Hloop as (Hlen & Hn & Hlines & _).
    unfold TextLinesWindow in H.
    match type of H with
    | (if negb ?b then _ else _) = _ => destruct b eqn:E; [|discriminate]
    end.
    simpl in H. injection H as <-. split.
    + apply Coherent_lists with (ls := t' :: ls); reflexivity.
    + simpl. intros l c Hv. unfold windowShift. rewrite Hv.
      unfold validIn in Hv.
      assert (Hline : line < lineCount source)
        by (destruct (H1 _ _ Hu) as [?|(? & _)]; [assumption|contradiction]).
      destruct l as [|k]; simpl in Hv |- *.
      * eexists. split; [reflexivity|]. simpl.
        destruct (H2 _ Hline) as (t & Ht & Hval).
        rewrite Htext in Ht. injection Ht as <-.
        apply slice_rest in Ht' as [Ha Hc]. apply Hval.
        apply Nat.leb_le in Hv. lia.
      * destruct (nth_error ls k) as [tk|] eqn:Ek; [|discriminate].
        assert (Hk : k < length ls) by (apply nth_error_Some; congruence).
        destruct (Hlines k Hk) as (t & sk & tk' & Lt & _ & Hs & Sl & Nl & Nc).
        rewrite Ek in Nl. injection Nl as <-.
        unfold index. simpl. rewrite Nc. simpl.
        eexists. split; [reflexivity|]. simpl.
        assert (Hin : line + 1 + k < lineCount source) by lia.
        destruct (H2 _ Hin) as (t0 & Ht0 & Hval).
        rewrite Lt in Ht0. injection Ht0 as <-.
        apply slice_rest in Sl as [Ha Hc].
        replace (S (k + line)) with (line + 1 + k) by lia.
        apply Hval. apply Nat.leb_le in Hv. lia.
Qed.

Section EndsOfCombinators.
Context {State T : Type}.
Implicit Types (p : Parser State T) (ps : list (Parser State T)).

Lemma EndsValid_emptyP : EndsValid (@emptyP State T).
Proof.
  intros state lines line column state' r _ H. unfold emptyP in H.
  apply bind_inv in H as (u & Hu & H). apply assert_ok in Hu.
  injection H as <- <-. exact Hu.
Qed.

Lemma EndsValid_charP : forall predicate, EndsValid (@charP State T predicate).
Proof.
  intros predicate state lines line column state' r [_ H2] H.
  unfold charP in H. apply bind_inv in H as (u & _ & H).
  destruct (lineCount lines <=? line) eqn:E; [discriminate|].
  apply Nat.leb_gt in E.
  apply bind_inv in H as (text & Ht & H).
  destruct (count text <=? column) eqn:Ec; [discriminate|].
  apply Nat.leb_gt in Ec.
  apply bind_inv in H as (c & _ & H).
  destruct (negb (predicate c)); [discriminate|].
  injection H as <- <-. simpl.
  destruct (H2 _ E) as (t & Ht' & Hv). rewrite Ht in Ht'.
  injection Ht' as <-. apply Hv. lia.
Qed.

Lemma EndsValid_newlineP : EndsValid (@newlineP State T).
Proof.
  intros state lines line column state' r [_ H2] H.
  unfold newlineP in H. apply bind_inv in H as (u & _ & H).
  apply bind_inv in H as (b & Hb & H). destruct b; [|discriminate].
  injection H as <- <-. simpl.
  destruct (line + 1 <? lineCount lines) eqn:E; [|discriminate].
  apply Nat.ltb_lt in E. destruct (H2 _ E) as (t & _ & Hv).
  apply Hv. lia.
Qed.

Lemma EndsValid_eofP : EndsValid (@eofP State T).
Proof.
  intros state lines line column state' r _ H. unfold eofP in H.
  apply bind_inv in H as (u & Hu & H). apply assert_ok in Hu.
  apply bind_inv in H as (b & _ & H). destruct b; [|discriminate].
  injection H as <- <-. exact Hu.
Qed.

Lemma EndsValid_bolP : EndsValid (@bolP State T).
Proof.
  intros state lines line column state' r _ H. unfold bolP in H.
  apply bind_inv in H as (u & Hu & H). apply assert_ok in Hu.
  destruct ((line <? lineCount lines) && (column =? 0)); [|discriminate].
  injection H as <- <-. exact Hu.
Qed.

Lemma seqLoop_ends : forall ps,
  (forall p, In p ps -> EndsValid p) ->
  forall state lines line column children state' line' column' children',
    Coherent lines ->
    valid lines line column = true ->
    seqLoop ps state lines line column children
    = Ok (Some (state', line', column', children')) ->
    valid lines line' column' = true.
Proof.
  induction ps as [|p ps IH]; intros Hps state lines line column children
    state' line' column' children' Hc Hv H.
  - simpl in H. injection H as <- <- <- <-. exact Hv.
  - rewrite seqLoop_cons in H. apply bind_inv in H as (parsed & Hp & H).
    destruct parsed as [[state1 r1]|]; [|discriminate].
    apply IH in H; [exact H| |exact Hc|].
    + intros q Hq. apply Hps. now right.
    + eapply Hps; [now left|exact Hc|exact Hp].
Qed.

Lemma EndsValid_seqP : forall ps,
  (forall p, In p ps -> EndsValid p) -> EndsValid (seqP ps).
Proof.
  intros ps Hps. destruct ps as [|p1 [|p2 ps]].
  - apply EndsValid_emptyP.
  - apply Hps. now left.
  - intros state lines line column state' r Hc H.
    rewrite seqP_many in H. apply bind_inv in H as (u & Hu & H).
    apply assert_ok in Hu.
    apply bind_inv in H as (o & L & H).
    destruct o as [[[[st l] c] cs]|]; [|discriminate].
    injection H as <- <-. simpl.
    exact (@seqLoop_ends _ Hps _ _ _ _ _ _ _ _ _ Hc Hu L).
Qed.

Lemma EndsValid_orP : forall ps,
  (forall p, In p ps -> EndsValid p) -> EndsValid (orP ps).
Proof.
  intros ps Hps state lines line column state' r Hc H. unfold orP in H.
  apply bind_inv in H as (u & _ & H).
  induction ps as [|p ps IH]; simpl in H; [discriminate|].
  apply bind_inv in H as (res & Hp & H).
  destruct res as [[st1 r1]|].
  - injection H as <- <-. eapply Hps; [now left|exact Hc|exact Hp].
  - apply IH; [|exact H]. intros q Hq. apply Hps. now right.
Qed.

Lemma repLoop_ends : forall p,
  EndsValid p ->
  forall fuel startLine startColumn state lines line column children state' r,
    Coherent lines ->
    valid lines line column = true ->
    repLoop fuel p startLine startColumn state lines line column children
    = Ok (Some (state', r)) ->
    valid lines (endLine r) (endColumnExclusive r) = true.
Proof.
  intros p Hp. induction fuel as [|fuel IH];
    intros startLine startColumn state lines line column children state' r
           Hc Hv H; [discriminate|].
  rewrite repLoop_S in H. apply bind_inv in H as (parsed & E & H).
  destruct parsed as [[state1 r1]|].
  - eapply IH; [exact Hc| |exact H]. eapply Hp; [exact Hc|exact E].
  - injection H as <- <-. exact Hv.
Qed.

Lemma EndsValid_repP : forall fuel ps,
  (forall p, In p ps -> EndsValid p) -> EndsValid (repP fuel ps).
Proof.
  intros fuel ps Hps state lines line column state' r Hc H. unfold repP in H.
  apply bind_inv in H as (u & Hu & H). apply assert_ok in Hu.
  eapply repLoop_ends; [apply EndsValid_seqP; exact Hps|exact Hc|exact Hu|].
  exact H.
Qed.

Lemma EndsValid_literalP :
  forall text ty, EndsValid (@literalP State T text ty).
Proof.
  intros text ty state lines line column state' r Hc H.
  unfold literalP, setTypeP, modifyTypeP, modifyResultP, modifyParseResultP
    in H.
  apply bind_inv in H as (res & E & H).
  destruct res as [[st r0]|]; [|discriminate].
  injection H as <- <-. simpl.
  eapply EndsValid_seqP; [|exact Hc|exact E].
  intros p Hp. apply in_map_iff in Hp as (c & <- & _). apply EndsValid_charP.
Qed.

Lemma EndsValid_sectionP :
  forall bulletP (bodyP : TextLines -> State -> Result T -> Parser State T)
         spacesL indentationL afterP,
    EndsValid bulletP ->
    (forall lines state bullet, EndsValid (bodyP lines state bullet)) ->
    EndsValid afterP ->
    EndsValid (sectionP bulletP bodyP spacesL indentationL afterP).
Proof.
  intros bulletP bodyP spacesL indentationL afterP Hb Hbody Ha
         state lines line column state' r Hc H.
  destruct (sectionP_inv _ _ _ _ _ _ _ _ _ H)
    as (-> & Hv & bullet & body & after & Hsteps & Hj).
  apply joinResults_ok in Hj. destruct Hj as [-> _]. simpl.
  destruct Hsteps as [bulletLines state1 bullet bodyLines state2 body0 body
                        after S1 S2 S3 S4 S5 S6].
  destruct (@Coherent_cutoff _ _ _ _ Hc S1) as [Hcb Hsub].
  assert (Hbv : valid lines (endLine bullet) (endColumnExclusive bullet)
                = true) by (apply Hsub; exact (Hb _ _ _ _ _ _ Hcb S2)).
  destruct (@Coherent_cutout _ _ _ _ _ _ Hc S3) as [Hcw Hshift].
  pose proof (Hbody _ _ _ _ _ _ _ _ _ Hcw S4) as Hwv.
  destruct body0 as [ty sl sc el ec cs].
  destruct (@shiftResult_inv _ _ _ _ _ _ _ _ _ S5)
    as (s & e & cs' & _ & He & _ & ->).
  simpl in Hwv. destruct (Hshift _ _ Hwv) as (q & Hq & Hqv).
  rewrite He in Hq. injection Hq as <-.
  destruct after as [[st ra]|]; simpl.
  - exact (Ha _ _ _ _ _ _ Hc S6).
  - exact Hqv.
Qed.

Lemma Built_EndsValid : forall p, Built p -> EndsValid p.
Proof.
  induction 1.
  - apply EndsValid_emptyP.
  - apply EndsValid_charP.
  - apply EndsValid_newlineP.
  - apply EndsValid_eofP.
  - apply EndsValid_bolP.
  - now apply EndsValid_seqP.
  - now apply EndsValid_orP.
  - now apply EndsValid_repP.
  - apply EndsValid_literalP.
  - now apply EndsValid_sectionP.
Qed.
End EndsOfCombinators.

(** X26: every success of a parser built from the combinators ends at a
    valid position of the text it was run on, for a text whose valid
    positions fit its lines, as those of [createTextLines] do.  So the next
    parser of a sequence or repetition is entered at a valid position. *)
Theorem built_parsers_end_at_valid_positions :
  forall (State T : Type) (p : Parser State T),
    Built p ->
    forall (state : State) (lines : TextLines) (line column : nat)
           (state' : State) (r : Result T),
      Coherent lines ->
      p state lines line column = Ok (Some (state', r)) ->
      valid lines (endLine r) (endColumnExclusive r) = true.
Proof.
  intros State T p Hp state lines line column state' r Hc H.
  eapply Built_EndsValid; eassumption.
Qed.

Lemma built_parsers_end_at_valid_positions_witness :
  valid linesAbc (endLine abNode) (endColumnExclusive abNode) = true.
Proof.
  apply (@built_parsers_end_at_valid_positions unit string abParser) with
    (state := tt) (line := 0) (column := 0) (state' := tt).
  - apply Built_seqP. intros p [<-|[<-|[]]]; apply Built_literalP.
  - apply Coherent_createTextLines.
  - reflexivity.
Defined.

(** X27: the views of a text keep its positions coherent.  The text of
    [createTextLines] is coherent; so is the view that
    [cutoffAfterIndentation] gives of a coherent text, and so is the window
    that [cutoutTextLines] cuts out of one, whose valid positions [shift]
    moves to valid positions of the text. *)
Theorem views_are_coherent :
  (forall x, Coherent (createTextLines x))
  /\ (forall source line isIndented view,
        Coherent source ->
        cutoffAfterIndentation source line isIndented = Ok view ->
        Coherent view)
  /\ (forall source line column skipFirst skipRemaining
             (w : CutoutTextLines),
        Coherent source ->
        cutoutTextLines source line column skipFirst skipRemaining = Ok w ->
        Coherent w
        /\ forall l c, valid w l c = true ->
             exists p, shift w l c = Ok p
                       /\ valid source (fst p) (snd p) = true).
Proof.
  split; [exact Coherent_createTextLines|]. split.
  - intros source line isIndented view Hc H.
    exact (proj1 (@Coherent_cutoff _ _ _ _ Hc H)).
  - intros source line column skipFirst skipRemaining w Hc H.
    exact (@Coherent_cutout _ _ _ _ _ _ Hc H).
Qed.

Lemma views_are_coherent_witness :
  exists w : CutoutTextLines,
    cutoutTextLines linesAB 1 0 noIndent noIndent = Ok w /\ Coherent w.
Proof.
  destruct (cutoutTextLines linesAB 1 0 noIndent noIndent) as [w| |] eqn:E;
    try discriminate.
  exists w. split; [reflexivity|].
  exact (proj1 (proj2 (proj2 views_are_coherent) linesAB 1 0 noIndent
                  noIndent w (proj1 views_are_coherent _) E)).
Defined.

Section LexerOfParser.
Context {State T : Type}.

Lemma parserL_contract_of :
  forall q : Parser unit T,
    SpanOK q -> EndsValid q ->
    forall text column z,
      parserL q text column = Ok z ->
      (z = (-1)%Z
       /\ q tt (createTextLines (OfTexts [text])) 0 column = Ok None)
      \/ (exists r,
            q tt (createTextLines (OfTexts [text])) 0 column
            = Ok (Some (tt, r))
            /\ endLine r = 0
            /\ z = (Z.of_nat (endColumnExclusive r) - Z.of_nat column)%Z
            /\ (0 <= z <= Z.of_nat (count text) - Z.of_nat column)%Z).
Proof.
  intros q Hs He text column z H. unfold parserL in H.
  apply bind_inv in H as (res & Hq & H).
  destruct res as [[[] r]|].
  - right. exists r. split; [exact Hq|]. injection H as <-.
    destruct (Hs _ _ _ _ _ _ Hq) as [Hstart Hord].
    pose proof (He _ _ _ _ _ _ (Coherent_createTextLines _) Hq) as Hv.
    simpl in Hv. unfold validIn in Hv.
    inversion Hord as [r' Hspan _ _ _]; subst r'.
    unfold validSpan in Hspan. rewrite Hstart in Hspan.
    unfold posLe, endOfResult in Hspan. simpl in Hspan.
    destruct (endLine r) as [|l].
    + simpl in Hv. apply Nat.leb_le in Hv. split; [reflexivity|].
      split; [reflexivity|]. lia.
    + destruct l; discriminate.
  - left. injection H as <-. split; [reflexivity|exact Hq].
Qed.

Lemma SpanOK_nullP : forall (p : Parser State T) state,
  SpanOK p -> SpanOK (nullP p state).
Proof.
  intros p state Hp [] lines line column [] r H. unfold nullP in H.
  apply bind_inv in H as (res & E & H).
  destruct res as [[st r0]|]; [|discriminate].
  injection H as <-. exact (Hp _ _ _ _ _ _ E).
Qed.

Lemma EndsValid_nullP : forall (p : Parser State T) state,
  EndsValid p -> EndsValid (nullP p state).
Proof.
  intros p state Hp [] lines line column [] r Hc H. unfold nullP in H.
  apply bind_inv in H as (res & E & H).
  destruct res as [[st r0]|]; [|discriminate].
  injection H as <-. exact (Hp _ _ _ _ _ _ Hc E).
Qed.

(** X28: the lexer made of a parser keeps the contract of lexers.  For a
    parser [p] built from the combinators and any user state, whenever
    [parserL(nullP(p, state))] returns on a text and a column, it returns
    -1 and the parser has failed on the text as its only line, or it
    returns a length that is not negative and stays within the text: the
    parser has succeeded and ended on the same line, that many columns
    further. *)
Theorem parserL_lexer_contract :
  forall (p : Parser State T),
    Built p ->
    forall (state : State) (text : Text) (column : nat) (z : Z),
      parserL (nullP p state) text column = Ok z ->
      (z = (-1)%Z
       /\ p state (createTextLines (OfTexts [text])) 0 column = Ok None)
      \/ (exists state' r,
            p state (createTextLines (OfTexts [text])) 0 column
            = Ok (Some (state', r))
            /\ endLine r = 0
            /\ endColumnExclusive r = column + Z.to_nat z
            /\ (0 <= z)%Z /\ column + Z.to_nat z <= count text).
Proof.
  intros p Hp state text column z H.
  apply parserL_contract_of in H;
    [|apply SpanOK_nullP, Built_SpanOK, Hp
     |apply EndsValid_nullP, Built_EndsValid, Hp].
  unfold nullP in H.
  destruct (p state (createTextLines (OfTexts [text])) 0 column)
    as [[[st r0]|]| |] eqn:E; simpl in H.
  - right. destruct H as [[_ H]|(r & Hr & Hl & Hz & Hb)]; [discriminate|].
    injection Hr as <-. exists st, r0. split; [reflexivity|].
    split; [exact Hl|]. lia.
  - left. destruct H as [[Hz _]|(r & Hr & _)]; [|discriminate].
    split; [exact Hz|reflexivity].
  - destruct H as [[_ H]|(r & H & _)]; discriminate.
  - destruct H as [[_ H]|(r & H & _)]; discriminate.
Qed.
End LexerOfParser.

(** The lexer of the parser of "a" then "b" returns 2 on "abc". *)
Lemma parserL_lexer_contract_witness :
  parserL (nullP abParser tt) (textOf (Str "abc")) 0 = Ok 2%Z
  /\ exists state' r,
       abParser tt (createTextLines (OfTexts [textOf (Str "abc")])) 0 0
       = Ok (Some (state', r))
       /\ endColumnExclusive r = 0 + Z.to_nat 2.
Proof.
  split; [reflexivity|].
  destruct (@parserL_lexer_contract unit string abParser) with
    (state := tt) (text := textOf (Str "abc")) (column := 0) (z := 2%Z)
    as [[Hz _]|(st & r & Hr & _ & He & _)].
  - apply Built_seqP. intros p [<-|[<-|[]]]; apply Built_literalP.
  - reflexivity.
  - discriminate Hz.
  - exists st, r. split; [exact Hr|exact He].
Defined.

(** * Literals *)

Section Literals.
Context {State T : Type}.

Local Notation letterP :=
  (fun c : ascii => @charP State T (fun d => Ascii.eqb c d)).

Lemma charP_at :
  forall (ls : list Text) (line column : nat) (t : Text) (c : TextChar)
         (state : State),
    nth_error ls line = Some t -> ProperText t -> column <= count t ->
    letterP c state (TextLinesImpl ls) line column
    = Ok (match skipn column (iterText t) with
          | d :: _ =>
              if Ascii.eqb c d
              then Some (state,
                         mkResult TUndefined line column line (column + 1) [])
              else None
          | [] => None
          end).
Proof.
  intros ls line column t c state Hn Hp Hc.
  unfold charP, assert. simpl. unfold validIn, index. rewrite Hn.
  replace (column <=? count t) with true
    by (symmetry; apply Nat.leb_le; exact Hc).
  cbv beta iota delta [bind].
  replace (length ls <=? line) with false
    by (symmetry; apply Nat.leb_gt, nth_error_Some; congruence).
  destruct (count t <=? column) eqn:E.
  - apply Nat.leb_le in E.
    rewrite skipn_all2 by (rewrite iterText_length by exact Hp; lia).
    reflexivity.
  - apply Nat.leb_gt in E.
    destruct (charAt_iterText Hp E) as (d & Hd & Hnth).
    destruct (nth_error_split _ _ Hnth) as [_ Hs].
    rewrite Hd, Hs. cbv beta iota delta [bind].
    destruct (Ascii.eqb c d); reflexivity.
Qed.

Lemma literal_loop :
  forall (ls : list Text) (line : nat) (t : Text) (state : State),
    nth_error ls line = Some t -> ProperText t ->
    forall (cs : list TextChar) (column : nat),
      column <= count t ->
      seqLoop (map letterP cs) state (TextLinesImpl ls) line column []
      = Ok (if startsWith cs (skipn column (iterText t))
            then Some (state, line, column + length cs, [])
            else None).
Proof.
  intros ls line t state Hn Hp. induction cs as [|c cs IH]; intros column Hc.
  - simpl. now rewrite Nat.add_0_r.
  - cbn [map]. rewrite seqLoop_cons, (@charP_at ls line column t c state Hn Hp Hc).
    cbv beta iota delta [bind].
    destruct (skipn column (iterText t)) as [|d rest] eqn:Es; [reflexivity|].
    cbn [startsWith]. destruct (Ascii.eqb c d); [|reflexivity].
    assert (Hlt : column < count t).
    { destruct (Nat.eq_dec column (count t)) as [->|]; [|lia].
      rewrite skipn_all2 in Es
        by (rewrite iterText_length by exact Hp; lia).
      discriminate. }
    assert (Hrest : skipn (column + 1) (iterText t) = rest).
    { replace (column + 1) with (1 + column) by lia.
      rewrite <- skipn_skipn, Es. reflexivity. }
    cbn [endLine endColumnExclusive andb].
    change (pushResult [] (mkResult (@TUndefined T) line column line
                             (column + 1) []))
      with (@nil (Result T)).
    rewrite IH by lia. rewrite Hrest.
    replace (column + 1 + length cs) with (column + length (c :: cs))
      by (simpl; lia).
    reflexivity.
Qed.

(** X29: [literalP(text, type)] finds exactly the literal.  On the lines
    [ls], each a slice within its backing array, it throws at an invalid
    position; at a valid one it succeeds exactly when the line has the
    characters of [text] from the column on (without a line, when [text] is
    empty): it then returns, with the state unchanged, a node of type [type]
    without children that spans those characters; otherwise it fails. *)
Theorem literalP_matches :
  forall (text : StringOrText) (ty : ResultType T) (state : State)
         (ls : list Text) (line column : nat),
    Forall ProperText ls ->
    literalP text ty state (createTextLines (OfTexts ls)) line column
    = if validIn ls line column then
        Ok (if literalAt ls line column (iterText (textOf text))
            then Some (state,
                       mkResult ty line column line
                         (column + length (iterText (textOf text))) [])
            else None)
      else Throw InvalidPosition.
Proof.
  intros text ty state ls line column Hls.
  unfold literalP, setTypeP, modifyTypeP, modifyResultP, modifyParseResultP.
  set (cs := iterText (textOf text)). simpl createTextLines.
  destruct (validIn ls line column) eqn:Hv.
  - unfold literalAt. unfold validIn in Hv.
    destruct (nth_error ls line) as [t|] eqn:Hn.
    + apply Nat.leb_le in Hv.
      assert (Hp : ProperText t).
      { rewrite Forall_forall in Hls. apply Hls.
        eapply nth_error_In; exact Hn. }
      destruct cs as [|c1 [|c2 cs]].
      * simpl. unfold emptyP, assert. simpl. unfold validIn. rewrite Hn.
        replace (column <=? count t) with true
          by (symmetry; apply Nat.leb_le; exact Hv).
        simpl. now rewrite Nat.add_0_r.
      * cbn [map seqP]. rewrite (@charP_at ls line column t c1 state Hn Hp Hv).
        cbv beta iota delta [bind]. cbn [startsWith].
        destruct (skipn column (iterText t)) as [|d rest]; [reflexivity|].
        rewrite andb_true_r. destruct (Ascii.eqb c1 d); reflexivity.
      * cbn [map]. rewrite seqP_many. unfold assert. simpl valid.
        unfold validIn at 1. rewrite Hn.
        replace (column <=? count t) with true
          by (symmetry; apply Nat.leb_le; exact Hv).
        cbv beta iota delta [bind].
        pose proof (@literal_loop ls line t state Hn Hp (c1 :: c2 :: cs)
                      column Hv) as HL.
        cbn [map] in HL. rewrite HL.
        destruct (startsWith (c1 :: c2 :: cs) (skipn column (iterText t)));
          reflexivity.
    + apply andb_prop in Hv as [Hv H3]. apply andb_prop in Hv as [H1 H2].
      apply Nat.eqb_eq in H1, H2, H3. subst line column.
      destruct ls; [|discriminate].
      destruct cs as [|c1 [|c2 cs]]; reflexivity.
  - destruct cs as [|c1 [|c2 cs]].
    + simpl. unfold emptyP, assert. simpl. now rewrite Hv.
    + cbn [map seqP]. unfold charP, assert. simpl. now rewrite Hv.
    + cbn [map]. rewrite seqP_many. unfold assert. simpl valid.
      now rewrite Hv.
Qed.
End Literals.

(** The literal "bc" is found on "abc" at column 1. *)
Lemma literalP_matches_witness :
  literalP (Str "bc") (Label "BC"%string) tt linesAbc 0 1
  = Ok (Some (tt, mkResult (Label "BC"%string) 0 1 0 3 [])).
Proof.
  apply (@literalP_matches unit string (Str "bc") (Label "BC"%string) tt
           [textOf (Str "abc")] 0 1).
  repeat constructor.
Defined.

(** * Printing of numbers *)

Lemma padZeros_length : forall n s,
  String.length (padZeros n s) = n + String.length s.
Proof.
  induction n as [|n IH]; intros s; simpl; [reflexivity|].
  rewrite IH. simpl. lia.
Qed.

Lemma padZeros_zeros : forall n s,
  padZeros n s
  = (string_of_list_ascii (repeat "0"%char n) ++ s)%string.
Proof.
  induction n as [|n IH]; intros s; [reflexivity|].
  cbn [padZeros]. rewrite IH. clear IH.
  induction n as [|n IH]; [reflexivity|].
  simpl in *. now rewrite IH.
Qed.

(** X30: [digits(x, len)] pads and never truncates: it is the decimal
    numeral of [x] behind as many zeros as it lacks to the length [len], and
    so has the length of the numeral or [len], whichever is larger. *)
Theorem digits_pads :
  forall x len : nat,
    digits x len
    = (string_of_list_ascii
         (repeat "0"%char (len - String.length (numberToString x)))
       ++ numberToString x)%string
    /\ String.length (digits x len)
       = Nat.max len (String.length (numberToString x)).
Proof.
  intros x len. unfold digits. split.
  - apply padZeros_zeros.
  - rewrite padZeros_length. lia.
Qed.
